(** * claude-rtl-fixer: the patch transaction over a modelled file system

    A shallow embedding of [integrity.js], [backup.js] and [patcher.js],
    followed by the directory scan of [finder.js], the payload of
    [rtl-payload.js] and the exit code of [cli.js].
    Buffers are lists of bytes, JavaScript strings are [string]s, the
    installation directory is a finite map from path to file content, and
    every function that touches the disk is a state-passing computation
    that either returns or throws.

    A file-system call throws in two situations only: the file is not there
    (ENOENT), or the path is held by another process and cannot be written
    or removed (EBUSY); [fs.readSync] also refuses a length that is
    negative as a 32-bit integer or does not fit its buffer. Locks and the
    host's running state do not change during one invocation. Text files
    are decoded and encoded one byte per character. The archive library,
    the injected payload, the JSON codec and the clock are parameters
    ([Env]). *)

From Stdlib Require Import Strings.Byte NArith Ascii String Sorted.
From stdpp Require Import gmap strings list fin_maps.

Local Open Scope N_scope.

(** ** Node's [crypto.createHash("sha256")]

    Modelled from FIPS 180-4; the digest is not code of the repository. *)
Module Sha256.

Definition mask32 : N := 4294967295.
Definition add32 (a b : N) : N := N.land (a + b) mask32.
Definition rotr (n x : N) : N :=
  N.lor (N.shiftr x n) (N.land (N.shiftl x (32 - n)) mask32).
Definition not32 (x : N) : N := N.lxor x mask32.

Definition Ch (x y z : N) : N := N.lxor (N.land x y) (N.land (not32 x) z).
Definition Maj (x y z : N) : N :=
  N.lxor (N.lxor (N.land x y) (N.land x z)) (N.land y z).
Definition Sigma0 (x : N) : N := N.lxor (N.lxor (rotr 2 x) (rotr 13 x)) (rotr 22 x).
Definition Sigma1 (x : N) : N := N.lxor (N.lxor (rotr 6 x) (rotr 11 x)) (rotr 25 x).
Definition sigma0 (x : N) : N := N.lxor (N.lxor (rotr 7 x) (rotr 18 x)) (N.shiftr x 3).
Definition sigma1 (x : N) : N := N.lxor (N.lxor (rotr 17 x) (rotr 19 x)) (N.shiftr x 10).

Definition K : list N :=
  [ 1116352408; 1899447441; 3049323471; 3921009573; 961987163; 1508970993;
    2453635748; 2870763221; 3624381080; 310598401; 607225278; 1426881987;
    1925078388; 2162078206; 2614888103; 3248222580; 3835390401; 4022224774;
    264347078; 604807628; 770255983; 1249150122; 1555081692; 1996064986;
    2554220882; 2821834349; 2952996808; 3210313671; 3336571891; 3584528711;
    113926993; 338241895; 666307205; 773529912; 1294757372; 1396182291;
    1695183700; 1986661051; 2177026350; 2456956037; 2730485921; 2820302411;
    3259730800; 3345764771; 3516065817; 3600352804; 4094571909; 275423344;
    430227734; 506948616; 659060556; 883997877; 958139571; 1322822218;
    1537002063; 1747873779; 1955562222; 2024104815; 2227730452; 2361852424;
    2428436474; 2756734187; 3204031479; 3329325298 ].

Record State := mkState {
  ha : N; hb : N; hc : N; hd : N; he : N; hf : N; hg : N; hh : N }.

Definition H0 : State :=
  mkState 1779033703 3144134277 1013904242 2773480762
          1359893119 2600822924 528734635 1541459225.

Definition round (k w : N) (s : State) : State :=
  let t1 := add32 (add32 (add32 (hh s) (Sigma1 (he s)))
                         (add32 (Ch (he s) (hf s) (hg s)) k)) w in
  let t2 := add32 (Sigma0 (ha s)) (Maj (ha s) (hb s) (hc s)) in
  mkState (add32 t1 t2) (ha s) (hb s) (hc s) (add32 (hd s) t1) (he s) (hf s) (hg s).

(** [win] holds W[t..t+15]; each round consumes W[t] and appends W[t+16]. *)
Fixpoint rounds (ks : list N) (win : list N) (s : State) : State :=
  match ks with
  | [] => s
  | k :: ks' =>
    match win with
    | [] => s
    | w0 :: rest =>
      let wnew := add32 (add32 (sigma1 (nth 14 win 0)) (nth 9 win 0))
                        (add32 (sigma0 (nth 1 win 0)) w0) in
      rounds ks' (rest ++ [wnew]) (round k w0 s)
    end
  end.

Fixpoint words_of_bytes (n : nat) (bs : list N) : list N :=
  match n with
  | O => []
  | S n' =>
    match bs with
    | b0 :: b1 :: b2 :: b3 :: bs' =>
      (N.shiftl b0 24 + N.shiftl b1 16 + N.shiftl b2 8 + b3) :: words_of_bytes n' bs'
    | _ => []
    end
  end.

Definition compress (block : list N) (s : State) : State :=
  let r := rounds K (words_of_bytes 16 block) s in
  mkState (add32 (ha s) (ha r)) (add32 (hb s) (hb r)) (add32 (hc s) (hc r))
          (add32 (hd s) (hd r)) (add32 (he s) (he r)) (add32 (hf s) (hf r))
          (add32 (hg s) (hg r)) (add32 (hh s) (hh r)).

Fixpoint process (nblocks : nat) (bs : list N) (s : State) : State :=
  match nblocks with
  | O => s
  | S n => process n (drop 64 bs) (compress (take 64 bs) s)
  end.

Definition be64 (x : N) : list N :=
  map (fun i => N.land (N.shiftr x (8 * i)) 255) [7; 6; 5; 4; 3; 2; 1; 0].

Definition pad (msg : list N) : list N :=
  let len := length msg in
  let zeros := ((119 - len `mod` 64) `mod` 64)%nat in
  msg ++ [128] ++ replicate zeros 0 ++ be64 (8 * N.of_nat len).

Definition digest (msg : list byte) : State :=
  let p := pad (map Byte.to_N msg) in
  process (length p / 64)%nat p H0.

Definition hexdigit (n : N) : ascii :=
  nth (N.to_nat n) (list_ascii_of_string "0123456789abcdef") "0"%char.

Definition hex_of_word (w : N) : list ascii :=
  map (fun i => hexdigit (N.land (N.shiftr w (4 * i)) 15)) [7; 6; 5; 4; 3; 2; 1; 0].

(** [hash.digest("hex")]: 64 lowercase hexadecimal characters. *)
Definition hex (msg : list byte) : string :=
  let s := digest msg in
  string_of_list_ascii
    (hex_of_word (ha s) ++ hex_of_word (hb s) ++ hex_of_word (hc s) ++
     hex_of_word (hd s) ++ hex_of_word (he s) ++ hex_of_word (hf s) ++
     hex_of_word (hg s) ++ hex_of_word (hh s)).

End Sha256.

Arguments Sha256.hex : simpl never.


Local Close Scope N_scope.
Local Open Scope string_scope.
Local Open Scope list_scope.
Local Open Scope nat_scope.

(** ** Buffers and strings of the JavaScript runtime *)
Module Js.

(** [Buffer.alloc(n)]: zero-filled. *)
Definition Buffer_alloc (n : nat) : list byte := replicate n x00.

(** [Buffer.from(s, "ascii")]: one byte per character. *)
Definition Buffer_from (s : string) : list byte := list_byte_of_string s.

(** Node clears the top bit of every byte when it decodes a buffer as
    "ascii" (documented under "Buffers and character encodings"). *)
Definition strip7 (b : byte) : ascii :=
  match ascii_of_byte b with
  | Ascii b0 b1 b2 b3 b4 b5 b6 _ => Ascii b0 b1 b2 b3 b4 b5 b6 false
  end.

(** [buf.toString("ascii")]. *)
Definition toString_ascii (buf : list byte) : string :=
  string_of_list_ascii (map strip7 buf).

(** [buf.slice(start, end)], both ends clamped to the buffer. *)
Definition Buffer_slice (buf : list byte) (start stop : nat) : list byte :=
  take (stop - start) (drop start buf).

Fixpoint starts_with (pat buf : list byte) : bool :=
  match pat, buf with
  | [], _ => true
  | _ :: _, [] => false
  | p :: pat', b :: buf' => Byte.eqb p b && starts_with pat' buf'
  end.

(** Leftmost position at which [pat] starts, counted from [pos]. *)
Fixpoint search (pat buf : list byte) (pos : nat) : option nat :=
  if starts_with pat buf then Some pos
  else match buf with
       | [] => None
       | _ :: buf' => search pat buf' (S pos)
       end.

(** [buf.indexOf(value, byteOffset)]; [None] stands for -1. *)
Definition Buffer_indexOf (buf pat : list byte) (byteOffset : nat) : option nat :=
  let from := byteOffset `min` length buf in
  search pat (drop from buf) from.

(** [source.copy(target, targetStart)]: writes as much of [source] as
    fits, never resizing [target]. *)
Definition Buffer_copy (source target : list byte) (targetStart : nat) : list byte :=
  take targetStart target
  ++ take (length target - targetStart) source
  ++ drop (targetStart + length source) target.

(** [buf.readUInt32LE(offset)]. *)
Definition readUInt32LE (buf : list byte) (offset : nat) : N :=
  match drop offset buf with
  | b0 :: b1 :: b2 :: b3 :: _ =>
    (Byte.to_N b0 + 256 * (Byte.to_N b1 + 256 * (Byte.to_N b2 + 256 * Byte.to_N b3)))%N
  | _ => 0%N
  end.

(** The character class [[0-9a-f]]. *)
Definition is_lower_hex (c : ascii) : bool :=
  let n := N_of_ascii c in
  ((48 <=? n) && (n <=? 57) || (97 <=? n) && (n <=? 102))%N.

(** [/^[0-9a-f]{64}$/.test(s)]. *)
Definition is_hash64 (s : string) : bool :=
  (String.length s =? 64)%nat && forallb is_lower_hex (list_ascii_of_string s).

(** [s.includes(t)]. *)
Definition includes (s t : string) : bool :=
  match String.index 0 t s with Some _ => true | None => false end.

(** The replacement-text expansion of [String.prototype.replace] for a
    string pattern (no capture groups): [$$], [$&], [$`] and [$'] are
    expanded, every other [$] stays. *)
Fixpoint GetSubstitution (matched before after replacement : string) : string :=
  match replacement with
  | EmptyString => EmptyString
  | String c r =>
    if Ascii.eqb c "$" then
      match r with
      | String d r' =>
        if Ascii.eqb d "$" then String "$" (GetSubstitution matched before after r')
        else if Ascii.eqb d "&" then matched +:+ GetSubstitution matched before after r'
        else if Ascii.eqb d "`" then before +:+ GetSubstitution matched before after r'
        else if Ascii.eqb d "'" then after +:+ GetSubstitution matched before after r'
        else String c (GetSubstitution matched before after r)
      | EmptyString => String c EmptyString
      end
    else String c (GetSubstitution matched before after r)
  end.

(** [s.replace(pattern, replacement)] with a string pattern: the first
    occurrence only. *)
Definition replace (s pattern replacement : string) : string :=
  match String.index 0 pattern s with
  | None => s
  | Some i =>
    let before := String.substring 0 i s in
    let after :=
      String.substring (i + String.length pattern)
                       (String.length s - (i + String.length pattern)) s in
    before +:+ GetSubstitution pattern before after replacement +:+ after
  end.

(** What [JSON.parse] yields. *)
#[local] Unset Elimination Schemes.
Inductive JSON : Type :=
| JNull
| JBool (b : bool)
| JNumber (literal : string)
| JString (s : string)
| JArray (items : list JSON)
| JObject (fields : list (string * JSON)).
#[local] Set Elimination Schemes.

End Js.

Import Js.

(** ** The machine: files, locks, the host process, the scratch directory *)

Inductive ErrCode := ENOENT | EBUSY | EPERM | EACCES.

(** A thrown value: a file-system error with its [code] and path, an
    [Error] carrying only a message, or the error with which Node refuses
    an argument, with its [code] and the argument's name. *)
Inductive Exn :=
| FsError (code : ErrCode) (path : string)
| JsError (message : string)
| ArgError (code : string) (argument : string).

(** What the directory scan of [findClaudeInstall] leaves in [appDirs[0]]. *)
Record AppDir := mkAppDir {
  dir_name : string;
  dir_fullPath : string;
  dir_allVersions : list string }.

Record World := mkWorld {
  (** every regular file below the installation, by absolute path *)
  files : gmap string (list byte);
  (** paths that cannot be opened for writing (held by another process) *)
  locked : gset string;
  (** whether [tasklist] lists claude.exe *)
  running : bool;
  (** the invocation's temporary directory: relative path to decoded text *)
  scratch : option (gmap string string);
  (** outcome of the scan for [app-x.y.z] directories, newest first *)
  scan : string + AppDir }.

Definition set_files (f : gmap string (list byte) → gmap string (list byte)) (w : World) : World :=
  mkWorld (f (files w)) (locked w) (running w) (scratch w) (scan w).

Definition set_scratch (s : option (gmap string string)) (w : World) : World :=
  mkWorld (files w) (locked w) (running w) s (scan w).

(** A computation over the machine that returns or throws. *)
Definition IO (A : Type) : Type := World → (Exn + A) * World.

#[global] Instance IO_ret : MRet IO := λ A a w, (inr a, w).
#[global] Instance IO_bind : MBind IO := λ A B k m w,
  match m w with
  | (inl e, w') => (inl e, w')
  | (inr a, w') => k a w'
  end.

Definition throw {A} (e : Exn) : IO A := λ w, (inl e, w).

(** [try { m } catch (err) { h err }] *)
Definition try_catch {A} (m : IO A) (h : Exn → IO A) : IO A := λ w,
  match m w with
  | (inl e, w') => h e w'
  | (inr a, w') => (inr a, w')
  end.

(** [try { m } finally { f }] *)
Definition try_finally {A} (m : IO A) (f : IO unit) : IO A := λ w,
  match m w with
  | (r, w') =>
    match f w' with
    | (inl e, w'') => (inl e, w'')
    | (inr _, w'') => (r, w'')
    end
  end.

(** [try { m } catch (_) {}] *)
Definition attempt (m : IO unit) : IO unit := try_catch m (λ _, mret ()).

Module fs.

Definition existsSync (p : string) : IO bool := λ w,
  (inr (bool_decide (is_Some (files w !! p))), w).

Definition readFileSync (p : string) : IO (list byte) := λ w,
  match files w !! p with
  | Some c => (inr c, w)
  | None => (inl (FsError ENOENT p), w)
  end.

Definition writeFileSync (p : string) (data : list byte) : IO unit := λ w,
  if bool_decide (p ∈ locked w) then (inl (FsError EBUSY p), w)
  else (inr (), set_files (insert p data) w).

Definition copyFileSync (src dest : string) : IO unit :=
  c ← readFileSync src; writeFileSync dest c.

Definition unlinkSync (p : string) : IO unit := λ w,
  match files w !! p with
  | None => (inl (FsError ENOENT p), w)
  | Some _ =>
    if bool_decide (p ∈ locked w) then (inl (FsError EBUSY p), w)
    else (inr (), set_files (delete p) w)
  end.

(** [fs.openSync(p, "r")] and [fs.openSync(p, "r+")]; the descriptor is
    modelled by the path it was opened on. *)
Definition openSync (p : string) (writable : bool) : IO string := λ w,
  match files w !! p with
  | None => (inl (FsError ENOENT p), w)
  | Some _ =>
    if writable && bool_decide (p ∈ locked w) then (inl (FsError EBUSY p), w)
    else (inr p, w)
  end.

Definition closeSync (fd : string) : IO unit := mret ().

(** [fs.readSync(fd, buffer, offset, length, position)]. Node checks the
    arguments first: [length |= 0] keeps the low 32 bits of the length, as
    a signed integer; a length of zero reads nothing; then an empty buffer,
    a negative length and a length that does not fit the buffer are each
    refused. A read that runs into the end of the file is short, and leaves
    the rest of [buffer] as it was. Returns the number of bytes read and
    the buffer. *)
Definition readSync (fd : string) (buffer : list byte) (offset : nat) (len : N)
    (position : nat) : IO (nat * list byte) := λ w,
  let len32 := (len `mod` 2 ^ 32)%N in
  if (len32 =? 0)%N then (inr (0%nat, buffer), w)
  else
    match buffer with
    | [] => (inl (ArgError "ERR_INVALID_ARG_VALUE" "buffer"), w)
    | _ :: _ =>
      if (2 ^ 31 <=? len32)%N
      then (inl (ArgError "ERR_OUT_OF_RANGE" "length"), w)
      else if (N.of_nat (length buffer) <? N.of_nat offset + len32)%N
      then (inl (ArgError "ERR_OUT_OF_RANGE" "length"), w)
      else
        match files w !! fd with
        | None => (inl (FsError ENOENT fd), w)
        | Some c =>
          let chunk := take (N.to_nat len32) (drop position c) in
          (inr (length chunk,
                take offset buffer ++ chunk ++ drop (offset + length chunk) buffer), w)
        end
    end.

(** [fs.statSync(p).size] *)
Definition statSync_size (p : string) : IO nat :=
  c ← readFileSync p; mret (length c).

End fs.

(** ** Collaborators outside the repository

    The archive library, the injected text, the JSON codec of the runtime,
    the version of [package.json] and the clock. *)

Inductive PackResult :=
| Packed (archive : list byte)
(** the write threw, leaving [residue] (or nothing) at the destination *)
| PackFailed (e : Exn) (residue : option (list byte)).

Record Env := mkEnv {
  extractAll : list byte → Exn + gmap string string;
  createPackage : gmap string string → PackResult;
  getRtlPayload : string;
  JSON_parse : string → option JSON;
  JSON_stringify : JSON → string;
  package_version : string;
  now_ISO : string }.

(** [path.join] on a normalised Windows path and a relative name. *)
Definition path_join (a b : string) : string := a +:+ "\" +:+ b.

(** ** finder.js, after the directory scan

    The scan itself ([readdirSync], the [app-x.y.z] filter, the sort by
    version) is not modelled: [scan] holds its outcome, and
    [findClaudeInstall] below is the rest of the function, from
    [const latest = appDirs[0]] on. *)

Record Install := mkInstall {
  version : string;
  appDir : string;
  resourcesDir : string;
  asarPath : string;
  exePath : string;
  allVersions : list string }.

Inductive LocateError :=
| ScanError (message : string)
| Incomplete (name : string) (missing : list string).

(** What [findClaudeInstall] returns on a given machine. *)
Definition locate (w : World) : LocateError + Install :=
  match scan w with
  | inl message => inl (ScanError message)
  | inr latest =>
    let resourcesDir := path_join (dir_fullPath latest) "resources" in
    let asarPath := path_join resourcesDir "app.asar" in
    let exePath := path_join (dir_fullPath latest) "claude.exe" in
    let missing :=
      (if bool_decide (is_Some (files w !! asarPath)) then [] else ["app.asar: " +:+ asarPath])
      ++ (if bool_decide (is_Some (files w !! exePath)) then [] else ["claude.exe: " +:+ exePath]) in
    if (0 <? length missing)%nat then inl (Incomplete (dir_name latest) missing)
    else
      inr {| version := Js.replace (dir_name latest) "app-" "";
             appDir := dir_fullPath latest;
             resourcesDir := resourcesDir;
             asarPath := asarPath;
             exePath := exePath;
             allVersions := dir_allVersions latest |}
  end.

(** It only reads. *)
Definition findClaudeInstall : IO (LocateError + Install) := λ w, (inr (locate w), w).

(** ** integrity.js *)

(** The header length is any 32-bit value. Node 16 and later allocate a
    buffer of any such size without a range error of their own (memory
    permitting); from 2^31 on it is the second [readSync] that refuses the
    length, which [|= 0] has made negative. *)
Definition computeAsarHeaderHash (asarPath : string) : IO string :=
  fd ← fs.openSync asarPath false;
  try_finally
    ('(_, headerMeta) ← fs.readSync fd (Buffer_alloc 16) 0 16 0;
     let headerStringLength := readUInt32LE headerMeta 12 in
     '(_, headerString) ← fs.readSync fd (Buffer_alloc (N.to_nat headerStringLength)) 0
                                      headerStringLength 16;
     mret (Sha256.hex headerString))
    (fs.closeSync fd).

Definition dquote : string := String "034" EmptyString.

(** The text that precedes the digest inside the executable's integrity
    record: the key [alg] with value [SHA256], then the key [value], each
    in double quotes, up to and including the quote that opens the digest. *)
Definition pattern : string :=
  dquote +:+ "alg" +:+ dquote +:+ ":" +:+ dquote +:+ "SHA256" +:+ dquote +:+ ","
  +:+ dquote +:+ "value" +:+ dquote +:+ ":" +:+ dquote.

Inductive ReadHashError :=
| IntegrityHashNotFound
| EmbeddedHashInvalid (hash : string).

(** [{ found: true, hash, offset }] or [{ found: false, error }] *)
Inductive HashResult :=
| HashFound (hash : string) (offset : nat)
| HashNotFound (error : ReadHashError).

Definition readEmbeddedHash (exePath : string) : IO HashResult :=
  buf ← fs.readFileSync exePath;
  match Buffer_indexOf buf (Buffer_from pattern) 0 with
  | None => mret (HashNotFound IntegrityHashNotFound)
  | Some idx =>
    let hashStart := idx + String.length pattern in
    let hash := toString_ascii (Buffer_slice buf hashStart (hashStart + 64)) in
    if negb (is_hash64 hash) then mret (HashNotFound (EmbeddedHashInvalid hash))
    else mret (HashFound hash hashStart)
  end.

Inductive ExePatchError :=
| InvalidHashFormat
| OldHashNotFound
| OldHashAmbiguous.

(** [{ success: true }], with [message] when nothing had to change, or
    [{ success: false, error }] *)
Inductive ExePatchResult :=
| ExePatched
| ExeIdentical
| ExePatchFailed (error : ExePatchError).

Definition patchExeHash (exePath oldHash newHash : string) : IO ExePatchResult :=
  if String.eqb oldHash newHash then mret ExeIdentical
  else if negb (is_hash64 oldHash) || negb (is_hash64 newHash)
  then mret (ExePatchFailed InvalidHashFormat)
  else
    buf ← fs.readFileSync exePath;
    let oldBuf := Buffer_from oldHash in
    match Buffer_indexOf buf oldBuf 0 with
    | None => mret (ExePatchFailed OldHashNotFound)
    | Some idx =>
      match Buffer_indexOf buf oldBuf (idx + 64) with
      | Some secondIdx => mret (ExePatchFailed OldHashAmbiguous)
      | None =>
        let newBuf := Buffer_from newHash in
        let buf := Buffer_copy newBuf buf idx in
        fs.writeFileSync exePath buf;;
        mret ExePatched
      end
    end.

(** ** backup.js *)

Definition MARKER_FILE : string := ".rtl-patched.json".

Definition getMarkerPath (resourcesDir : string) : string :=
  path_join resourcesDir MARKER_FILE.

Record BackupPaths := mkBackupPaths {
  asarBackup : string;
  exeBackup : string;
  markerPath : string }.

Definition getBackupPaths (install : Install) : BackupPaths :=
  {| asarBackup := asarPath install +:+ ".bak";
     exeBackup := exePath install +:+ ".bak";
     markerPath := getMarkerPath (resourcesDir install) |}.

(** [{ success: true, skipped }] or [{ success: false, error }] *)
Inductive BackupResult :=
| BackupOk (skipped : bool)
| BackupFailed (err : Exn).

Definition createBackup (install : Install) : IO BackupResult :=
  let '(mkBackupPaths asarBackup exeBackup markerPath) := getBackupPaths install in
  a ← fs.existsSync asarBackup;
  e ← fs.existsSync exeBackup;
  if a && e then mret (BackupOk true)
  else
    try_catch
      (fs.copyFileSync (asarPath install) asarBackup;;
       fs.copyFileSync (exePath install) exeBackup;;
       mret (BackupOk false))
      (λ err,
         attempt (fs.unlinkSync asarBackup);;
         attempt (fs.unlinkSync exeBackup);;
         mret (BackupFailed err)).

(** [{ success: true }] or [{ success: false, error }] *)
Inductive RestoreResult :=
| RestoreOk
| BackupsMissing
| RestoreFailed (err : Exn).

Definition restoreBackup (install : Install) : IO RestoreResult :=
  let '(mkBackupPaths asarBackup exeBackup markerPath) := getBackupPaths install in
  a ← fs.existsSync asarBackup;
  e ← fs.existsSync exeBackup;
  if negb a || negb e then mret BackupsMissing
  else
    try_catch
      (fs.copyFileSync asarBackup (asarPath install);;
       fs.copyFileSync exeBackup (exePath install);;
       fs.unlinkSync asarBackup;;
       fs.unlinkSync exeBackup;;
       m ← fs.existsSync markerPath;
       (if m : bool then fs.unlinkSync markerPath else mret ());;
       mret RestoreOk)
      (λ err, mret (RestoreFailed err)).

Definition writeMarker (env : Env) (install : Install) (oldHash newHash : string) : IO unit :=
  let markerPath := getMarkerPath (resourcesDir install) in
  let data :=
    JObject [ ("tool", JString "claude-rtl-fixer");
              ("version", JString (package_version env));
              ("patchedAt", JString (now_ISO env));
              ("claudeVersion", JString (version install));
              ("hashes", JObject [ ("original", JString oldHash);
                                   ("patched", JString newHash) ]) ] in
  fs.writeFileSync markerPath (Buffer_from (JSON_stringify env data)).

(** [{ patched, info }]; an absent [info] and [info: null] are both [None]. *)
Record PatchStatus := mkPatchStatus {
  patched : bool;
  info : option JSON }.

Definition isPatchedOnDisk (env : Env) (install : Install) : IO PatchStatus :=
  let markerPath := getMarkerPath (resourcesDir install) in
  m ← fs.existsSync markerPath;
  if negb m then mret {| patched := false; info := None |}
  else
    try_catch
      (body ← fs.readFileSync markerPath;
       match JSON_parse env (string_of_list_byte body) with
       | None => throw (JsError "Unexpected token in JSON")
       | Some data => mret {| patched := true; info := Some data |}
       end)
      (λ _, mret {| patched := true; info := None |}).

Definition hasBackups (install : Install) : IO bool :=
  let '(mkBackupPaths asarBackup exeBackup _) := getBackupPaths install in
  a ← fs.existsSync asarBackup;
  e ← fs.existsSync exeBackup;
  mret (a && e).

(** ** rtl-payload.js *)

Definition RTL_MARKER : string := "Claude RTL Fixer".

Definition isCodePatched (content : string) : bool := includes content RTL_MARKER.

(** ** patcher.js *)

Definition MAIN_VIEW_PATH : string := ".vite/build/mainView.js".

Definition isClaudeRunning : IO bool := λ w, (inr (running w), w).

Definition canWrite (filePath : string) : IO bool :=
  try_catch
    (fd ← fs.openSync filePath true;
     fs.closeSync fd;;
     mret true)
    (λ err,
       match err with
       | FsError EBUSY _ | FsError EPERM _ | FsError EACCES _ => mret false
       | _ => mret true
       end).

(** [fs.rmSync(tempDir, { recursive: true, force: true })], best effort. *)
Definition cleanup : IO unit := λ w, (inr (), set_scratch None w).

(** [asar.extractAll(asarPath, tempDir)] *)
Definition asar_extractAll (env : Env) (asarPath : string) : IO unit := λ w,
  match files w !! asarPath with
  | None => (inl (FsError ENOENT asarPath), w)
  | Some archive =>
    match extractAll env archive with
    | inl e => (inl e, w)
    | inr tree => (inr (), set_scratch (Some tree) w)
    end
  end.

(** [await asar.createPackage(tempDir, asarPath)] *)
Definition asar_createPackage (env : Env) (asarPath : string) : IO unit := λ w,
  match scratch w with
  | None => (inl (FsError ENOENT "tempDir"), w)
  | Some tree =>
    match createPackage env tree with
    | Packed archive => (inr (), set_files (insert asarPath archive) w)
    | PackFailed e (Some residue) => (inl e, set_files (insert asarPath residue) w)
    | PackFailed e None => (inl e, set_files (delete asarPath) w)
    end
  end.

(** Reading and writing one file of the temporary directory. *)
Definition scratch_read (rel : string) : IO (option string) := λ w,
  (inr (scratch w ≫= λ tree, tree !! rel), w).

Definition scratch_write (rel content : string) : IO unit := λ w,
  (inr (), set_scratch (insert rel content <$> scratch w) w).

Inductive PatchError :=
| NotInstalled (error : LocateError)
| ClaudeRunning
| CannotWrite (path : string)
| AlreadyPatched (info : option JSON)
| ReadHashFailed (error : ReadHashError)
| IntegrityMismatch (exeHash asarHash : string)
| CreateBackupFailed (err : Exn)
| ExtractFailed (err : Exn)
| MainViewMissing
| CodeAlreadyPatched
| RepackFailed (err : Exn)
| VerificationFailed (err : Exn)
| HashPatchFailed (error : ExePatchError).

(** [{ ok: true, install }] or [{ ok: false, error }] *)
Definition preflight (env : Env) (requireUnpatched : bool) : IO (PatchError + Install) :=
  found ← findClaudeInstall;
  match found with
  | inl error => mret (inl (NotInstalled error))
  | inr install =>
    r ← isClaudeRunning;
    if r : bool then mret (inl ClaudeRunning)
    else
      wa ← canWrite (asarPath install);
      if negb wa then mret (inl (CannotWrite (asarPath install)))
      else
        we ← canWrite (exePath install);
        if negb we then mret (inl (CannotWrite (exePath install)))
        else if requireUnpatched then
          patchStatus ← isPatchedOnDisk env install;
          if patched patchStatus then mret (inl (AlreadyPatched (info patchStatus)))
          else mret (inr install)
        else mret (inr install)
  end.

(** [{ success: true, version, oldHash, newHash }] or
    [{ success: false, error }] *)
Inductive PatchResult :=
| PatchOk (version oldHash newHash : string)
| PatchFailed (error : PatchError).

Definition sourceMapComment : string := "//# sourceMappingURL=mainView.js.map".

(** Steps 7 to 10 of [patch]: repack, check the size, rehash, rewrite the
    executable, write the marker. Every failure here restores the backups
    before it is reported. *)
Definition patch_commit (env : Env) (install : Install) (oldHash : string)
  : IO PatchResult :=
  repacked ← try_catch (asar_createPackage env (asarPath install);; mret None)
                       (λ err, cleanup;; restoreBackup install;; mret (Some err));
  match repacked with
  | Some err => mret (PatchFailed (RepackFailed err))
  | None =>
    verified ← try_catch
      (size ← fs.statSync_size (asarPath install);
       (if (size <? 1000)%nat
        then throw (JsError "Repacked asar is suspiciously small")
        else mret ());;
       mret None)
      (λ err, cleanup;; restoreBackup install;; mret (Some err));
    match verified with
    | Some err => mret (PatchFailed (VerificationFailed err))
    | None =>
      newHash ← computeAsarHeaderHash (asarPath install);
      patchResult ← patchExeHash (exePath install) oldHash newHash;
      match patchResult with
      | ExePatchFailed error =>
        restoreBackup install;;
        cleanup;;
        mret (PatchFailed (HashPatchFailed error))
      | _ =>
        writeMarker env install oldHash newHash;;
        cleanup;;
        mret (PatchOk (version install) oldHash newHash)
      end
    end
  end.

(** [patch()]: steps 1 to 6 (locate and check, read and verify the hash,
    back up, extract, inject), then [patch_commit]. *)
Definition patch (env : Env) : IO PatchResult :=
  check ← preflight env true;
  match check with
  | inl error => mret (PatchFailed error)
  | inr install =>
    hashResult ← readEmbeddedHash (exePath install);
    match hashResult with
    | HashNotFound error => mret (PatchFailed (ReadHashFailed error))
    | HashFound oldHash _ =>
      currentAsarHash ← computeAsarHeaderHash (asarPath install);
      if negb (String.eqb currentAsarHash oldHash)
      then mret (PatchFailed (IntegrityMismatch oldHash currentAsarHash))
      else
        backupResult ← createBackup install;
        match backupResult with
        | BackupFailed err => mret (PatchFailed (CreateBackupFailed err))
        | BackupOk _ =>
          extracted ← try_catch (asar_extractAll env (asarPath install);; mret None)
                                (λ err, cleanup;; mret (Some err));
          match extracted with
          | Some err => mret (PatchFailed (ExtractFailed err))
          | None =>
            mainView ← scratch_read MAIN_VIEW_PATH;
            match mainView with
            | None => cleanup;; mret (PatchFailed MainViewMissing)
            | Some content =>
              if isCodePatched content
              then cleanup;; mret (PatchFailed CodeAlreadyPatched)
              else
                let payload := getRtlPayload env in
                let content :=
                  if includes content sourceMapComment
                  then Js.replace content sourceMapComment
                                  (payload +:+ String "010" EmptyString +:+ sourceMapComment)
                  else content +:+ payload in
                scratch_write MAIN_VIEW_PATH content;;
                patch_commit env install oldHash
            end
          end
        end
    end
  end.

(** ** Specification vocabulary *)

(** [pat] is found in [buf] starting at position [i]. *)
Definition occurs_at (pat buf : list byte) (i : nat) : Prop :=
  take (length pat) (drop i buf) = pat.

(** [i] is the leftmost position at which [pat] is found in [buf]. *)
Definition first_at (pat buf : list byte) (i : nat) : Prop :=
  occurs_at pat buf i ∧ ∀ j, j < i → ¬ occurs_at pat buf j.

(** [l], zero-filled on the right up to [n] bytes. *)
Definition zero_fill (n : nat) (l : list byte) : list byte :=
  l ++ replicate (n - length l) x00.

(** The bytes [computeAsarHeaderHash] digests: as many as the length field
    at offset 12 declares, starting at offset 16, with every byte the file
    does not have read as zero. *)
Definition header_region (archive : list byte) : list byte :=
  let n := N.to_nat (readUInt32LE (zero_fill 16 (take 16 archive)) 12) in
  zero_fill n (take n (drop 16 archive)).

(** The length field at offset 12, as [computeAsarHeaderHash] reads it. *)
Definition header_length (archive : list byte) : N :=
  readUInt32LE (zero_fill 16 (take 16 archive)) 12.

(** The length field is below 2^31, the lengths [readSync] accepts. *)
Definition header_in_range (archive : list byte) : bool :=
  (header_length archive <? 2 ^ 31)%N.

(** The five paths a transaction touches are pairwise distinct. *)
Definition paths_distinct (i : Install) : Prop :=
  NoDup [ asarPath i; exePath i; asarBackup (getBackupPaths i);
          exeBackup (getBackupPaths i); markerPath (getBackupPaths i) ].

(** What [preflight(true)] answers, as a function of the machine. *)
Definition preflight_answer (env : Env) (w : World) : PatchError + Install :=
  match locate w with
  | inl error => inl (NotInstalled error)
  | inr install =>
    if running w then inl ClaudeRunning
    else if bool_decide (asarPath install ∈ locked w) then inl (CannotWrite (asarPath install))
    else if bool_decide (exePath install ∈ locked w) then inl (CannotWrite (exePath install))
    else match files w !! getMarkerPath (resourcesDir install) with
         | Some body => inl (AlreadyPatched (JSON_parse env (string_of_list_byte body)))
         | None => inr install
         end
  end.

(** The failures of [patch] that arise after the backup step, from the
    repack onwards. *)
Definition later_step_failed (e : PatchError) : Prop :=
  match e with
  | RepackFailed _ | VerificationFailed _ | HashPatchFailed _ => True
  | _ => False
  end.

(** The digest bytes that follow the first marker are plain 7-bit text. *)
Definition embedded_digest_plain (exe : list byte) : Prop :=
  ∀ idx, first_at (Buffer_from pattern) exe idx →
         Forall (λ b, (Byte.to_N b < 128)%N) (Buffer_slice exe (idx + 24) (idx + 88)).

(** ** Concrete machines used in examples *)
Module Demo.

Definition byte_of (n : N) : byte := default x00 (Byte.of_N (n `mod` 256)%N).

Definition le32 (n : N) : list byte :=
  map (λ i, byte_of (N.shiftr n (8 * i))) [0; 1; 2; 3]%N.

(** An archive in the layout integrity.js documents: three pickle sizes,
    the header length at offset 12, the header text, then file data. *)
Definition mock_asar (header : string) (data : list byte) : list byte :=
  let n := N.of_nat (String.length header) in
  le32 4 ++ le32 (n + 8) ++ le32 (n + 4) ++ le32 n ++ Buffer_from header ++ data.

(** The 12 characters of an empty file table. *)
Definition empty_header : string := "{" +:+ dquote +:+ "files" +:+ dquote +:+ ":{}}".

Definition one_file (p : string) (c : list byte) : World :=
  mkWorld {[ p := c ]} ∅ false None (inl "no scan").

Definition asar1000 : list byte := mock_asar empty_header (replicate 972 xaa).

(** A 1000-byte file whose length field announces 2^31 bytes of header. *)
Definition huge_asar : list byte :=
  le32 4 ++ le32 0 ++ le32 0 ++ le32 2147483648 ++ replicate 984 x00.

(** A 16-byte file whose length field announces 64 bytes of header. *)
Definition truncated_asar : list byte := le32 4 ++ le32 72 ++ le32 68 ++ le32 64.

(** A stand-in for the archive library: unpacking yields one preload
    script, packing writes a header that quotes it. *)
Definition pack (tree : gmap string string) : PackResult :=
  Packed (mock_asar ("{" +:+ default "" (tree !! MAIN_VIEW_PATH) +:+ "}")
                    (replicate 1000 xbb)).

Definition env_with (pack : gmap string string → PackResult) : Env :=
  {| extractAll := λ _, inr {[ MAIN_VIEW_PATH := "console.log(1);" ]};
     createPackage := pack;
     getRtlPayload := "/* Claude RTL Fixer */";
     JSON_parse := λ s, if String.prefix "{" s then Some (JObject []) else None;
     JSON_stringify := λ _, "{}";
     package_version := "1.0.0";
     now_ISO := "2026-01-01T00:00:00.000Z" |}.

Definition env : Env := env_with pack.

Definition app_dir : AppDir :=
  mkAppDir "app-1.0.0" "C:\Claude\app-1.0.0" ["1.0.0"].

Definition install : Install :=
  {| version := "1.0.0";
     appDir := "C:\Claude\app-1.0.0";
     resourcesDir := "C:\Claude\app-1.0.0\resources";
     asarPath := "C:\Claude\app-1.0.0\resources\app.asar";
     exePath := "C:\Claude\app-1.0.0\claude.exe";
     allVersions := ["1.0.0"] |}.

Definition asar_bak : string := "C:\Claude\app-1.0.0\resources\app.asar.bak".
Definition exe_bak : string := "C:\Claude\app-1.0.0\claude.exe.bak".
Definition marker : string := "C:\Claude\app-1.0.0\resources\.rtl-patched.json".

(** An executable: some code, the integrity record with [literal] as its
    digest bytes, more code. *)
Definition mock_exe (literal : list byte) : list byte :=
  [x4d; x5a; x90; x00] ++ Buffer_from pattern ++ literal
  ++ Buffer_from (dquote +:+ "}]") ++ [x00; xff; x00].

(** A pristine installation: the executable embeds the digest of the
    archive header, nothing is locked, the host is not running. *)
Definition pristine : World :=
  mkWorld {[ asarPath install := asar1000;
             exePath install := mock_exe (Buffer_from (Sha256.hex (Buffer_from empty_header))) ]}
          ∅ false None (inr app_dir).

Definition with_file (p : string) (c : list byte) (w : World) : World :=
  set_files (insert p c) w.

Definition with_running (w : World) : World :=
  mkWorld (files w) (locked w) true (scratch w) (scan w).

Definition a64 : string := "aaaaaaaaaaaaaaaaaaaaaaaaaaaaaaaaaaaaaaaaaaaaaaaaaaaaaaaaaaaaaaaa".
Definition b64 : string := "bbbbbbbbbbbbbbbbbbbbbbbbbbbbbbbbbbbbbbbbbbbbbbbbbbbbbbbbbbbbbbbb".

Definition hex64 : string := "0123456789abcdef0123456789abcdef0123456789abcdef0123456789abcdef".
Definition upper64 : string := "0123456789ABCDEF0123456789ABCDEF0123456789ABCDEF0123456789ABCDEF".

(** Two integrity records: the first with an uppercase digest, the second
    with a well-formed one. *)
Definition exe_two_records : list byte :=
  mock_exe (Buffer_from upper64) ++ mock_exe (Buffer_from hex64).


(** The pristine installation, with a marker left by an earlier patch. *)
Definition marked : World := with_file marker (Buffer_from "{}") pristine.


(** An archive library whose write fails half way. *)
Definition env_disk_full : Env :=
  env_with (λ _, PackFailed (JsError "ENOSPC: no space left on device") (Some [x00])).

(** The digest the pristine executable embeds. *)
Definition pristine_hash : string := Sha256.hex (Buffer_from empty_header).

(** [l] with the top bit of its first byte set. *)
Definition top_bit_first (l : list byte) : list byte :=
  match l with
  | [] => []
  | b :: l' => byte_of (Byte.to_N b + 128) :: l'
  end.

(** An executable whose integrity record holds the digest with one top bit
    set, and which carries the plain digest text elsewhere. *)
Definition odd_exe : list byte :=
  mock_exe (top_bit_first (Buffer_from pristine_hash)) ++ Buffer_from pristine_hash.

Definition odd : World := with_file (exePath install) odd_exe pristine.

End Demo.

(** ** patcher.js: unpatch and status *)

Inductive UnpatchError :=
| UnpatchNotInstalled (error : LocateError)
| UnpatchClaudeRunning
| NothingToUnpatch
| NoBackupFiles
| CannotWriteFiles
| RestoreBackupsMissing
| RestoreCopyFailed (err : Exn).

(** [{ success: true, version }] or [{ success: false, error }] *)
Inductive UnpatchResult :=
| UnpatchOk (version : string)
| UnpatchFailed (error : UnpatchError).

Definition unpatch (env : Env) : IO UnpatchResult :=
  found ← findClaudeInstall;
  match found with
  | inl error => mret (UnpatchFailed (UnpatchNotInstalled error))
  | inr install =>
    r ← isClaudeRunning;
    if r : bool then mret (UnpatchFailed UnpatchClaudeRunning)
    else
      backups ← hasBackups install;
      if negb backups then
        patchStatus ← isPatchedOnDisk env install;
        if negb (patched patchStatus) then mret (UnpatchFailed NothingToUnpatch)
        else mret (UnpatchFailed NoBackupFiles)
      else
        wa ← canWrite (asarPath install);
        we ← canWrite (exePath install);
        if negb wa || negb we then mret (UnpatchFailed CannotWriteFiles)
        else
          result ← restoreBackup install;
          match result with
          | RestoreOk => mret (UnpatchOk (version install))
          | BackupsMissing => mret (UnpatchFailed RestoreBackupsMissing)
          | RestoreFailed err => mret (UnpatchFailed (RestoreCopyFailed err))
          end
  end.

(** The object [status()] returns on success. *)
Record StatusReport := mkStatusReport {
  st_version : string;
  st_allVersions : list string;
  st_patched : bool;
  st_patchInfo : option JSON;
  st_codePatched : bool;
  st_backupsExist : bool;
  st_running : bool;
  st_appDir : string;
  st_asar : string;
  st_exe : string }.

Definition status (env : Env) : IO (LocateError + StatusReport) :=
  found ← findClaudeInstall;
  match found with
  | inl error => mret (inl error)
  | inr install =>
    patchStatus ← isPatchedOnDisk env install;
    backupsExist ← hasBackups install;
    running ← isClaudeRunning;
    codePatched ← try_catch
      (asar_extractAll env (asarPath install);;
       mainView ← scratch_read MAIN_VIEW_PATH;
       let codePatched :=
         match mainView with
         | Some content => isCodePatched content
         | None => false
         end in
       cleanup;;
       mret codePatched)
      (λ _, mret false);
    mret (inr {| st_version := version install;
                 st_allVersions := allVersions install;
                 st_patched := patched patchStatus;
                 st_patchInfo := info patchStatus;
                 st_codePatched := codePatched;
                 st_backupsExist := backupsExist;
                 st_running := running;
                 st_appDir := appDir install;
                 st_asar := asarPath install;
                 st_exe := exePath install |})
  end.

(** The failures of [patch] that arise before the backup step. *)
Definition before_backup (e : PatchError) : Prop :=
  match e with
  | NotInstalled _ | ClaudeRunning | CannotWrite _ | AlreadyPatched _
  | ReadHashFailed _ | IntegrityMismatch _ _ => True
  | _ => False
  end.

(** The failures of [patch] between the backup step and the repack. *)
Definition before_repack (e : PatchError) : Prop :=
  match e with
  | ExtractFailed _ | MainViewMissing | CodeAlreadyPatched => True
  | _ => False
  end.

(** The record [writeMarker] serialises. *)
Definition marker_data (env : Env) (install : Install) (oldHash newHash : string) : JSON :=
  JObject [ ("tool", JString "claude-rtl-fixer");
            ("version", JString (package_version env));
            ("patchedAt", JString (now_ISO env));
            ("claudeVersion", JString (version install));
            ("hashes", JObject [ ("original", JString oldHash);
                                 ("patched", JString newHash) ]) ].

(** The text [patch] writes back to the preload script. *)
Definition injected (payload content : string) : string :=
  if includes content sourceMapComment
  then Js.replace content sourceMapComment
                  (payload +:+ String "010" EmptyString +:+ sourceMapComment)
  else content +:+ payload.

(** [w'] differs from [w] at most in the scratch directory and in the
    files listed in [paths]. *)
Definition agree_outside (paths : list string) (w w' : World) : Prop :=
  locked w' = locked w ∧ running w' = running w ∧ scan w' = scan w
  ∧ ∀ q, q ∉ paths → files w' !! q = files w !! q.

(** Whatever [m] returns or throws, it leaves the machine as it was outside
    the scratch directory and the files listed in [paths]. *)
Definition io_within {A} (paths : list string) (m : IO A) : Prop :=
  ∀ w r w', m w = (r, w') → agree_outside paths w w'.

(** ** More concrete machines *)
Module Cases.

Definition with_lock (p : string) (w : World) : World :=
  mkWorld (files w) ({[ p ]} ∪ locked w) (running w) (scratch w) (scan w).

(** The pristine installation with the executable's backup path held by
    another process. *)
Definition exe_bak_locked : World := with_lock Demo.exe_bak Demo.pristine.

(** The machine a successful [patch] of the pristine installation leaves. *)
Definition patched : World := snd (patch Demo.env Demo.pristine).


(** An archive library that cannot read the archive. *)
Definition env_unreadable : Env :=
  {| extractAll := λ _, inl (JsError "Invalid archive");
     createPackage := createPackage Demo.env;
     getRtlPayload := getRtlPayload Demo.env;
     JSON_parse := JSON_parse Demo.env;
     JSON_stringify := JSON_stringify Demo.env;
     package_version := package_version Demo.env;
     now_ISO := now_ISO Demo.env |}.

(** An archive library whose pack declares a header of 2^31 bytes. *)
Definition env_huge_pack : Env :=
  {| extractAll := extractAll Demo.env;
     createPackage := λ _, Packed Demo.huge_asar;
     getRtlPayload := getRtlPayload Demo.env;
     JSON_parse := JSON_parse Demo.env;
     JSON_stringify := JSON_stringify Demo.env;
     package_version := package_version Demo.env;
     now_ISO := now_ISO Demo.env |}.

(** An executable that carries a second copy of its digest text after the
    integrity record. *)
Definition exe_two_copies : list byte :=
  Demo.mock_exe (Buffer_from Demo.pristine_hash) ++ Buffer_from Demo.pristine_hash.

Definition two_copies : World :=
  Demo.with_file (exePath Demo.install) exe_two_copies Demo.pristine.

(** An archive with the header of [Demo.asar1000] but other pickle sizes
    and no file data. *)
Definition bare_asar : list byte :=
  Demo.le32 0 ++ Demo.le32 0 ++ Demo.le32 0 ++ Demo.le32 12
  ++ Buffer_from Demo.empty_header.

End Cases.

(** ** finder.js: the directory scan

    The part of [findClaudeInstall] that [scan] stands for: the listing of
    the base directory, the filter on [app-x.y.z] directories, the sort by
    version, and the two errors it can report. *)

(** An entry of [readdirSync(claudeBase, { withFileTypes: true })]. *)
Record Dirent := mkDirent {
  ent_name : string;
  ent_isDirectory : bool }.

(** The values [Number] takes on strings of decimal digits: a non-negative
    integer that a double represents, or [Infinity]; [NaN] for the rest. *)
Inductive Num :=
| Finite (n : N)
| Infinity
| NaN.

(** The character class [\d]. *)
Definition is_digit (c : ascii) : bool :=
  let n := N_of_ascii c in ((48 <=? n) && (n <=? 57))%N.

Fixpoint digits_value (acc : N) (s : string) : N :=
  match s with
  | EmptyString => acc
  | String c r => digits_value (10 * acc + (N_of_ascii c - 48))%N r
  end.

(** The double nearest to an integer, ties to even: 53 significant bits,
    and [Infinity] from 2^1024 - 2^970 on. *)
Definition round53 (v : N) : Num :=
  if (v <? 2 ^ 53)%N then Finite v
  else
    let e := (N.log2 v - 52)%N in
    let q := N.shiftr v e in
    let r := N.land v (N.ones e) in
    let half := N.shiftl 1 (e - 1) in
    let q' := if (half <? r)%N || ((r =? half)%N && N.odd q) then (q + 1)%N else q in
    let m := N.shiftl q' e in
    if (m <? 2 ^ 1024)%N then Finite m else Infinity.

(** [Number(s)] for a string of decimal digits, which is all that the
    filter below lets through ([scanDir_versions_numeric]); signs,
    exponents, other radixes and white space are not modelled and read as
    [NaN] here. *)
Definition Number (s : string) : Num :=
  if forallb is_digit (list_ascii_of_string s) then round53 (digits_value 0 s) else NaN.

(** [s.split(sep)] for a separator of one character. *)
Fixpoint split_on (sep : ascii) (s : string) : list string :=
  match s with
  | EmptyString => [EmptyString]
  | String c r =>
    if Ascii.eqb c sep then EmptyString :: split_on sep r
    else match split_on sep r with
         | h :: t => String c h :: t
         | [] => [String c EmptyString]
         end
  end.

Fixpoint skip_digits (s : string) : string :=
  match s with
  | EmptyString => EmptyString
  | String c r => if is_digit c then skip_digits r else s
  end.

(** [\d+]: one digit or more, as many as there are; what follows them. *)
Definition digits1 (s : string) : option string :=
  match s with
  | EmptyString => None
  | String c r => if is_digit c then Some (skip_digits r) else None
  end.

(** A literal character; what follows it. *)
Definition literal (c : ascii) (s : string) : option string :=
  match s with
  | EmptyString => None
  | String d r => if Ascii.eqb c d then Some r else None
  end.

(** [/^app-\d+\.\d+\.\d+$/.test(s)]. No digit is a dot, so matching each
    [\d+] greedily loses no match. *)
Definition test_app_dir (s : string) : bool :=
  let rest : option string :=
    s ← literal "a" s; s ← literal "p" s; s ← literal "p" s; s ← literal "-" s;
    s ← digits1 s; s ← literal "." s;
    s ← digits1 s; s ← literal "." s;
    digits1 s in
  match rest with
  | Some EmptyString => true
  | _ => false
  end.

(** An element of [appDirs]. *)
Record VersionDir := mkVersionDir {
  vd_name : string;
  vd_version : list Num;
  vd_fullPath : string }.

(** What a comparator's result means to [sort]: negative, zero (also for
    [NaN]), positive. *)
Inductive Sign := Negative | Zero | Positive.

(** [a !== b] on array elements; a missing element is [undefined]. *)
Definition strict_ne (a b : option Num) : bool :=
  match a, b with
  | Some (Finite x), Some (Finite y) => negb (x =? y)%N
  | Some Infinity, Some Infinity => false
  | None, None => false
  | _, _ => true
  end.

(** The sign of [b - a]; with [undefined] or [NaN] on a side, and for
    [Infinity - Infinity], the difference is [NaN]. *)
Definition minus_sign (b a : option Num) : Sign :=
  match b, a with
  | Some (Finite y), Some (Finite x) =>
    match (y ?= x)%N with Lt => Negative | Eq => Zero | Gt => Positive end
  | Some Infinity, Some (Finite _) => Positive
  | Some (Finite _), Some Infinity => Negative
  | _, _ => Zero
  end.

(** The comparator of the sort: the loop over [i = 0, 1, 2]. *)
Fixpoint compare_from (i n : nat) (a b : list Num) : Sign :=
  match n with
  | 0 => Zero
  | S n' =>
    if strict_ne (a !! i) (b !! i) then minus_sign (b !! i) (a !! i)
    else compare_from (S i) n' a b
  end.

Definition byVersionDesc (a b : VersionDir) : Sign :=
  compare_from 0 3 (vd_version a) (vd_version b).

(** [Array.prototype.sort] is stable; with a comparator that is a
    consistent order, as here, every stable sort gives the same array.
    It is written as an insertion sort. *)
Fixpoint sort_insert {A} (cmp : A → A → Sign) (x : A) (l : list A) : list A :=
  match l with
  | [] => [x]
  | y :: l' =>
    match cmp x y with
    | Positive => y :: sort_insert cmp x l'
    | _ => x :: l
    end
  end.

Definition Array_sort {A} (cmp : A → A → Sign) (l : list A) : list A :=
  foldr (sort_insert cmp) [] l.

Definition toVersionDir (claudeBase : string) (e : Dirent) : VersionDir :=
  {| vd_name := ent_name e;
     vd_version := map Number (split_on "." (Js.replace (ent_name e) "app-" ""));
     vd_fullPath := path_join claudeBase (ent_name e) |}.

Definition isAppDir (e : Dirent) : bool :=
  ent_isDirectory e && test_app_dir (ent_name e).

Definition newline : string := String "010" EmptyString.

(** [findClaudeInstall] up to [const latest = appDirs[0]]. [entries] is
    [None] when the base directory does not exist, and its listing, in the
    order [readdirSync] returns it, when it is a directory. *)
Definition scanDir (claudeBase : string) (entries : option (list Dirent)) : string + AppDir :=
  match entries with
  | None =>
    inl ("Claude Desktop is not installed." +:+ newline
         +:+ "  Expected directory: " +:+ claudeBase +:+ newline
         +:+ "  Download it from https://claude.ai/download")
  | Some entries =>
    let appDirs :=
      Array_sort byVersionDesc
                 (map (toVersionDir claudeBase) (List.filter isAppDir entries)) in
    match appDirs with
    | [] =>
      inl ("No Claude Desktop versions found." +:+ newline
           +:+ "  Looked in: " +:+ claudeBase +:+ newline
           +:+ "  Expected directories like app-1.1.2321")
    | latest :: _ =>
      inr {| dir_name := vd_name latest;
             dir_fullPath := vd_fullPath latest;
             dir_allVersions := map (λ d, Js.replace (vd_name d) "app-" "") appDirs |}
    end
  end.

(** *** The same, in words *)

(** [s] is one decimal digit or more. *)
Definition digit_string (s : string) : Prop :=
  s ≠ EmptyString ∧ forallb is_digit (list_ascii_of_string s) = true.

(** [x] is at most [y], as numbers. *)
Definition num_le (x y : Num) : Prop :=
  match x, y with
  | Finite a, Finite b => (a ≤ b)%N
  | Finite _, Infinity => True
  | Infinity, Infinity => True
  | _, _ => False
  end.

(** Major, minor, patch: [u] is the same version as [v] or an older one. *)
Definition version_le (u v : list Num) : Prop :=
  match u, v with
  | [a1; a2; a3], [b1; b2; b3] =>
    num_le a1 b1
    ∧ (a1 = b1 → num_le a2 b2 ∧ (a2 = b2 → num_le a3 b3))
  | _, _ => False
  end.

(** The version numbers of a directory name. *)
Definition version_of (name : string) : list Num :=
  map Number (split_on "." (Js.replace name "app-" "")).

(** What may follow a maximal run of digits. *)
Definition no_digit_head (r : string) : Prop :=
  match r with
  | String c _ => is_digit c = false
  | EmptyString => True
  end.

(** The numbers that digit strings denote. *)
Definition numeric (x : Num) : Prop :=
  match x with NaN => False | _ => True end.

(** A version of three numbers. *)
Definition three_numbers (u : list Num) : Prop :=
  ∃ a b c, u = [a; b; c] ∧ numeric a ∧ numeric b ∧ numeric c.

(** The comparator, over any record that carries a version. *)
Definition by_key {A} (key : A → list Num) (x y : A) : Sign :=
  compare_from 0 3 (key x) (key y).

Module Dirs.

Definition base : string := "C:\Users\u\AppData\Local\AnthropicClaude".

Definition listing : list Dirent :=
  [ mkDirent "app-1.1.2321" true;
    mkDirent "packages" true;
    mkDirent "app-1.10.3" true;
    mkDirent "Update.exe" false;
    mkDirent "app-1.9.77" true;
    mkDirent "app-2.0.0" false;
    mkDirent "app-01.10.3" true ].

(** A machine with this listing, the newest version complete. *)
Definition machine : World :=
  mkWorld {[ "C:\Users\u\AppData\Local\AnthropicClaude\app-1.10.3\resources\app.asar" := [x00];
             "C:\Users\u\AppData\Local\AnthropicClaude\app-1.10.3\claude.exe" := [x00] ]}
          ∅ false None (scanDir base (Some listing)).

Definition install : Install :=
  {| version := "1.10.3";
     appDir := "C:\Users\u\AppData\Local\AnthropicClaude\app-1.10.3";
     resourcesDir := "C:\Users\u\AppData\Local\AnthropicClaude\app-1.10.3\resources";
     asarPath := "C:\Users\u\AppData\Local\AnthropicClaude\app-1.10.3\resources\app.asar";
     exePath := "C:\Users\u\AppData\Local\AnthropicClaude\app-1.10.3\claude.exe";
     allVersions := ["1.10.3"; "01.10.3"; "1.9.77"; "1.1.2321"] |}.

End Dirs.

(** ** rtl-payload.js

    [RTL_CSS] and [RTL_JS], two long constants, are parameters of
    [getRtlPayload] here. A character outside ASCII stands as the bytes of
    its UTF-8 encoding. *)

(** [s.replace(/c/g, replacement)] for a pattern that matches the one
    character [c]: every match, left to right, each with the text before
    and after it at hand for the expansion of the replacement. *)
Fixpoint replace_each_from (c : ascii) (replacement before s : string) : string :=
  match s with
  | EmptyString => EmptyString
  | String d s' =>
    (if Ascii.eqb d c
     then GetSubstitution (String c EmptyString) before s' replacement
     else String d EmptyString)
    +:+ replace_each_from c replacement (before +:+ String d EmptyString) s'
  end.

Definition replace_each (c : ascii) (replacement s : string) : string :=
  replace_each_from c replacement EmptyString s.

(** The three passes of [getRtlPayload]: backslash, backtick, dollar. *)
Definition escapeTemplate (s : string) : string :=
  replace_each "$" "\$" (replace_each "`" "\`" (replace_each "\" "\\" s)).

Definition getRtlPayload_of (RTL_CSS RTL_JS : string) : string :=
  let escapedCSS := escapeTemplate RTL_CSS in
  let escapedJS := escapeTemplate RTL_JS in
  newline +:+ newline
  +:+ "// === Claude RTL Fixer — Injected by claude-rtl-fixer ===" +:+ newline
  +:+ "require(" +:+ dquote +:+ "electron" +:+ dquote +:+ ").webFrame.insertCSS(`"
  +:+ escapedCSS +:+ "`, {cssOrigin: " +:+ dquote +:+ "author" +:+ dquote +:+ "});"
  +:+ newline +:+ newline
  +:+ "// Inject MutationObserver script into the page" +:+ newline
  +:+ "require(" +:+ dquote +:+ "electron" +:+ dquote +:+ ").webFrame.executeJavaScript(`"
  +:+ escapedJS +:+ "`);" +:+ newline
  +:+ "// === End Claude RTL Fixer ===" +:+ newline.

(** [isPatched(content)] *)
Definition isPatched (content : string) : bool := includes content RTL_MARKER.

(** *** What the injected code evaluates

    The value of the body of a template literal, for the escapes that
    [escapeTemplate] writes; [None] where the body would end the literal,
    open a substitution, or use another escape. A carriage return, alone or
    before a line feed, reads as a line feed. *)
Fixpoint template_value (body : string) : option string :=
  match body with
  | EmptyString => Some EmptyString
  | String c r =>
    if Ascii.eqb c "\" then
      match r with
      | String d r' =>
        if Ascii.eqb d "\" || Ascii.eqb d "`" || Ascii.eqb d "$"
        then String d <$> template_value r'
        else None
      | EmptyString => None
      end
    else if Ascii.eqb c "`" then None
    else if Ascii.eqb c "$" then
      match r with
      | String d _ => if Ascii.eqb d "{" then None else String c <$> template_value r
      | EmptyString => Some (String c EmptyString)
      end
    else if Ascii.eqb c "013" then
      match r with
      | String d r' =>
        if Ascii.eqb d "010" then String "010" <$> template_value r'
        else String "010" <$> template_value r
      | EmptyString => Some (String "010" EmptyString)
      end
    else String c <$> template_value r
  end.

(** Line ends as a template literal reads them. *)
Fixpoint normalize_newlines (s : string) : string :=
  match s with
  | EmptyString => EmptyString
  | String c r =>
    if Ascii.eqb c "013" then
      match r with
      | String d r' =>
        if Ascii.eqb d "010" then String "010" (normalize_newlines r')
        else String "010" (normalize_newlines r)
      | EmptyString => String "010" EmptyString
      end
    else String c (normalize_newlines r)
  end.

(** No character of [s] is a dollar sign. *)
Definition dollar_free (s : string) : bool :=
  forallb (λ c, negb (Ascii.eqb c "$")) (list_ascii_of_string s).

(** What the three passes make of one character. *)
Definition escape_char (c : ascii) : string :=
  if Ascii.eqb c "\" then "\\"
  else if Ascii.eqb c "`" then "\`"
  else if Ascii.eqb c "$" then "\$"
  else String c EmptyString.

Fixpoint string_flat_map (f : ascii → string) (s : string) : string :=
  match s with
  | EmptyString => EmptyString
  | String c r => f c +:+ string_flat_map f r
  end.

Module Payload.

Definition css : string := "a::after { content: '\`$' }".
Definition js : string := "console.log(`${1}`);".

End Payload.

(** ** cli.js

    What is printed is left out; what is kept is which command runs, on
    which machine, and the exit code of the process. [process.exit(n)] is
    the last thing done on every path that calls it, so a function here
    returns the code instead. *)

Record Process := mkProcess {
  (** [process.argv[2]], [None] when absent *)
  argv2 : option string;
  (** [process.platform] *)
  platform : string;
  (** [parseInt(process.versions.node.split(".")[0], 10)], [None] for [NaN] *)
  nodeVersion : option N }.







(** *** The same, in words *)




Module Cli.

Definition windows (command : string) : Process :=
  {| argv2 := Some command; platform := "win32"; nodeVersion := Some 18%N |}.

End Cli.
(** * Properties *)

(** ** The digest, against published test vectors *)

Example sha256_empty :
  Sha256.hex [] = "e3b0c44298fc1c149afbf4c8996fb92427ae41e4649b934ca495991b7852b855"%string.
Proof. vm_compute. reflexivity. Qed.

Example sha256_abc :
  Sha256.hex (list_byte_of_string "abc")
  = "ba7816bf8f01cfea414140de5dae2223b00361a396177a9cb410ff61f20015ad"%string.
Proof. vm_compute. reflexivity. Qed.

Example sha256_two_blocks :
  Sha256.hex (list_byte_of_string "abcdbcdecdefdefgefghfghighijhijkijkljklmklmnlmnomnopnopq")
  = "248d6a61d20638b8e5c026930c3e6039a33ce45964ff2167f6ecedd419db06c1"%string.
Proof. vm_compute. reflexivity. Qed.

(** ** Searching a buffer *)

Lemma starts_with_spec pat buf :
  starts_with pat buf = true ↔ occurs_at pat buf 0.
Proof.
  unfold occurs_at. rewrite drop_0. revert buf.
  induction pat as [|p pat IH]; intros buf; simpl.
  - by rewrite take_0.
  - destruct buf as [|b buf]; simpl; [done|].
    rewrite andb_true_iff, IH. split.
    + intros [Hpb ->]. apply Byte.byte_dec_bl in Hpb. by subst.
    + intros [= -> ->]. split; [|done]. by apply Byte.byte_dec_lb.
Qed.

Lemma occurs_at_S pat b buf i :
  occurs_at pat (b :: buf) (S i) ↔ occurs_at pat buf i.
Proof. done. Qed.

Lemma occurs_at_drop pat buf n i :
  occurs_at pat (drop n buf) i ↔ occurs_at pat buf (n + i).
Proof. unfold occurs_at. by rewrite drop_drop. Qed.

Lemma occurs_at_length pat buf i :
  occurs_at pat buf i → pat ≠ [] → i + length pat ≤ length buf.
Proof.
  unfold occurs_at. intros H Hne.
  assert (Hl : length (take (length pat) (drop i buf)) = length pat) by by rewrite H.
  rewrite length_take, length_drop in Hl.
  destruct pat; [done|]. cbn [length] in *. lia.
Qed.

Lemma occurs_at_lookup pat buf i k b :
  occurs_at pat buf i → pat !! k = Some b → buf !! (i + k) = Some b.
Proof.
  unfold occurs_at. intros H Hk. rewrite <- H in Hk.
  apply lookup_take_Some in Hk as [Hk _]. by rewrite lookup_drop in Hk.
Qed.

Lemma search_Some pat buf pos r :
  search pat buf pos = Some r ↔ ∃ k, r = pos + k ∧ first_at pat buf k.
Proof.
  revert pos. induction buf as [|b buf IH]; intros pos; simpl.
  - destruct (starts_with pat []) eqn:Hs.
    + apply starts_with_spec in Hs. split.
      * intros [= <-]. exists 0. split; [lia|]. split; [done|lia].
      * intros (k & -> & Hk & Hmin). destruct k; [f_equal; lia|].
        destruct (Hmin 0); [lia|done].
    + split; [done|]. intros (k & -> & Hk & _).
      assert (occurs_at pat [] 0) as Hk0.
      { unfold occurs_at in *. by rewrite drop_nil in *. }
      apply starts_with_spec in Hk0. congruence.
  - destruct (starts_with pat (b :: buf)) eqn:Hs.
    + apply starts_with_spec in Hs. split.
      * intros [= <-]. exists 0. split; [lia|]. split; [done|lia].
      * intros (k & -> & Hk & Hmin). destruct k; [f_equal; lia|].
        destruct (Hmin 0); [lia|done].
    + rewrite IH. split.
      * intros (k & -> & Hk & Hmin). exists (S k). split; [lia|]. split; [done|].
        intros [|j] Hj; [|apply Hmin; lia].
        intros Hocc. apply starts_with_spec in Hocc. congruence.
      * intros (k & -> & Hk & Hmin). destruct k.
        { apply starts_with_spec in Hk. congruence. }
        exists k. split; [lia|]. split; [done|].
        intros j Hj. apply (Hmin (S j)). lia.
Qed.

Lemma search_None pat buf pos :
  search pat buf pos = None ↔ ∀ k, ¬ occurs_at pat buf k.
Proof.
  revert pos. induction buf as [|b buf IH]; intros pos; simpl.
  - destruct (starts_with pat []) eqn:Hs.
    + apply starts_with_spec in Hs. split; [done|]. intros H. by destruct (H 0).
    + split; [|done]. intros _ k Hk.
      assert (occurs_at pat [] 0) as Hk0.
      { unfold occurs_at in *. by rewrite drop_nil in *. }
      apply starts_with_spec in Hk0. congruence.
  - destruct (starts_with pat (b :: buf)) eqn:Hs.
    + apply starts_with_spec in Hs. split; [done|]. intros H. by destruct (H 0).
    + rewrite IH. split.
      * intros H [|k]; [|apply H].
        intros Hocc. apply starts_with_spec in Hocc. congruence.
      * intros H k. apply (H (S k)).
Qed.

Lemma Buffer_indexOf_0_Some buf pat i :
  Buffer_indexOf buf pat 0 = Some i ↔ first_at pat buf i.
Proof.
  unfold Buffer_indexOf. rewrite Nat.min_0_l, drop_0, search_Some. split.
  - by intros (k & -> & H).
  - intros H. by exists i.
Qed.

Lemma Buffer_indexOf_0_None buf pat :
  Buffer_indexOf buf pat 0 = None ↔ ∀ k, ¬ occurs_at pat buf k.
Proof. unfold Buffer_indexOf. by rewrite Nat.min_0_l, drop_0, search_None. Qed.

Lemma Buffer_indexOf_None buf pat from :
  pat ≠ [] →
  Buffer_indexOf buf pat from = None ↔ ∀ k, from ≤ k → ¬ occurs_at pat buf k.
Proof.
  intros Hne. unfold Buffer_indexOf. rewrite search_None.
  setoid_rewrite occurs_at_drop. split.
  - intros H k Hk Hocc. apply occurs_at_length in Hocc as Hlen; [|done].
    apply (H (k - from `min` length buf)).
    replace (from `min` length buf + (k - from `min` length buf)) with k by lia. done.
  - intros H k Hocc. apply occurs_at_length in Hocc as Hlen; [|done].
    apply H in Hocc; [done|]. destruct pat; [done|]. simpl in *. lia.
Qed.

(** ** Running computations *)

Lemma bind_eq {A B} (m : IO A) (k : A → IO B) w :
  (x ← m; k x) w = match m w with
                   | (inl e, w') => (inl e, w')
                   | (inr a, w') => k a w'
                   end.
Proof. done. Qed.

Lemma ret_eq {A} (a : A) w : (mret a : IO A) w = (inr a, w).
Proof. done. Qed.

Ltac io_unfold :=
  unfold try_finally, try_catch, attempt, throw, fs.copyFileSync, fs.statSync_size,
    fs.closeSync, mbind, mret, IO_bind, IO_ret in *.

Lemma existsSync_eq p w :
  fs.existsSync p w = (inr (bool_decide (is_Some (files w !! p))), w).
Proof. done. Qed.

Ltac io_run :=
  repeat first [ rewrite bind_eq | rewrite existsSync_eq | rewrite ret_eq
               | progress cbv beta iota ].

Lemma readFileSync_Some p w c :
  files w !! p = Some c → fs.readFileSync p w = (inr c, w).
Proof. unfold fs.readFileSync. by intros ->. Qed.

Lemma writeFileSync_free p data w :
  p ∉ locked w → fs.writeFileSync p data w = (inr (), set_files (insert p data) w).
Proof. unfold fs.writeFileSync. intros H. by rewrite bool_decide_eq_false_2. Qed.

Lemma copyFileSync_ok src dest w c :
  files w !! src = Some c → dest ∉ locked w →
  fs.copyFileSync src dest w = (inr (), set_files (insert dest c) w).
Proof.
  intros Hs Hd. unfold fs.copyFileSync. rewrite bind_eq, (readFileSync_Some _ _ c Hs).
  by apply writeFileSync_free.
Qed.

Lemma readSync_fresh fd n pos w c :
  files w !! fd = Some c →
  (n < 2 ^ 31)%N →
  fs.readSync fd (Buffer_alloc (N.to_nat n)) 0 n pos w
  = (inr (length (take (N.to_nat n) (drop pos c)),
          zero_fill (N.to_nat n) (take (N.to_nat n) (drop pos c))), w).
Proof.
  intros H Hn. unfold fs.readSync, zero_fill, Buffer_alloc.
  rewrite N.mod_small by (change (2 ^ 32)%N with 4294967296%N;
                          change (2 ^ 31)%N with 2147483648%N in Hn; lia).
  destruct (N.eqb_spec n 0) as [->|Hn0]; [done|].
  destruct (N.to_nat n) as [|k] eqn:Hk; [lia|]. cbn [replicate].
  rewrite (proj2 (N.leb_gt _ _) Hn).
  rewrite <- Hk. cbn [length]. rewrite length_replicate.
  replace (N.of_nat (S k)) with n by lia.
  rewrite (proj2 (N.ltb_ge _ _)) by lia. rewrite H.
  change (x00 :: replicate k x00) with (replicate (S k) x00). rewrite <- Hk.
  by rewrite take_0, Nat.add_0_l, drop_replicate.
Qed.

Lemma readSync_out_of_range fd n pos w :
  (2 ^ 31 ≤ n < 2 ^ 32)%N →
  fs.readSync fd (Buffer_alloc (N.to_nat n)) 0 n pos w
  = (inl (ArgError "ERR_OUT_OF_RANGE" "length"), w).
Proof.
  change (2 ^ 32)%N with 4294967296%N. change (2 ^ 31)%N with 2147483648%N.
  intros Hn. unfold fs.readSync, Buffer_alloc.
  rewrite N.mod_small by (change (2 ^ 32)%N with 4294967296%N; lia).
  destruct (N.eqb_spec n 0) as [->|Hn0]; [lia|].
  destruct (N.to_nat n) as [|k] eqn:Hk; [lia|]. cbn [replicate].
  by rewrite (proj2 (N.leb_le _ _)) by (change (2 ^ 31)%N with 2147483648%N; lia).
Qed.

Lemma readUInt32LE_bound buf off : (readUInt32LE buf off < 2 ^ 32)%N.
Proof.
  change (2 ^ 32)%N with 4294967296%N. unfold readUInt32LE.
  destruct (drop off buf) as [|b0 [|b1 [|b2 [|b3 t]]]]; try lia.
  pose proof (Byte.to_N_bounded b0). pose proof (Byte.to_N_bounded b1).
  pose proof (Byte.to_N_bounded b2). pose proof (Byte.to_N_bounded b3). lia.
Qed.

(** ** integrity.js: the header hash *)

Lemma computeAsarHeaderHash_Some p w c :
  files w !! p = Some c →
  computeAsarHeaderHash p w
  = (if header_in_range c then inr (Sha256.hex (header_region c))
     else inl (ArgError "ERR_OUT_OF_RANGE" "length"), w).
Proof.
  intros H. unfold computeAsarHeaderHash, header_in_range, header_region, header_length.
  rewrite bind_eq. unfold fs.openSync at 1. rewrite H. cbn [andb].
  unfold try_finally. rewrite bind_eq.
  change (fs.readSync p (Buffer_alloc 16) 0 16 0 w)
    with (fs.readSync p (Buffer_alloc (N.to_nat 16)) 0 16 0 w).
  rewrite (readSync_fresh _ _ _ _ c H) by done. rewrite drop_0.
  change (N.to_nat 16) with 16. rewrite bind_eq.
  destruct (N.ltb_spec (readUInt32LE (zero_fill 16 (take 16 c)) 12) (2 ^ 31)) as [Hn|Hn].
  - by rewrite (readSync_fresh _ _ _ _ c H).
  - rewrite readSync_out_of_range; [done|]. split; [done|apply readUInt32LE_bound].
Qed.

(** The header hash of an archive whose length field is in range. *)
Lemma computeAsarHeaderHash_in_range p w c :
  files w !! p = Some c →
  header_in_range c = true →
  computeAsarHeaderHash p w = (inr (Sha256.hex (header_region c)), w).
Proof. intros H Hr. by rewrite (computeAsarHeaderHash_Some _ _ _ H), Hr. Qed.

Lemma computeAsarHeaderHash_None p w :
  files w !! p = None →
  computeAsarHeaderHash p w = (inl (FsError ENOENT p), w).
Proof.
  intros H. unfold computeAsarHeaderHash.
  rewrite bind_eq. unfold fs.openSync at 1. by rewrite H.
Qed.

(** What [computeAsarHeaderHash] returned, it returned for a file of this
    kind. *)
Lemma computeAsarHeaderHash_inr p w h w' :
  computeAsarHeaderHash p w = (inr h, w') →
  w' = w ∧ ∃ c, files w !! p = Some c ∧ header_in_range c = true
                ∧ h = Sha256.hex (header_region c).
Proof.
  destruct (files w !! p) as [c|] eqn:Hp.
  - rewrite (computeAsarHeaderHash_Some _ _ _ Hp).
    destruct (header_in_range c) eqn:Hr; [|done]. intros [= <- <-]. by eauto.
  - by rewrite (computeAsarHeaderHash_None _ _ Hp).
Qed.

Lemma readUInt32LE_app buf rest off :
  off + 4 ≤ length buf → readUInt32LE (buf ++ rest) off = readUInt32LE buf off.
Proof.
  intros H. unfold readUInt32LE. rewrite drop_app_le by lia.
  assert (4 ≤ length (drop off buf)) as Hl by (rewrite length_drop; lia).
  destruct (drop off buf) as [|b0 [|b1 [|b2 [|b3 t]]]]; simpl in Hl; try lia. done.
Qed.

Lemma readUInt32LE_take buf n off :
  off + 4 ≤ n → readUInt32LE (take n buf) off = readUInt32LE buf off.
Proof.
  intros H. unfold readUInt32LE.
  replace n with (off + (4 + (n - off - 4))) by lia.
  rewrite <- take_drop_commute.
  destruct (drop off buf) as [|b0 [|b1 [|b2 [|b3 t]]]]; done.
Qed.

(** The header region of a file that holds its whole declared header. *)
Lemma header_region_complete c n :
  16 + n ≤ length c →
  readUInt32LE c 12 = N.of_nat n →
  header_region c = Buffer_slice c 16 (16 + n).
Proof.
  intros Hlen Hn. unfold header_region, zero_fill, Buffer_slice.
  rewrite length_take, (Nat.min_l 16) by lia.
  rewrite Nat.sub_diag, app_nil_r, readUInt32LE_take, Hn, Nat2N.id by lia.
  rewrite length_take, length_drop, Nat.min_l by lia.
  rewrite Nat.sub_diag, app_nil_r. f_equal. lia.
Qed.

Lemma header_length_complete c :
  16 ≤ length c → header_length c = readUInt32LE c 12.
Proof.
  intros Hlen. unfold header_length, zero_fill.
  rewrite length_take, (Nat.min_l 16) by lia.
  by rewrite Nat.sub_diag, app_nil_r, readUInt32LE_take by lia.
Qed.

(** C7. A 1000-byte archive whose length field at offset 12 holds 12 hashes
    to the SHA-256 hex digest of exactly the 12 bytes at offsets 16..27; no
    other byte of the file enters the result. *)
Theorem header_hash_mock_archive p w c :
  files w !! p = Some c →
  length c = 1000 →
  readUInt32LE c 12 = 12%N →
  computeAsarHeaderHash p w = (inr (Sha256.hex (Buffer_slice c 16 28)), w)
  ∧ length (Buffer_slice c 16 28) = 12.
Proof.
  intros Hp Hlen H12. split.
  - rewrite (computeAsarHeaderHash_in_range _ _ _ Hp).
    + by rewrite (header_region_complete c 12) by (done || lia).
    + unfold header_in_range. by rewrite header_length_complete, H12 by lia.
  - unfold Buffer_slice. rewrite length_take, length_drop. lia.
Qed.

Lemma header_hash_mock_archive_witness :
  computeAsarHeaderHash "app.asar" (Demo.one_file "app.asar" Demo.asar1000)
  = (inr (Sha256.hex (Buffer_from Demo.empty_header)),
     Demo.one_file "app.asar" Demo.asar1000)
  ∧ length (Buffer_from Demo.empty_header) = 12.
Proof.
  apply (header_hash_mock_archive "app.asar" _ Demo.asar1000); reflexivity.
Defined.

(** C5 (as amended). [computeAsarHeaderHash] validates neither length nor
    format itself. It throws when the archive cannot be opened, and, by the
    argument check of [fs.readSync], when the length field at offset 12 is
    2^31 or more; for every other file it returns the digest of the declared
    header region, in which every byte the file is too short to supply
    reads as zero. *)
Theorem header_hash_unvalidated p w :
  computeAsarHeaderHash p w =
  match files w !! p with
  | None => (inl (FsError ENOENT p), w)
  | Some c =>
    if (header_length c <? 2 ^ 31)%N
    then (inr (Sha256.hex (header_region c)), w)
    else (inl (ArgError "ERR_OUT_OF_RANGE" "length"), w)
  end.
Proof.
  destruct (files w !! p) as [c|] eqn:H.
  - rewrite (computeAsarHeaderHash_Some _ _ _ H). unfold header_in_range.
    by destruct (_ <? _)%N.
  - by apply computeAsarHeaderHash_None.
Qed.

(** C5 fails as stated: an empty archive, and a 16-byte archive that
    announces a 64-byte header it does not have, both yield a digest. *)
Lemma header_hash_short_file_counterexample :
  computeAsarHeaderHash "app.asar" (Demo.one_file "app.asar" [])
  = (inr "e3b0c44298fc1c149afbf4c8996fb92427ae41e4649b934ca495991b7852b855",
     Demo.one_file "app.asar" [])
  ∧ computeAsarHeaderHash "app.asar" (Demo.one_file "app.asar" Demo.truncated_asar)
  = (inr (Sha256.hex (replicate 64 x00)),
     Demo.one_file "app.asar" Demo.truncated_asar).
Proof. split; vm_compute; reflexivity. Qed.

(** A length field of 2^31 makes the call throw, with the error of the
    argument check and not one of its own. *)
Lemma header_hash_huge_length_throws :
  computeAsarHeaderHash "app.asar" (Demo.one_file "app.asar" Demo.huge_asar)
  = (inl (ArgError "ERR_OUT_OF_RANGE" "length"), Demo.one_file "app.asar" Demo.huge_asar).
Proof.
  by rewrite (computeAsarHeaderHash_Some _ _ Demo.huge_asar).
Qed.

(** ** backup.js *)

Lemma append_assoc (a b c : string) : (a +:+ b) +:+ c = a +:+ (b +:+ c).
Proof.
  induction a as [|x a IH]; [done|].
  change (String x ((a +:+ b) +:+ c) = String x (a +:+ (b +:+ c))). by rewrite IH.
Qed.

Lemma append_suffix_ne (d s1 s2 : string) : s1 ≠ s2 → d +:+ s1 ≠ d +:+ s2.
Proof. intros Hne Heq. by apply (inj (String.app d)) in Heq. Qed.

Lemma paths_distinct_ne i :
  paths_distinct i →
  let b := getBackupPaths i in
  asarPath i ≠ exePath i ∧ asarPath i ≠ asarBackup b ∧ asarPath i ≠ exeBackup b
  ∧ asarPath i ≠ markerPath b ∧ exePath i ≠ asarBackup b ∧ exePath i ≠ exeBackup b
  ∧ exePath i ≠ markerPath b ∧ asarBackup b ≠ exeBackup b
  ∧ asarBackup b ≠ markerPath b ∧ exeBackup b ≠ markerPath b.
Proof.
  unfold paths_distinct. intros H. cbv zeta.
  repeat (apply NoDup_cons in H as [? H]). set_solver.
Qed.

(** What the locator hands out: both live files exist, and the five paths
    of the transaction differ. *)
Lemma findClaudeInstall_found w w' i :
  findClaudeInstall w = (inr (inr i), w') →
  w' = w ∧ paths_distinct i
  ∧ is_Some (files w !! asarPath i) ∧ is_Some (files w !! exePath i).
Proof.
  unfold findClaudeInstall, locate. destruct (scan w) as [m|d]; [done|].
  repeat case_bool_decide; cbn; try done.
  intros [= <- <-]. split; [done|]. split; [|done].
  unfold paths_distinct, getBackupPaths, getMarkerPath, path_join, MARKER_FILE. cbn.
  rewrite !append_assoc.
  change (NoDup (String.app (dir_fullPath d) <$>
                 [ "\resources\app.asar"; "\claude.exe"; "\resources\app.asar.bak";
                   "\claude.exe.bak"; "\resources\.rtl-patched.json" ])).
  apply (NoDup_fmap_2 _).
  by apply (bool_decide_unpack _); vm_compute.
Qed.

Lemma createBackup_skip i w :
  is_Some (files w !! asarBackup (getBackupPaths i)) →
  is_Some (files w !! exeBackup (getBackupPaths i)) →
  createBackup i w = (inr (BackupOk true), w).
Proof.
  intros Ha He. unfold createBackup. cbn. io_run.
  by rewrite !bool_decide_eq_true_2.
Qed.

Lemma createBackup_fresh i w a e :
  paths_distinct i →
  files w !! asarPath i = Some a →
  files w !! exePath i = Some e →
  asarBackup (getBackupPaths i) ∉ locked w →
  exeBackup (getBackupPaths i) ∉ locked w →
  ¬ (is_Some (files w !! asarBackup (getBackupPaths i))
     ∧ is_Some (files w !! exeBackup (getBackupPaths i))) →
  createBackup i w
  = (inr (BackupOk false),
     set_files (insert (exeBackup (getBackupPaths i)) e
                ∘ insert (asarBackup (getBackupPaths i)) a) w).
Proof.
  intros Hd Ha He Hla Hle Hnot.
  apply paths_distinct_ne in Hd as (?&?&?&?&?&?&?&?&?&?).
  unfold createBackup. cbn in *. io_run.
  destruct (bool_decide _ && bool_decide _) eqn:Hboth.
  { apply andb_true_iff in Hboth as [?%bool_decide_eq_true ?%bool_decide_eq_true].
    by destruct Hnot. }
  unfold try_catch. rewrite bind_eq, (copyFileSync_ok _ _ _ a) by done.
  rewrite bind_eq, (copyFileSync_ok _ _ _ e); [done| |done].
  cbn. by rewrite lookup_insert_ne.
Qed.

(** The skip is taken only when both backups were already there, and it
    touches nothing. *)
Lemma createBackup_skipped_inv i w w' :
  createBackup i w = (inr (BackupOk true), w') →
  w' = w ∧ is_Some (files w !! asarBackup (getBackupPaths i))
  ∧ is_Some (files w !! exeBackup (getBackupPaths i)).
Proof.
  unfold createBackup. cbn. io_run.
  destruct (bool_decide _ && bool_decide _) eqn:Hboth.
  - apply andb_true_iff in Hboth as [?%bool_decide_eq_true ?%bool_decide_eq_true].
    by intros [= <-].
  - io_unfold. intros H. repeat case_match; simplify_eq.
Qed.

(** C9. With exactly one of the two backup files present, [createBackup]
    does not skip: it copies the live archive and the live executable over
    both backup paths, replacing the one backup that was there; a skip
    happens only when both were present. The copies are assumed to go
    through (live files readable, backup paths not locked). *)
Theorem createBackup_half_backup_overwritten i w a e :
  paths_distinct i →
  files w !! asarPath i = Some a →
  files w !! exePath i = Some e →
  asarBackup (getBackupPaths i) ∉ locked w →
  exeBackup (getBackupPaths i) ∉ locked w →
  (is_Some (files w !! asarBackup (getBackupPaths i))
   ∧ files w !! exeBackup (getBackupPaths i) = None)
  ∨ (files w !! asarBackup (getBackupPaths i) = None
     ∧ is_Some (files w !! exeBackup (getBackupPaths i))) →
  (∃ w', createBackup i w = (inr (BackupOk false), w')
         ∧ files w' !! asarBackup (getBackupPaths i) = Some a
         ∧ files w' !! exeBackup (getBackupPaths i) = Some e
         ∧ files w' !! asarPath i = Some a
         ∧ files w' !! exePath i = Some e)
  ∧ (∀ w0 w1, createBackup i w0 = (inr (BackupOk true), w1) →
       is_Some (files w0 !! asarBackup (getBackupPaths i))
       ∧ is_Some (files w0 !! exeBackup (getBackupPaths i))).
Proof.
  intros Hd Ha He Hla Hle Hone. split.
  - eexists. split.
    + apply createBackup_fresh; try done.
      intros [[x Hx] [y Hy]]. destruct Hone as [[_ ?]|[? _]]; congruence.
    + apply paths_distinct_ne in Hd as (?&?&?&?&?&?&?&?&?&?). cbn in *.
      rewrite lookup_insert_eq, lookup_insert_ne, lookup_insert_eq by done.
      by rewrite !lookup_insert_ne by done.
  - intros w0 w1 H. by apply createBackup_skipped_inv in H as (_ & ? & ?).
Qed.

Lemma createBackup_half_backup_overwritten_witness :
  (∃ w', createBackup Demo.install (Demo.with_file Demo.asar_bak [x01] Demo.pristine)
         = (inr (BackupOk false), w')
         ∧ files w' !! Demo.asar_bak = Some Demo.asar1000
         ∧ files w' !! Demo.exe_bak = files Demo.pristine !! exePath Demo.install
         ∧ files w' !! asarPath Demo.install = Some Demo.asar1000
         ∧ files w' !! exePath Demo.install = files Demo.pristine !! exePath Demo.install)
  ∧ (∀ w0 w1, createBackup Demo.install w0 = (inr (BackupOk true), w1) →
       is_Some (files w0 !! Demo.asar_bak) ∧ is_Some (files w0 !! Demo.exe_bak)).
Proof.
  apply (createBackup_half_backup_overwritten Demo.install
           (Demo.with_file Demo.asar_bak [x01] Demo.pristine)).
  - by apply (bool_decide_unpack _); vm_compute.
  - reflexivity.
  - reflexivity.
  - by apply (bool_decide_unpack _); vm_compute.
  - by apply (bool_decide_unpack _); vm_compute.
  - left. split; [by eexists|reflexivity].
Defined.

(** C6. The patched state is read off the marker's existence: no marker
    file means not patched, and a marker whose body does not parse as JSON
    still means patched, with no info. *)
Theorem isPatchedOnDisk_by_existence env i w :
  (files w !! getMarkerPath (resourcesDir i) = None →
   isPatchedOnDisk env i w = (inr {| patched := false; info := None |}, w))
  ∧ (∀ body,
       files w !! getMarkerPath (resourcesDir i) = Some body →
       JSON_parse env (string_of_list_byte body) = None →
       isPatchedOnDisk env i w = (inr {| patched := true; info := None |}, w)).
Proof.
  split.
  - intros H. unfold isPatchedOnDisk. io_run. by rewrite H.
  - intros body H Hparse. unfold isPatchedOnDisk. io_run. rewrite H. cbn.
    unfold try_catch. io_run. rewrite (readFileSync_Some _ _ _ H). io_run.
    by rewrite Hparse.
Qed.

Lemma isPatchedOnDisk_by_existence_witness :
  isPatchedOnDisk Demo.env Demo.install Demo.pristine
  = (inr {| patched := false; info := None |}, Demo.pristine)
  ∧ isPatchedOnDisk Demo.env Demo.install
      (Demo.with_file Demo.marker (Buffer_from "not json") Demo.pristine)
    = (inr {| patched := true; info := None |},
       Demo.with_file Demo.marker (Buffer_from "not json") Demo.pristine).
Proof.
  split.
  - apply (proj1 (isPatchedOnDisk_by_existence Demo.env Demo.install Demo.pristine)).
    reflexivity.
  - apply (proj2 (isPatchedOnDisk_by_existence Demo.env Demo.install
                    (Demo.with_file Demo.marker (Buffer_from "not json") Demo.pristine))
             (Buffer_from "not json")); reflexivity.
Defined.

(** Whatever the body holds, a marker that exists reads as patched. *)
Lemma isPatchedOnDisk_present env i w body :
  files w !! getMarkerPath (resourcesDir i) = Some body →
  isPatchedOnDisk env i w
  = (inr {| patched := true; info := JSON_parse env (string_of_list_byte body) |}, w).
Proof.
  intros H. unfold isPatchedOnDisk. io_run. rewrite H. cbn.
  unfold try_catch. io_run. rewrite (readFileSync_Some _ _ _ H). io_run.
  by destruct (JSON_parse _ _).
Qed.

Lemma isPatchedOnDisk_absent env i w :
  files w !! getMarkerPath (resourcesDir i) = None →
  isPatchedOnDisk env i w = (inr {| patched := false; info := None |}, w).
Proof. intros H. unfold isPatchedOnDisk. io_run. by rewrite H. Qed.

(** ** integrity.js: rewriting the embedded hash *)

(** C3 does not hold of the code: the second search starts 64 bytes after
    the first match, so an occurrence that overlaps the first one goes
    unseen. Here [a64] occurs at offsets 0 and 1 of a 65-byte file, and the
    file is rewritten all the same. *)
Theorem patchExeHash_overlap_rewrites :
  occurs_at (Buffer_from Demo.a64) (Buffer_from (Demo.a64 +:+ "a")) 0
  ∧ occurs_at (Buffer_from Demo.a64) (Buffer_from (Demo.a64 +:+ "a")) 1
  ∧ patchExeHash "claude.exe" Demo.a64 Demo.b64
      (Demo.one_file "claude.exe" (Buffer_from (Demo.a64 +:+ "a")))
    = (inr ExePatched,
       Demo.one_file "claude.exe" (Buffer_from (Demo.b64 +:+ "a"))).
Proof. split_and!; vm_compute; reflexivity. Qed.

(** ** integrity.js: reading the embedded hash *)

Lemma strip7_lower_hex c :
  is_lower_hex c = true → strip7 (byte_of_ascii c) = c.
Proof.
  intros H. unfold strip7. rewrite ascii_of_byte_of_ascii.
  destruct c as [b0 b1 b2 b3 b4 b5 b6 []]; [|done].
  by destruct b0, b1, b2, b3, b4, b5, b6.
Qed.

Lemma length_string_of_list_ascii l :
  String.length (string_of_list_ascii l) = length l.
Proof. induction l; cbn; congruence. Qed.

Lemma length_list_ascii_of_string s :
  length (list_ascii_of_string s) = String.length s.
Proof. induction s; cbn; congruence. Qed.

Lemma length_Buffer_from s : length (Buffer_from s) = String.length s.
Proof.
  unfold Buffer_from, list_byte_of_string.
  by rewrite length_map, length_list_ascii_of_string.
Qed.

(** A well-formed hash survives the trip through a buffer. *)
Lemma toString_ascii_Buffer_from h :
  is_hash64 h = true → toString_ascii (Buffer_from h) = h.
Proof.
  unfold is_hash64, toString_ascii, Buffer_from, list_byte_of_string.
  intros [_ H]%andb_true_iff.
  rewrite <- (string_of_list_ascii_of_string h) at 2. f_equal.
  induction (list_ascii_of_string h) as [|c l IH]; [done|].
  cbn in *. apply andb_true_iff in H as [Hc Hl].
  by rewrite strip7_lower_hex, IH.
Qed.

Lemma is_hash64_toString_ascii bs :
  is_hash64 (toString_ascii bs) = true
  ↔ length bs = 64 ∧ Forall (λ b, is_lower_hex (strip7 b) = true) bs.
Proof.
  unfold is_hash64, toString_ascii.
  rewrite andb_true_iff, length_string_of_list_ascii, length_map,
    list_ascii_of_string_of_list_ascii, Nat.eqb_eq, forallb_forall.
  rewrite Forall_forall. setoid_rewrite <- list_elem_of_In.
  setoid_rewrite list_elem_of_fmap. split.
  - intros [Hlen H]. split; [done|]. intros b Hb. apply H. by exists b.
  - intros [Hlen H]. split; [done|]. intros c (b & -> & Hb). by apply H.
Qed.

Lemma is_hash64_Buffer_from h :
  is_hash64 h = true →
  length (Buffer_from h) = 64
  ∧ Forall (λ b, is_lower_hex (ascii_of_byte b) = true) (Buffer_from h).
Proof.
  unfold is_hash64. intros [Hlen H]%andb_true_iff.
  apply Nat.eqb_eq in Hlen. rewrite length_Buffer_from. split; [done|].
  unfold Buffer_from, list_byte_of_string. apply Forall_fmap, Forall_forall.
  intros c Hc. cbn. rewrite ascii_of_byte_of_ascii.
  rewrite forallb_forall in H. by apply H, list_elem_of_In.
Qed.

Lemma length_pattern : length (Buffer_from pattern) = 24.
Proof. done. Qed.

Lemma readEmbeddedHash_first p w buf idx :
  files w !! p = Some buf →
  first_at (Buffer_from pattern) buf idx →
  readEmbeddedHash p w
  = (inr (let hash := toString_ascii (Buffer_slice buf (idx + 24) (idx + 24 + 64)) in
          if is_hash64 hash then HashFound hash (idx + 24)
          else HashNotFound (EmbeddedHashInvalid hash)), w).
Proof.
  intros Hp Hfirst. unfold readEmbeddedHash. io_run.
  rewrite (readFileSync_Some _ _ _ Hp). io_run.
  apply Buffer_indexOf_0_Some in Hfirst. rewrite Hfirst.
  change (String.length pattern) with 24.
  by destruct (is_hash64 _).
Qed.

Lemma readEmbeddedHash_absent p w buf :
  files w !! p = Some buf →
  (∀ k, ¬ occurs_at (Buffer_from pattern) buf k) →
  readEmbeddedHash p w = (inr (HashNotFound IntegrityHashNotFound), w).
Proof.
  intros Hp Hno. unfold readEmbeddedHash. io_run.
  rewrite (readFileSync_Some _ _ _ Hp). io_run.
  apply Buffer_indexOf_0_None in Hno. by rewrite Hno.
Qed.

Lemma readEmbeddedHash_first_valid p w buf idx h :
  files w !! p = Some buf →
  first_at (Buffer_from pattern) buf idx →
  is_hash64 h = true →
  Buffer_slice buf (idx + 24) (idx + 88) = Buffer_from h →
  readEmbeddedHash p w = (inr (HashFound h (idx + 24)), w).
Proof.
  intros Hp Hfirst Hh Hslice. rewrite (readEmbeddedHash_first _ _ _ _ Hp Hfirst).
  cbv zeta. replace (idx + 24 + 64) with (idx + 88) by lia.
  by rewrite Hslice, toString_ascii_Buffer_from, Hh.
Qed.

Lemma readEmbeddedHash_first_invalid p w buf idx :
  files w !! p = Some buf →
  first_at (Buffer_from pattern) buf idx →
  (length buf < idx + 88
   ∨ ∃ k b, k < 64 ∧ buf !! (idx + 24 + k) = Some b ∧ is_lower_hex (strip7 b) = false) →
  ∃ bad, readEmbeddedHash p w = (inr (HashNotFound (EmbeddedHashInvalid bad)), w).
Proof.
  intros Hp Hfirst Hbad. rewrite (readEmbeddedHash_first _ _ _ _ Hp Hfirst).
  cbv zeta. destruct (is_hash64 _) eqn:Hok; [|by eexists].
  exfalso. apply is_hash64_toString_ascii in Hok as [Hlen Hall].
  unfold Buffer_slice in *. rewrite length_take, length_drop in Hlen.
  destruct Hbad as [Hshort|(k & b & Hk & Hb & Hhex)]; [lia|].
  rewrite Forall_forall in Hall.
  assert (b ∈ take (idx + 24 + 64 - (idx + 24)) (drop (idx + 24) buf)) as Hin.
  { apply list_elem_of_lookup. exists k.
    rewrite lookup_take_lt by lia. by rewrite lookup_drop. }
  apply Hall in Hin. congruence.
Qed.

(** C8 (as amended). [readEmbeddedHash] looks at the first occurrence of
    the marker only. If 64 lowercase-hex bytes follow it, the call succeeds
    with exactly those 64 characters. If fewer than 64 bytes follow it, or
    one of the 64 decodes (as 7-bit ASCII) to something other than a
    lowercase hex digit, an uppercase letter for one, the call fails with the
    invalid-hash error. Without any marker it fails with the not-found
    error. *)
Theorem readEmbeddedHash_first_marker p w buf :
  files w !! p = Some buf →
  (∀ idx h,
     first_at (Buffer_from pattern) buf idx →
     is_hash64 h = true →
     Buffer_slice buf (idx + 24) (idx + 88) = Buffer_from h →
     readEmbeddedHash p w = (inr (HashFound h (idx + 24)), w))
  ∧ (∀ idx,
       first_at (Buffer_from pattern) buf idx →
       (length buf < idx + 88
        ∨ ∃ k b, k < 64 ∧ buf !! (idx + 24 + k) = Some b
                 ∧ is_lower_hex (strip7 b) = false) →
       ∃ bad, readEmbeddedHash p w = (inr (HashNotFound (EmbeddedHashInvalid bad)), w))
  ∧ ((∀ k, ¬ occurs_at (Buffer_from pattern) buf k) →
     readEmbeddedHash p w = (inr (HashNotFound IntegrityHashNotFound), w)).
Proof.
  intros Hp. split; [|split].
  - intros idx h. by apply readEmbeddedHash_first_valid.
  - intros idx. by apply readEmbeddedHash_first_invalid.
  - by apply readEmbeddedHash_absent.
Qed.

Lemma readEmbeddedHash_first_marker_witness :
  readEmbeddedHash "claude.exe"
    (Demo.one_file "claude.exe" (Demo.mock_exe (Buffer_from Demo.hex64)))
  = (inr (HashFound Demo.hex64 28),
     Demo.one_file "claude.exe" (Demo.mock_exe (Buffer_from Demo.hex64)))
  ∧ (∃ bad,
       readEmbeddedHash "claude.exe"
         (Demo.one_file "claude.exe" (Demo.mock_exe (Buffer_from Demo.upper64)))
       = (inr (HashNotFound (EmbeddedHashInvalid bad)),
          Demo.one_file "claude.exe" (Demo.mock_exe (Buffer_from Demo.upper64))))
  ∧ readEmbeddedHash "claude.exe" (Demo.one_file "claude.exe" (Buffer_from "MZ"))
    = (inr (HashNotFound IntegrityHashNotFound),
       Demo.one_file "claude.exe" (Buffer_from "MZ")).
Proof.
  split; [|split].
  - apply (proj1 (readEmbeddedHash_first_marker "claude.exe"
                    (Demo.one_file "claude.exe" (Demo.mock_exe (Buffer_from Demo.hex64)))
                    (Demo.mock_exe (Buffer_from Demo.hex64)) eq_refl) 4 Demo.hex64).
    + apply Buffer_indexOf_0_Some. reflexivity.
    + reflexivity.
    + reflexivity.
  - apply (proj1 (proj2 (readEmbeddedHash_first_marker "claude.exe"
                    (Demo.one_file "claude.exe" (Demo.mock_exe (Buffer_from Demo.upper64)))
                    (Demo.mock_exe (Buffer_from Demo.upper64)) eq_refl)) 4).
    + apply Buffer_indexOf_0_Some. reflexivity.
    + right. exists 10, x41. split; [lia|]. split; reflexivity.
  - apply (proj2 (proj2 (readEmbeddedHash_first_marker "claude.exe"
                    (Demo.one_file "claude.exe" (Buffer_from "MZ"))
                    (Buffer_from "MZ") eq_refl))).
    apply Buffer_indexOf_0_None. reflexivity.
Defined.

(** C8 fails as stated: this buffer contains the marker followed by 64
    lowercase-hex characters (at offset 102), yet the call fails, because an
    earlier marker is followed by an uppercase digest. *)
Lemma readEmbeddedHash_later_marker_counterexample :
  occurs_at (Buffer_from (pattern +:+ Demo.hex64)) Demo.exe_two_records 102
  ∧ is_hash64 Demo.hex64 = true
  ∧ readEmbeddedHash "claude.exe" (Demo.one_file "claude.exe" Demo.exe_two_records)
    = (inr (HashNotFound (EmbeddedHashInvalid Demo.upper64)),
       Demo.one_file "claude.exe" Demo.exe_two_records).
Proof. split_and!; vm_compute; reflexivity. Qed.




(** ** patcher.js: preflight *)

Lemma canWrite_eq p w :
  canWrite p w
  = (inr (match files w !! p with
          | None => true
          | Some _ => negb (bool_decide (p ∈ locked w))
          end), w).
Proof.
  unfold canWrite, try_catch. io_run. unfold fs.openSync, fs.closeSync.
  destruct (files w !! p); [|done]. cbn [andb].
  by destruct (bool_decide _).
Qed.

Lemma findClaudeInstall_locate w i :
  findClaudeInstall w = (inr (inr i), w) ↔ locate w = inr i.
Proof. unfold findClaudeInstall. split; [by intros [= ->]|by intros ->]. Qed.

(** [preflight] never throws and never writes. *)
Lemma preflight_eq env w :
  preflight env true w = (inr (preflight_answer env w), w).
Proof.
  unfold preflight, preflight_answer. io_run.
  unfold findClaudeInstall at 1. io_run.
  destruct (locate w) as [err|i] eqn:Hr; [done|].
  apply findClaudeInstall_locate, findClaudeInstall_found in Hr
    as (_ & _ & [a Ha] & [x Hx]).
  unfold isClaudeRunning. io_run. destruct (running w); [done|].
  io_run. rewrite canWrite_eq, Ha. io_run.
  destruct (bool_decide (asarPath i ∈ _)); [done|]. cbn [negb].
  io_run. rewrite canWrite_eq, Hx. io_run.
  destruct (bool_decide (exePath i ∈ _)); [done|]. cbn [negb]. io_run.
  destruct (files w !! getMarkerPath _) as [body|] eqn:Hm.
  - by rewrite (isPatchedOnDisk_present _ _ _ _ Hm).
  - by rewrite (isPatchedOnDisk_absent _ _ _ Hm).
Qed.




(** ** backup.js: restoring *)

Lemma unlinkSync_cases p w :
  ∃ r w', fs.unlinkSync p w = (r, w')
          ∧ locked w' = locked w ∧ scratch w' = scratch w
          ∧ (∀ q, q ≠ p → files w' !! q = files w !! q).
Proof.
  unfold fs.unlinkSync. destruct (files w !! p); [|by eauto 10].
  destruct (bool_decide _); [by eauto 10|].
  do 2 eexists. split; [done|]. cbn. repeat split.
  intros q Hq. by rewrite lookup_delete_ne.
Qed.

(** Once both copies have gone back, the live files hold the backups'
    bytes, whether or not the clean-up that follows gets through. *)
Lemma restoreBackup_live i w a x :
  paths_distinct i →
  files w !! asarBackup (getBackupPaths i) = Some a →
  files w !! exeBackup (getBackupPaths i) = Some x →
  asarPath i ∉ locked w →
  exePath i ∉ locked w →
  ∃ r w', restoreBackup i w = (inr r, w')
          ∧ files w' !! asarPath i = Some a
          ∧ files w' !! exePath i = Some x
          ∧ scratch w' = scratch w.
Proof.
  intros Hd Ha Hx Hla Hlx.
  apply paths_distinct_ne in Hd as (?&?&?&?&?&?&?&?&?&?).
  unfold restoreBackup. cbn in *. io_run.
  rewrite !bool_decide_eq_true_2 by by eexists. cbn [negb orb].
  unfold try_catch. io_run.
  rewrite (copyFileSync_ok _ _ _ a) by done. io_run.
  rewrite (copyFileSync_ok _ _ _ x); [|by cbn; rewrite lookup_insert_ne|done]. io_run.
  set (w2 := set_files _ (set_files _ w)).
  assert (files w2 !! asarPath i = Some a) as Ha2.
  { subst w2. cbn. by rewrite lookup_insert_ne, lookup_insert_eq. }
  assert (files w2 !! exePath i = Some x) as Hx2.
  { subst w2. cbn. by rewrite lookup_insert_eq. }
  assert (scratch w2 = scratch w) as Hs2 by done.
  clearbody w2.
  destruct (unlinkSync_cases (asarPath i +:+ ".bak") w2) as (r3 & w3 & -> & _ & Hs3 & Hf3).
  destruct r3 as [e3|[]]; io_run.
  { do 2 eexists. split; [done|]. rewrite !Hf3 by done. by rewrite Hs3. }
  destruct (unlinkSync_cases (exePath i +:+ ".bak") w3) as (r4 & w4 & -> & _ & Hs4 & Hf4).
  destruct r4 as [e4|[]]; io_run.
  { do 2 eexists. split; [done|]. rewrite !Hf4, !Hf3 by done. by rewrite Hs4, Hs3. }
  destruct (bool_decide _); io_run.
  - destruct (unlinkSync_cases (getMarkerPath (resourcesDir i)) w4)
      as (r5 & w5 & -> & _ & Hs5 & Hf5).
    destruct r5 as [e5|[]]; io_run.
    + do 2 eexists. split; [done|]. rewrite !Hf5, !Hf4, !Hf3 by done.
      by rewrite Hs5, Hs4, Hs3.
    + do 2 eexists. split; [done|]. rewrite !Hf5, !Hf4, !Hf3 by done.
      by rewrite Hs5, Hs4, Hs3.
  - do 2 eexists. split; [done|]. rewrite !Hf4, !Hf3 by done. by rewrite Hs4, Hs3.
Qed.

Lemma copyFileSync_ok_inv src dest w w' :
  fs.copyFileSync src dest w = (inr (), w') →
  (dest ∉ locked w) ∧ ∃ c, files w !! src = Some c ∧ w' = set_files (insert dest c) w.
Proof.
  unfold fs.copyFileSync, fs.readFileSync, fs.writeFileSync. io_run.
  destruct (files w !! src) as [c|]; [|done].
  destruct (bool_decide (dest ∈ locked w)) eqn:Hl; [done|].
  intros [= <-]. apply bool_decide_eq_false in Hl. by eauto.
Qed.


(** [restoreBackup] reports; it never throws. *)
Lemma restoreBackup_never_throws i w : ∃ rr wr, restoreBackup i w = (inr rr, wr).
Proof.
  unfold restoreBackup. cbn. io_run. destruct (negb _ || negb _); [by eauto|].
  unfold try_catch.
  match goal with
  | |- context [match ?m w with _ => _ end] => destruct (m w) as [[e|r] w1]
  end; by eauto.
Qed.


(** A backup step that succeeds leaves both backups in place: either it
    found both and touched nothing, or it wrote both from the live files. *)
Lemma createBackup_ok_inv i w sk wb :
  paths_distinct i →
  createBackup i w = (inr (BackupOk sk), wb) →
  (sk = true ∧ wb = w
   ∧ is_Some (files w !! asarBackup (getBackupPaths i))
   ∧ is_Some (files w !! exeBackup (getBackupPaths i)))
  ∨ (sk = false
     ∧ ∃ a x, files w !! asarPath i = Some a ∧ files w !! exePath i = Some x
              ∧ wb = set_files (insert (exeBackup (getBackupPaths i)) x
                                ∘ insert (asarBackup (getBackupPaths i)) a) w).
Proof.
  intros Hd. apply paths_distinct_ne in Hd as (?&?&?&?&?&?&?&?&?&?).
  unfold createBackup. cbn in *. io_run.
  destruct (bool_decide _ && bool_decide _) eqn:Hboth.
  - apply andb_true_iff in Hboth as [?%bool_decide_eq_true ?%bool_decide_eq_true].
    intros [= <- <-]. by left.
  - unfold try_catch, fs.copyFileSync, fs.readFileSync, fs.writeFileSync. io_run.
    intros Hrun. right.
    destruct (files w !! asarPath i) as [a|] eqn:Ha; io_run.
    2:{ revert Hrun. unfold attempt, try_catch. io_run.
        repeat (case_match; io_run); intros; simplify_eq. }
    revert Hrun. destruct (bool_decide (asarPath i +:+ ".bak" ∈ locked w)); io_run.
    1:{ unfold attempt, try_catch. repeat (case_match; io_run); intros; simplify_eq. }
    cbn [files set_files locked]. rewrite lookup_insert_ne by done.
    destruct (files w !! exePath i) as [x|] eqn:Hx; io_run.
    2:{ unfold attempt, try_catch. repeat (case_match; io_run); intros; simplify_eq. }
    cbn [locked set_files].
    destruct (bool_decide (exePath i +:+ ".bak" ∈ locked w)); io_run.
    1:{ unfold attempt, try_catch. repeat (case_match; io_run); intros; simplify_eq. }
    intros [= <- <-]. split; [done|]. by exists a, x.
Qed.

(** ** Rewriting the digest in place *)

Lemma occurs_at_take pat buf n i :
  i + length pat ≤ n →
  occurs_at pat (take n buf) i ↔ occurs_at pat buf i.
Proof.
  intros H. unfold occurs_at.
  replace n with (i + (n - i)) by lia.
  rewrite <- take_drop_commute, take_take.
  by replace (length pat `min` (n - i)) with (length pat) by lia.
Qed.

Lemma Buffer_copy_take source target pos :
  pos ≤ length target →
  take pos (Buffer_copy source target pos) = take pos target.
Proof.
  intros H. unfold Buffer_copy.
  rewrite take_app_le by (rewrite length_take; lia).
  rewrite take_take. f_equal. lia.
Qed.

Lemma Buffer_copy_slice source target pos :
  pos + length source ≤ length target →
  Buffer_slice (Buffer_copy source target pos) pos (pos + length source) = source.
Proof.
  intros H. unfold Buffer_copy, Buffer_slice.
  rewrite drop_app_length' by (rewrite length_take; lia).
  rewrite (take_ge source) by lia.
  replace (pos + length source - pos) with (length source) by lia.
  by rewrite take_app_length.
Qed.

(** The byte just before the digest is the closing quote of the marker,
    which no hash can contain: the first match of the old hash can only be
    the digest itself, unless an undetected copy overlaps neither. *)
Lemma first_old_hash_is_literal buf ip old idx :
  first_at (Buffer_from pattern) buf ip →
  is_hash64 old = true →
  Buffer_slice buf (ip + 24) (ip + 88) = Buffer_from old →
  first_at (Buffer_from old) buf idx →
  (∀ k, idx + 64 ≤ k → ¬ occurs_at (Buffer_from old) buf k) →
  idx = ip + 24.
Proof.
  intros [Hpat _] Hold Hslice [Hocc Hmin] Hlast.
  apply is_hash64_Buffer_from in Hold as [Hlen Hhex].
  assert (occurs_at (Buffer_from old) buf (ip + 24)) as Hlit.
  { unfold occurs_at, Buffer_slice in *. rewrite Hlen.
    by replace (ip + 88 - (ip + 24)) with 64 in Hslice by lia. }
  destruct (decide (idx = ip + 24)) as [|Hne]; [done|exfalso].
  assert (idx < ip + 24) as Hlt.
  { destruct (decide (ip + 24 < idx)) as [Hgt|]; [|lia]. by apply Hmin in Hgt. }
  assert (ip + 24 < idx + 64) as Hov.
  { destruct (decide (idx + 64 ≤ ip + 24)) as [Hge|]; [|lia]. by apply Hlast in Hge. }
  assert (buf !! (ip + 23) = Some x22) as Hq.
  { by apply (occurs_at_lookup _ _ ip 23 x22) in Hpat. }
  destruct (Buffer_from old !! (ip + 23 - idx)) as [b|] eqn:Hb.
  2:{ apply lookup_ge_None in Hb. lia. }
  apply (occurs_at_lookup _ _ idx _ b Hocc) in Hb as Hb'.
  replace (idx + (ip + 23 - idx)) with (ip + 23) in Hb' by lia.
  rewrite Forall_forall in Hhex.
  assert (b ∈ Buffer_from old) as Hin by (apply list_elem_of_lookup; eauto).
  apply Hhex in Hin. by simplify_eq.
Qed.

(** After the digest bytes are overwritten with another hash, the marker is
    still first found where it was, and the new hash follows it. *)
Lemma marker_survives_rewrite buf ip new :
  first_at (Buffer_from pattern) buf ip →
  ip + 88 ≤ length buf →
  is_hash64 new = true →
  first_at (Buffer_from pattern) (Buffer_copy (Buffer_from new) buf (ip + 24)) ip
  ∧ Buffer_slice (Buffer_copy (Buffer_from new) buf (ip + 24)) (ip + 24) (ip + 88)
    = Buffer_from new.
Proof.
  intros [Hpat Hmin] Hlen Hnew.
  apply is_hash64_Buffer_from in Hnew as [Hn _].
  assert (∀ j, j ≤ ip →
            occurs_at (Buffer_from pattern)
              (Buffer_copy (Buffer_from new) buf (ip + 24)) j
            ↔ occurs_at (Buffer_from pattern) buf j) as Hsame.
  { intros j Hj.
    rewrite <- (occurs_at_take _ (Buffer_copy _ _ _) (ip + 24))
      by (rewrite length_pattern; lia).
    rewrite Buffer_copy_take by lia.
    apply occurs_at_take. rewrite length_pattern. lia. }
  split; [split|].
  - by apply Hsame.
  - intros j Hj. rewrite Hsame by lia. by apply Hmin.
  - replace (ip + 88) with (ip + 24 + length (Buffer_from new)) by lia.
    apply Buffer_copy_slice. lia.
Qed.

Lemma patchExeHash_inv p old new w r w' buf :
  files w !! p = Some buf →
  patchExeHash p old new w = (inr r, w') →
  match r with
  | ExeIdentical => old = new ∧ w' = w
  | ExePatchFailed _ => w' = w
  | ExePatched =>
    old ≠ new ∧ is_hash64 old = true ∧ is_hash64 new = true
    ∧ ∃ idx, first_at (Buffer_from old) buf idx
             ∧ (∀ k, idx + 64 ≤ k → ¬ occurs_at (Buffer_from old) buf k)
             ∧ w' = set_files (insert p (Buffer_copy (Buffer_from new) buf idx)) w
  end.
Proof.
  intros Hp. unfold patchExeHash.
  destruct (String.eqb_spec old new) as [->|Hne].
  { by intros [= <- <-]. }
  destruct (is_hash64 old) eqn:Hold; cbn [negb orb]; [|by intros [= <- <-]].
  destruct (is_hash64 new) eqn:Hnew; cbn [negb orb]; [|by intros [= <- <-]].
  io_run. rewrite (readFileSync_Some _ _ _ Hp). io_run.
  destruct (Buffer_indexOf buf (Buffer_from old) 0) as [idx|] eqn:Hidx;
    [|by intros [= <- <-]].
  destruct (Buffer_indexOf buf (Buffer_from old) (idx + 64)) as [j|] eqn:Hsecond;
    [by intros [= <- <-]|].
  io_run. unfold fs.writeFileSync. destruct (bool_decide _); [done|]. io_run.
  intros [= <- <-]. repeat split; try done.
  exists idx. split; [by apply Buffer_indexOf_0_Some|]. split; [|done].
  apply Buffer_indexOf_None; [|done].
  apply is_hash64_Buffer_from in Hold as [Hlen _]. by destruct (Buffer_from old).
Qed.

Lemma byte_of_ascii_strip7 b :
  (Byte.to_N b < 128)%N → byte_of_ascii (strip7 b) = b.
Proof. destruct b; intros H; try reflexivity; by vm_compute in H. Qed.

Lemma Buffer_from_toString_ascii bs :
  Forall (λ b, (Byte.to_N b < 128)%N) bs → Buffer_from (toString_ascii bs) = bs.
Proof.
  unfold Buffer_from, toString_ascii, list_byte_of_string.
  rewrite list_ascii_of_string_of_list_ascii.
  induction 1 as [|b bs Hb _ IH]; [done|].
  cbn. by rewrite byte_of_ascii_strip7, IH.
Qed.

Lemma readEmbeddedHash_found_inv p w buf h off w' :
  files w !! p = Some buf →
  readEmbeddedHash p w = (inr (HashFound h off), w') →
  w' = w ∧ is_hash64 h = true
  ∧ ∃ ip, first_at (Buffer_from pattern) buf ip ∧ off = ip + 24
          ∧ h = toString_ascii (Buffer_slice buf (ip + 24) (ip + 88)).
Proof.
  intros Hp. unfold readEmbeddedHash. io_run.
  rewrite (readFileSync_Some _ _ _ Hp). io_run.
  destruct (Buffer_indexOf buf (Buffer_from pattern) 0) as [ip|] eqn:Hip; [|done].
  change (String.length pattern) with 24.
  destruct (is_hash64 _) eqn:Hok; [|done]. cbn [negb].
  intros [= <- <- <-]. repeat split; [done|].
  exists ip. split; [by apply Buffer_indexOf_0_Some|]. split; [done|].
  do 2 f_equal. lia.
Qed.

Lemma readEmbeddedHash_pure p w buf :
  files w !! p = Some buf → ∃ r, readEmbeddedHash p w = (inr r, w).
Proof.
  intros Hp. unfold readEmbeddedHash. io_run.
  rewrite (readFileSync_Some _ _ _ Hp). io_run.
  destruct (Buffer_indexOf _ _ _); [|by eexists].
  destruct (negb _); by eexists.
Qed.

(** The guard does catch a second copy that starts 64 bytes or more after
    the first match. *)
Lemma patchExeHash_refuses_disjoint_copy p w buf old new idx j :
  files w !! p = Some buf →
  old ≠ new →
  is_hash64 old = true →
  is_hash64 new = true →
  first_at (Buffer_from old) buf idx →
  idx + 64 ≤ j →
  occurs_at (Buffer_from old) buf j →
  patchExeHash p old new w = (inr (ExePatchFailed OldHashAmbiguous), w).
Proof.
  intros Hp Hne Hold Hnew Hfirst Hj Hocc. unfold patchExeHash.
  apply String.eqb_neq in Hne. rewrite Hne, Hold, Hnew. cbn [negb orb].
  io_run. rewrite (readFileSync_Some _ _ _ Hp). io_run.
  apply Buffer_indexOf_0_Some in Hfirst. rewrite Hfirst.
  destruct (Buffer_indexOf buf (Buffer_from old) (idx + 64)) as [k|] eqn:Hsecond; [done|].
  assert (Buffer_from old ≠ []) as Hnil.
  { apply is_hash64_Buffer_from in Hold as [Hlen _]. by destruct (Buffer_from old). }
  pose proof (proj1 (Buffer_indexOf_None buf _ (idx + 64) Hnil) Hsecond) as Hnone.
  by destruct (Hnone j Hj).
Qed.

(** ** patcher.js: the transaction *)

Lemma agree_outside_refl S w : agree_outside S w w.
Proof. by repeat split. Qed.

Lemma agree_outside_trans S w1 w2 w3 :
  agree_outside S w1 w2 → agree_outside S w2 w3 → agree_outside S w1 w3.
Proof.
  intros (Hl1 & Hr1 & Hs1 & Hf1) (Hl2 & Hr2 & Hs2 & Hf2).
  repeat split; try congruence. intros q Hq. by rewrite Hf2, Hf1.
Qed.

Lemma agree_outside_weaken S T w w' :
  S ⊆ T → agree_outside S w w' → agree_outside T w w'.
Proof.
  intros Hsub (Hl & Hr & Hs & Hf). repeat split; try done.
  intros q Hq. apply Hf. intros Hin. by apply Hq, Hsub.
Qed.

Lemma agree_outside_set_scratch S s w : agree_outside S w (set_scratch s w).
Proof. by repeat split. Qed.

Lemma agree_outside_insert p c w : agree_outside [p] w (set_files <[p := c]> w).
Proof.
  repeat split. intros q Hq. cbn. apply lookup_insert_ne.
  intros ->. apply Hq. by left.
Qed.

Lemma agree_outside_delete p w : agree_outside [p] w (set_files (delete p) w).
Proof.
  repeat split. intros q Hq. cbn. apply lookup_delete_ne.
  intros ->. apply Hq. by left.
Qed.

(** What [patch_commit] returned. A failure comes after a call of
    [restoreBackup] on the machine [wm] that the failing step left, which
    differs from the machine at entry in the live archive at most; whatever
    that call reports, the failure is returned. *)
Lemma patch_commit_inv env i old ws r w' buf :
  paths_distinct i →
  files ws !! exePath i = Some buf →
  patch_commit env i old ws = (inr r, w') →
  match r with
  | PatchFailed e =>
    later_step_failed e
    ∧ ∃ wm rr wr, agree_outside [asarPath i] ws wm
                  ∧ restoreBackup i wm = (inr rr, wr)
                  ∧ files w' = files wr
  | PatchOk v o n =>
    v = version i ∧ o = old
    ∧ ∃ archive,
        files w' !! asarPath i = Some archive
        ∧ header_in_range archive = true
        ∧ n = Sha256.hex (header_region archive)
        ∧ ((n = old ∧ files w' !! exePath i = Some buf)
           ∨ (n ≠ old ∧ is_hash64 n = true
              ∧ ∃ idx, first_at (Buffer_from old) buf idx
                       ∧ (∀ k, idx + 64 ≤ k → ¬ occurs_at (Buffer_from old) buf k)
                       ∧ files w' !! exePath i
                         = Some (Buffer_copy (Buffer_from n) buf idx)))
  end.
Proof.
  intros Hd Hbuf.
  pose proof (paths_distinct_ne _ Hd) as (?&?&?&?&?&?&?&?&?&?). cbn in *.
  unfold patch_commit. io_run. unfold try_catch. io_run.
  unfold asar_createPackage.
  destruct (scratch ws) as [tree|] eqn:Hs.
  2:{ io_run. unfold cleanup. io_run.
      destruct (restoreBackup_never_throws i (set_scratch None ws)) as (rr & wr & Hres).
      rewrite Hres. io_run. intros [= <- <-].
      split; [done|]. eexists _, _, _. split; [|split; [exact Hres|done]].
      apply agree_outside_weaken with []; [set_solver|apply agree_outside_set_scratch]. }
  destruct (createPackage env tree) as [archive|err [residue|]]; io_run.
  2,3: unfold cleanup; io_run.
  2:{ destruct (restoreBackup_never_throws i
                  (set_scratch None (set_files <[asarPath i:=residue]> ws)))
        as (rr & wr & Hres).
      rewrite Hres. io_run. intros [= <- <-].
      split; [done|]. eexists _, _, _. split; [|split; [exact Hres|done]].
      eapply agree_outside_trans; [apply agree_outside_insert|apply agree_outside_set_scratch]. }
  2:{ destruct (restoreBackup_never_throws i
                  (set_scratch None (set_files (delete (asarPath i)) ws)))
        as (rr & wr & Hres).
      rewrite Hres. io_run. intros [= <- <-].
      split; [done|]. eexists _, _, _. split; [|split; [exact Hres|done]].
      eapply agree_outside_trans; [apply agree_outside_delete|apply agree_outside_set_scratch]. }
  pose proof (agree_outside_insert (asarPath i) archive ws) as Hagree.
  set (w7 := set_files _ ws) in *.
  assert (files w7 !! asarPath i = Some archive) as Harch.
  { subst w7. cbn. by rewrite lookup_insert_eq. }
  assert (files w7 !! exePath i = Some buf) as Hbuf7.
  { subst w7. cbn. by rewrite lookup_insert_ne. }
  clearbody w7.
  unfold fs.statSync_size. io_run. rewrite (readFileSync_Some _ _ _ Harch). io_run.
  destruct (length archive <? 1000).
  { unfold throw, cleanup. io_run.
    destruct (restoreBackup_never_throws i (set_scratch None w7)) as (rr & wr & Hres).
    rewrite Hres. io_run. intros [= <- <-].
    split; [done|]. eexists _, _, _. split; [|split; [exact Hres|done]].
    eapply agree_outside_trans; [exact Hagree|apply agree_outside_set_scratch]. }
  io_run. rewrite (computeAsarHeaderHash_Some _ _ _ Harch).
  destruct (header_in_range archive) eqn:Hrange; io_run; [|done].
  destruct (patchExeHash (exePath i) old (Sha256.hex (header_region archive)) w7)
    as [[exn|pr] w8] eqn:Hpe; io_run; [done|].
  apply (patchExeHash_inv _ _ _ _ _ _ buf Hbuf7) in Hpe.
  destruct pr as [| |perr].
  - destruct Hpe as (Hne & Hold & Hnew & idx & Hfirst & Hlast & ->).
    unfold writeMarker, fs.writeFileSync, cleanup. io_run.
    destruct (bool_decide _); [done|]. io_run.
    intros [= <- <-]. do 2 (split; [done|]). exists archive. cbn.
    rewrite !lookup_insert_ne by done. split; [done|]. do 2 (split; [done|]).
    right. do 2 (split; [done|]). exists idx. do 2 (split; [done|]).
    by rewrite lookup_insert_eq.
  - destruct Hpe as [Hsame ->].
    unfold writeMarker, fs.writeFileSync, cleanup. io_run.
    destruct (bool_decide _); [done|]. io_run.
    intros [= <- <-]. do 2 (split; [done|]). exists archive. cbn.
    rewrite !lookup_insert_ne by done. split; [done|]. do 2 (split; [done|]).
    by left.
  - subst w8. io_run.
    destruct (restoreBackup_never_throws i w7) as (rr & wr & Hres).
    rewrite Hres. unfold cleanup. io_run. intros [= <- <-].
    split; [done|]. by exists w7, rr, wr.
Qed.


Ltac early_failure :=
  intros [= <- <-]; left; eexists; split; [reflexivity|by intros []].

Lemma patch_inv env w i r w' :
  findClaudeInstall w = (inr (inr i), w) →
  patch env w = (inr r, w') →
  (∃ e, r = PatchFailed e ∧ ¬ later_step_failed e)
  ∨ (∃ old off sk wb tree,
       running w = false ∧ (asarPath i ∉ locked w) ∧ (exePath i ∉ locked w)
       ∧ readEmbeddedHash (exePath i) w = (inr (HashFound old off), w)
       ∧ computeAsarHeaderHash (asarPath i) w = (inr old, w)
       ∧ createBackup i w = (inr (BackupOk sk), wb)
       ∧ patch_commit env i old (set_scratch (Some tree) wb) = (inr r, w')).
Proof.
  intros Hfind.
  pose proof (findClaudeInstall_found _ _ _ Hfind) as (_ & Hd & [a0 Ha0] & [x0 Hx0]).
  unfold patch. io_run. rewrite preflight_eq. io_run.
  unfold preflight_answer. rewrite (proj1 (findClaudeInstall_locate _ _) Hfind).
  destruct (running w) eqn:Hrun.
  { early_failure. }
  destruct (bool_decide (asarPath i ∈ locked w)) eqn:Hla.
  { early_failure. }
  destruct (bool_decide (exePath i ∈ locked w)) eqn:Hlx.
  { early_failure. }
  apply bool_decide_eq_false in Hla, Hlx.
  destruct (files w !! getMarkerPath (resourcesDir i)) eqn:Hm.
  { early_failure. }
  io_run. destruct (readEmbeddedHash_pure _ _ _ Hx0) as [hr Hhr]. rewrite Hhr. io_run.
  destruct hr as [old off|err].
  2:{ early_failure. }
  io_run. pose proof (computeAsarHeaderHash_Some _ _ _ Ha0) as Hhash. rewrite Hhash.
  destruct (header_in_range a0) eqn:Hrange; io_run; [|done].
  destruct (String.eqb_spec (Sha256.hex (header_region a0)) old) as [Heq|Hne]; cbn [negb].
  2:{ early_failure. }
  io_run. destruct (createBackup i w) as [[exn|[sk|err]] wb] eqn:Hb; io_run; [done| |].
  2:{ early_failure. }
  unfold try_catch, asar_extractAll, cleanup. io_run.
  destruct (files wb !! asarPath i) as [archive|]; io_run.
  2:{ early_failure. }
  destruct (extractAll env archive) as [exn|tree]; io_run.
  { early_failure. }
  unfold scratch_read, scratch_write. io_run. cbn [scratch set_scratch mbind option_bind].
  destruct (tree !! MAIN_VIEW_PATH) as [content|]; io_run; [|early_failure].
  destruct (isCodePatched content); io_run; [early_failure|].
  cbn [fmap option_fmap option_map].
  intros Hcommit. right. subst old.
  eexists (Sha256.hex (header_region a0)), off, sk, wb, _.
  split_and!; [done..|exact Hcommit].
Qed.


(** What a successful backup step leaves behind. *)
Lemma createBackup_ok_state i w sk wb x0 :
  paths_distinct i →
  files w !! exePath i = Some x0 →
  createBackup i w = (inr (BackupOk sk), wb) →
  locked wb = locked w
  ∧ files wb !! exePath i = Some x0
  ∧ ∃ a x, files wb !! asarBackup (getBackupPaths i) = Some a
           ∧ files wb !! exeBackup (getBackupPaths i) = Some x
           ∧ (sk = false → files w !! asarPath i = Some a ∧ files w !! exePath i = Some x).
Proof.
  intros Hd Hx0 Hb.
  pose proof (paths_distinct_ne _ Hd) as (?&?&?&?&?&?&?&?&?&?).
  apply createBackup_ok_inv in Hb; [|done].
  destruct Hb as [(-> & -> & [a Ha] & [x Hx])|(-> & a & x & Ha & Hx & ->)].
  - split; [done|]. split; [done|]. by exists a, x.
  - cbn in *. split; [done|]. rewrite !lookup_insert_ne by done. split; [done|].
    exists a, x. by rewrite !lookup_insert_eq.
Qed.


Lemma Buffer_from_inj s1 s2 : Buffer_from s1 = Buffer_from s2 → s1 = s2.
Proof.
  unfold Buffer_from. intros H.
  by rewrite <- (string_of_list_byte_of_string s1), H, string_of_list_byte_of_string.
Qed.

(** Where the embedded digest is plain text the pair is coherent: after a
    successful [patch] the header hash of the repacked archive equals the
    hash read back from the executable, and the executable is unchanged
    exactly when the new hash is the old one. *)
Lemma patch_success_hash_coherent env w w' i exe v old new :
  findClaudeInstall w = (inr (inr i), w) →
  files w !! exePath i = Some exe →
  embedded_digest_plain exe →
  patch env w = (inr (PatchOk v old new), w') →
  computeAsarHeaderHash (asarPath i) w' = (inr new, w')
  ∧ (∃ off, readEmbeddedHash (exePath i) w' = (inr (HashFound new off), w'))
  ∧ computeAsarHeaderHash (asarPath i) w = (inr old, w)
  ∧ (∃ off, readEmbeddedHash (exePath i) w = (inr (HashFound old off), w))
  ∧ (new = old ↔ files w' !! exePath i = Some exe).
Proof.
  intros Hfind Hexe Hplain Hpatch.
  pose proof (findClaudeInstall_found _ _ _ Hfind) as (_ & Hd & _ & _).
  apply (patch_inv _ _ i) in Hpatch as [(e' & [=] & _)|Hrun]; [|done].
  destruct Hrun as (old' & off & sk & wb & tree & _ & Hla & Hlx & Hread & Hhash & Hb & Hc).
  destruct (createBackup_ok_state _ _ _ _ _ Hd Hexe Hb) as (Hlb & Hxb & a & x & Ha & Hx & _).
  apply (patch_commit_inv _ _ _ _ _ _ exe Hd) in Hc; [|done].
  destruct Hc as (_ & <- & archive & Harch & Hrange & -> & Hexe').
  pose proof (readEmbeddedHash_found_inv _ _ _ _ _ _ Hexe Hread)
    as (_ & Hold & ip & Hfirst & -> & Hdec).
  assert (Buffer_slice exe (ip + 24) (ip + 88) = Buffer_from old) as Hlit.
  { rewrite Hdec. symmetry. by apply Buffer_from_toString_ascii, Hplain. }
  assert (ip + 88 ≤ length exe) as Hlen.
  { apply is_hash64_Buffer_from in Hold as [Hl64 _].
    rewrite <- Hlit in Hl64. unfold Buffer_slice in Hl64.
    rewrite length_take, length_drop in Hl64. lia. }
  split; [by apply computeAsarHeaderHash_in_range|].
  split; [|split; [done|split; [by eauto|]]].
  - destruct Hexe' as [[-> Hsame]|(Hne & Hnew & idx & Hidx & Hlast & Hnewexe)].
    + exists (ip + 24). by apply (readEmbeddedHash_first_valid _ _ exe).
    + assert (idx = ip + 24) as -> by by eapply first_old_hash_is_literal.
      destruct (marker_survives_rewrite exe ip _ Hfirst Hlen Hnew) as [Hfirst' Hlit'].
      exists (ip + 24). by eapply readEmbeddedHash_first_valid.
  - destruct Hexe' as [[-> Hsame]|(Hne & Hnew & idx & Hidx & Hlast & Hnewexe)]; [done|].
    split; [done|]. rewrite Hnewexe. intros [= Hsame]. exfalso. apply Hne.
    assert (idx = ip + 24) as -> by by eapply first_old_hash_is_literal.
    destruct (marker_survives_rewrite exe ip _ Hfirst Hlen Hnew) as [_ Hlit'].
    rewrite Hsame, Hlit in Hlit'. by apply Buffer_from_inj in Hlit'.
Qed.


(** In that run the restore reports success. *)
Lemma patch_late_failure_restore_ok :
  ∃ wm,
    agree_outside [asarPath Demo.install]
      (snd (createBackup Demo.install Demo.pristine)) wm
    ∧ restoreBackup Demo.install wm
      = (inr RestoreOk, snd (patch Demo.env_disk_full Demo.pristine))
    ∧ files (snd (patch Demo.env_disk_full Demo.pristine)) = files Demo.pristine.
Proof.
  exists (set_scratch None
            (set_files <[asarPath Demo.install := [x00]]>
               (snd (createBackup Demo.install Demo.pristine)))).
  split_and!.
  - eapply agree_outside_trans; [apply agree_outside_insert|apply agree_outside_set_scratch].
  - vm_compute. reflexivity.
  - vm_compute. reflexivity.
Qed.


Lemma pristine_digest_plain :
  embedded_digest_plain (Demo.mock_exe (Buffer_from Demo.pristine_hash)).
Proof.
  intros idx Hidx. apply Buffer_indexOf_0_Some in Hidx.
  vm_compute in Hidx. injection Hidx as <-.
  by apply (bool_decide_unpack _); vm_compute.
Qed.

(** C2 does not hold of the code. [readEmbeddedHash] decodes the digest
    with the top bit of every byte cleared, [patchExeHash] looks for the
    decoded text. Here the integrity record holds the digest with a top bit
    set and the plain digest text sits elsewhere in the executable: the
    record is read as the old hash and matches the archive, [patch]
    succeeds and rewrites the other copy, and afterwards the archive
    hashes to the new value while the executable still yields the old
    one. *)
Theorem patch_top_bit_digest_incoherent :
  ∃ w' old new,
    Buffer_slice Demo.odd_exe 28 92 ≠ Buffer_from old
    ∧ readEmbeddedHash (exePath Demo.install) Demo.odd = (inr (HashFound old 28), Demo.odd)
    ∧ computeAsarHeaderHash (asarPath Demo.install) Demo.odd = (inr old, Demo.odd)
    ∧ patch Demo.env Demo.odd = (inr (PatchOk "1.0.0" old new), w')
    ∧ old ≠ new
    ∧ computeAsarHeaderHash (asarPath Demo.install) w' = (inr new, w')
    ∧ readEmbeddedHash (exePath Demo.install) w' = (inr (HashFound old 28), w').
Proof.
  exists (snd (patch Demo.env Demo.odd)), Demo.pristine_hash,
    "febcfc60b55ce2379beeed02dbec587ca5c748386fe84775a722df839572dbb3".
  split_and!; try (vm_compute; reflexivity); vm_compute; discriminate.
Qed.

(** * Further properties *)

(** ** Auxiliary facts about the transaction *)

Lemma attempt_ok (m : IO ()) w : ∃ w', attempt m w = (inr (), w').
Proof. unfold attempt, try_catch. destruct (m w) as [[e|[]] w']; by eexists. Qed.

Lemma createBackup_never_throws i w : ∃ r wb, createBackup i w = (inr r, wb).
Proof.
  unfold createBackup. cbn. io_run.
  destruct (_ && _); [by eauto|].
  unfold try_catch at 1.
  match goal with |- context [match ?m w with _ => _ end] =>
    destruct (m w) as [[e|r] w1] end; [|by eauto].
  io_run. destruct (attempt_ok (fs.unlinkSync (asarPath i +:+ ".bak")) w1) as [w2 ->].
  io_run. destruct (attempt_ok (fs.unlinkSync (exePath i +:+ ".bak")) w2) as [w3 ->].
  io_run. by eauto.
Qed.

(** Everything [patch] can do on a located installation, step by step:
    fail before the backup, fail at the backup, fail between the backup
    and the repack, go on to the commit phase with the injected tree, or
    throw at the first hash of the archive. *)
Lemma patch_cases env w i :
  findClaudeInstall w = (inr (inr i), w) →
  (∃ e, before_backup e ∧ patch env w = (inr (PatchFailed e), w))
  ∨ (∃ err wb, createBackup i w = (inr (BackupFailed err), wb)
               ∧ patch env w = (inr (PatchFailed (CreateBackupFailed err)), wb))
  ∨ (∃ sk wb e, createBackup i w = (inr (BackupOk sk), wb)
                ∧ before_repack e
                ∧ patch env w = (inr (PatchFailed e), set_scratch None wb))
  ∨ (∃ old off sk wb tree,
       running w = false ∧ (asarPath i ∉ locked w) ∧ (exePath i ∉ locked w)
       ∧ files w !! markerPath (getBackupPaths i) = None
       ∧ readEmbeddedHash (exePath i) w = (inr (HashFound old off), w)
       ∧ computeAsarHeaderHash (asarPath i) w = (inr old, w)
       ∧ createBackup i w = (inr (BackupOk sk), wb)
       ∧ patch env w = patch_commit env i old (set_scratch (Some tree) wb)
       ∧ ∃ archive0 tree0 content,
           files w !! asarPath i = Some archive0
           ∧ old = Sha256.hex (header_region archive0)
           ∧ extractAll env archive0 = inr tree0
           ∧ tree0 !! MAIN_VIEW_PATH = Some content
           ∧ isCodePatched content = false
           ∧ tree = <[MAIN_VIEW_PATH := injected (getRtlPayload env) content]> tree0)
  ∨ (∃ archive0,
       files w !! asarPath i = Some archive0
       ∧ header_in_range archive0 = false
       ∧ patch env w = (inl (ArgError "ERR_OUT_OF_RANGE" "length"), w)).
Proof.
  intros Hfind.
  pose proof (findClaudeInstall_found _ _ _ Hfind) as (_ & Hd & [a0 Ha0] & [x0 Hx0]).
  pose proof (paths_distinct_ne _ Hd) as (?&?&?&?&?&?&?&?&?&?).
  unfold patch. io_run. rewrite preflight_eq. io_run.
  unfold preflight_answer. rewrite (proj1 (findClaudeInstall_locate _ _) Hfind).
  destruct (running w) eqn:Hrun; [left; eexists; split; [|reflexivity]; exact I|].
  destruct (bool_decide (asarPath i ∈ locked w)) eqn:Hla; [left; eexists; split; [|reflexivity]; exact I|].
  destruct (bool_decide (exePath i ∈ locked w)) eqn:Hlx; [left; eexists; split; [|reflexivity]; exact I|].
  apply bool_decide_eq_false in Hla, Hlx.
  destruct (files w !! getMarkerPath (resourcesDir i)) eqn:Hm; [left; eexists; split; [|reflexivity]; exact I|].
  io_run. destruct (readEmbeddedHash_pure _ _ _ Hx0) as [hr Hhr]. rewrite Hhr. io_run.
  destruct hr as [old off|err]; [|left; eexists; split; [|reflexivity]; exact I].
  io_run. pose proof (computeAsarHeaderHash_Some _ _ _ Ha0) as Hhash. rewrite Hhash.
  destruct (header_in_range a0) eqn:Hrange; io_run; [|do 4 right; by exists a0].
  destruct (String.eqb_spec (Sha256.hex (header_region a0)) old) as [Heq|Hne]; cbn [negb];
    [|left; eexists; split; [|reflexivity]; exact I].
  right. io_run.
  destruct (createBackup_never_throws i w) as ([sk|err] & wb & Hb); rewrite Hb; io_run;
    [|left; by eexists _, _].
  right.
  assert (files wb !! asarPath i = Some a0) as Ha0b.
  { apply createBackup_ok_inv in Hb; [|done].
    destruct Hb as [(-> & -> & _)|(-> & a & x & _ & _ & ->)]; [done|].
    cbn in *. by rewrite !lookup_insert_ne. }
  unfold try_catch, asar_extractAll, cleanup. io_run. rewrite Ha0b. io_run.
  destruct (extractAll env a0) as [exn|tree] eqn:Hex; io_run; [left; eexists _, _, _; split; [done|split; [|reflexivity]; exact I]|].
  unfold scratch_read, scratch_write. io_run. cbn [scratch set_scratch mbind option_bind].
  destruct (tree !! MAIN_VIEW_PATH) as [content|] eqn:Hmv; io_run; [|left; eexists _, _, _; split; [done|split; [|reflexivity]; exact I]].
  destruct (isCodePatched content) eqn:Hcp; io_run; [left; eexists _, _, _; split; [done|split; [|reflexivity]; exact I]|].
  right. left. subst old. cbn [fmap option_fmap option_map].
  eexists _, off, sk, wb, _. split_and!; try done.
  by exists a0, tree, content.
Qed.

Lemma writeFileSync_agree p data w r w' :
  fs.writeFileSync p data w = (r, w') → agree_outside [p] w w'.
Proof.
  unfold fs.writeFileSync. destruct (bool_decide _); intros [= <- <-].
  - apply agree_outside_refl.
  - repeat split. intros q Hq. cbn. apply lookup_insert_ne. set_solver.
Qed.

Lemma unlinkSync_agree p w r w' :
  fs.unlinkSync p w = (r, w') → agree_outside [p] w w'.
Proof.
  unfold fs.unlinkSync. destruct (files w !! p); [|intros [= <- <-]; apply agree_outside_refl].
  destruct (bool_decide _); intros [= <- <-]; [apply agree_outside_refl|].
  repeat split. intros q Hq. cbn. apply lookup_delete_ne. set_solver.
Qed.

Lemma copyFileSync_agree src dest w r w' :
  fs.copyFileSync src dest w = (r, w') → agree_outside [dest] w w'.
Proof.
  unfold fs.copyFileSync, fs.readFileSync. io_run.
  destruct (files w !! src); [apply writeFileSync_agree|].
  intros [= <- <-]. apply agree_outside_refl.
Qed.

Lemma attempt_unlink_agree p w r w' :
  attempt (fs.unlinkSync p) w = (r, w') → agree_outside [p] w w'.
Proof.
  unfold attempt, try_catch.
  destruct (fs.unlinkSync p w) as [[e|[]] w1] eqn:Hu; intros [= <- <-];
    by apply unlinkSync_agree in Hu.
Qed.

(** After a best-effort delete, an unlocked path holds no file. *)
Lemma attempt_unlink_gone p w r w' :
  attempt (fs.unlinkSync p) w = (r, w') → p ∉ locked w → files w' !! p = None.
Proof.
  unfold attempt, try_catch, fs.unlinkSync. intros H Hl.
  destruct (files w !! p) eqn:Hp.
  - rewrite bool_decide_eq_false_2 in H by done. injection H as <- <-.
    cbn. apply lookup_delete_eq.
  - by injection H as <- <-.
Qed.

(** ** Which files a computation may touch *)

Lemma io_within_weaken {A} S T (m : IO A) :
  io_within S m → S ⊆ T → io_within T m.
Proof. intros H Hsub w r w' Hm. eapply agree_outside_weaken; [done|by eapply H]. Qed.

Lemma io_within_ret {A} S (a : A) : io_within S (mret a).
Proof. intros w r w' [= <- <-]. apply agree_outside_refl. Qed.

Lemma io_within_throw {A} S e : io_within S (throw (A:=A) e).
Proof. intros w r w' [= <- <-]. apply agree_outside_refl. Qed.

Lemma io_within_bind {A B} S (m : IO A) (k : A → IO B) :
  io_within S m → (∀ a, io_within S (k a)) → io_within S (m ≫= k).
Proof.
  intros Hm Hk w r w'. rewrite bind_eq.
  destruct (m w) as [[e|a] w1] eqn:H1; apply Hm in H1.
  - by intros [= <- <-].
  - intros H2. apply Hk in H2. by eapply agree_outside_trans.
Qed.

Lemma io_within_try_catch {A} S (m : IO A) (h : Exn → IO A) :
  io_within S m → (∀ e, io_within S (h e)) → io_within S (try_catch m h).
Proof.
  intros Hm Hh w r w'. unfold try_catch.
  destruct (m w) as [[e|a] w1] eqn:H1; apply Hm in H1.
  - intros H2. apply Hh in H2. by eapply agree_outside_trans.
  - by intros [= <- <-].
Qed.

Lemma io_within_try_finally {A} S (m : IO A) (f : IO ()) :
  io_within S m → io_within S f → io_within S (try_finally m f).
Proof.
  intros Hm Hf w r w'. unfold try_finally.
  destruct (m w) as [r1 w1] eqn:H1; apply Hm in H1.
  destruct (f w1) as [[e|[]] w2] eqn:H2; apply Hf in H2;
    intros [= <- <-]; by eapply agree_outside_trans.
Qed.

Lemma io_within_attempt S (m : IO ()) : io_within S m → io_within S (attempt m).
Proof. intros H. apply io_within_try_catch; [done|]. intros e. apply io_within_ret. Qed.

Lemma io_within_read {A} S (f : World → Exn + A) : io_within S (λ w, (f w, w)).
Proof. intros w r w' [= <- <-]. apply agree_outside_refl. Qed.

Lemma io_within_scratch {A} S (f : World → Exn + A) (g : World → option (gmap string string)) :
  io_within S (λ w, (f w, set_scratch (g w) w)).
Proof. intros w r w' [= <- <-]. apply agree_outside_set_scratch. Qed.

Lemma existsSync_within S p : io_within S (fs.existsSync p).
Proof. apply (io_within_read S (λ w, inr _)). Qed.

Lemma readFileSync_within S p : io_within S (fs.readFileSync p).
Proof.
  intros w r w'. unfold fs.readFileSync.
  destruct (files w !! p); intros [= <- <-]; apply agree_outside_refl.
Qed.

Lemma writeFileSync_within p data : io_within [p] (fs.writeFileSync p data).
Proof. intros w r w'. apply writeFileSync_agree. Qed.

Lemma unlinkSync_within p : io_within [p] (fs.unlinkSync p).
Proof. intros w r w'. apply unlinkSync_agree. Qed.

Lemma copyFileSync_within src dest : io_within [dest] (fs.copyFileSync src dest).
Proof. intros w r w'. apply copyFileSync_agree. Qed.

Lemma openSync_within S p b : io_within S (fs.openSync p b).
Proof.
  intros w r w'. unfold fs.openSync.
  destruct (files w !! p); [destruct (_ && _)|]; intros [= <- <-]; apply agree_outside_refl.
Qed.

Lemma readSync_within S fd buf o l p : io_within S (fs.readSync fd buf o l p).
Proof.
  intros w r w'. unfold fs.readSync.
  repeat case_match; intros [= <- <-]; apply agree_outside_refl.
Qed.

Create HintDb within discriminated.
#[local] Hint Resolve existsSync_within readFileSync_within openSync_within
  readSync_within writeFileSync_within unlinkSync_within copyFileSync_within : within.

Ltac sub_list :=
  repeat (apply list_subseteq_cons_iff; split;
          [repeat first [apply list_elem_of_here|apply list_elem_of_further]|]);
  apply list_subseteq_nil.

Ltac within_step :=
  first
    [ apply io_within_ret
    | apply io_within_throw
    | solve [eauto with within]
    | (eapply io_within_weaken; [solve [eauto with within]|sub_list])
    | apply io_within_bind; [|intros ?]
    | apply io_within_try_catch; [|intros ?]
    | apply io_within_try_finally
    | apply io_within_attempt
    | match goal with
      | |- io_within _ (match ?x with _ => _ end) => destruct x
      | |- io_within _ (let '(_, _) := ?x in _) => destruct x
      end ].

Ltac within := repeat within_step.

Lemma createBackup_within i :
  io_within [asarBackup (getBackupPaths i); exeBackup (getBackupPaths i)] (createBackup i).
Proof. unfold createBackup. cbn. within. Qed.

Lemma restoreBackup_within i :
  io_within [asarPath i; exePath i; asarBackup (getBackupPaths i);
             exeBackup (getBackupPaths i); markerPath (getBackupPaths i)]
            (restoreBackup i).
Proof. unfold restoreBackup. cbn. within. Qed.

Lemma writeMarker_within env i o n :
  io_within [markerPath (getBackupPaths i)] (writeMarker env i o n).
Proof. unfold writeMarker. cbn. within. Qed.

Lemma isPatchedOnDisk_within S env i : io_within S (isPatchedOnDisk env i).
Proof. unfold isPatchedOnDisk. within. Qed.

Lemma hasBackups_within S i : io_within S (hasBackups i).
Proof. unfold hasBackups. cbn. within. Qed.

Lemma canWrite_within S p : io_within S (canWrite p).
Proof. unfold canWrite, fs.closeSync. within. Qed.

Lemma isClaudeRunning_within S : io_within S isClaudeRunning.
Proof. apply (io_within_read S (λ w, inr _)). Qed.

Lemma findClaudeInstall_within S : io_within S findClaudeInstall.
Proof. apply (io_within_read S (λ w, inr _)). Qed.

Lemma readEmbeddedHash_within S p : io_within S (readEmbeddedHash p).
Proof. unfold readEmbeddedHash. within. Qed.

Lemma computeAsarHeaderHash_within S p : io_within S (computeAsarHeaderHash p).
Proof. unfold computeAsarHeaderHash, fs.closeSync. within. Qed.

Lemma patchExeHash_within p o n : io_within [p] (patchExeHash p o n).
Proof. unfold patchExeHash. within. Qed.

Lemma cleanup_within S : io_within S cleanup.
Proof. apply (io_within_scratch S (λ w, inr ()) (λ w, None)). Qed.

Lemma scratch_read_within S rel : io_within S (scratch_read rel).
Proof. apply (io_within_read S (λ w, inr _)). Qed.

Lemma scratch_write_within S rel c : io_within S (scratch_write rel c).
Proof. apply (io_within_scratch S (λ w, inr ())). Qed.

Lemma asar_extractAll_within S env p : io_within S (asar_extractAll env p).
Proof.
  intros w r w'. unfold asar_extractAll.
  destruct (files w !! p); [destruct (extractAll env _)|]; intros [= <- <-];
    (apply agree_outside_refl || apply agree_outside_set_scratch).
Qed.

Lemma asar_createPackage_within env p : io_within [p] (asar_createPackage env p).
Proof.
  intros w r w'. unfold asar_createPackage.
  destruct (scratch w); [|intros [= <- <-]; apply agree_outside_refl].
  destruct (createPackage env _) as [a|e [res|]]; intros [= <- <-];
    repeat split; intros q Hq; cbn;
    (apply lookup_insert_ne || apply lookup_delete_ne); intros ->; apply Hq, list_elem_of_here.
Qed.

#[local] Hint Resolve createBackup_within restoreBackup_within writeMarker_within
  isPatchedOnDisk_within hasBackups_within canWrite_within isClaudeRunning_within
  findClaudeInstall_within readEmbeddedHash_within computeAsarHeaderHash_within
  patchExeHash_within cleanup_within scratch_read_within scratch_write_within
  asar_extractAll_within asar_createPackage_within : within.

Lemma preflight_within S env b : io_within S (preflight env b).
Proof. unfold preflight. within. Qed.

#[local] Hint Resolve preflight_within : within.

Lemma patch_commit_within env i old :
  io_within [asarPath i; exePath i; asarBackup (getBackupPaths i);
             exeBackup (getBackupPaths i); markerPath (getBackupPaths i)]
            (patch_commit env i old).
Proof. unfold patch_commit, fs.statSync_size. cbn. within. Qed.

Lemma unpatch_within_install env i :
  io_within [asarPath i; exePath i; asarBackup (getBackupPaths i);
             exeBackup (getBackupPaths i); markerPath (getBackupPaths i)]
            (r ← isClaudeRunning;
             if r : bool then mret (UnpatchFailed UnpatchClaudeRunning)
             else
               backups ← hasBackups i;
               if negb backups then
                 patchStatus ← isPatchedOnDisk env i;
                 if negb (patched patchStatus) then mret (UnpatchFailed NothingToUnpatch)
                 else mret (UnpatchFailed NoBackupFiles)
               else
                 wa ← canWrite (asarPath i);
                 we ← canWrite (exePath i);
                 if negb wa || negb we then mret (UnpatchFailed CannotWriteFiles)
                 else
                   result ← restoreBackup i;
                   match result with
                   | RestoreOk => mret (UnpatchOk (version i))
                   | BackupsMissing => mret (UnpatchFailed RestoreBackupsMissing)
                   | RestoreFailed err => mret (UnpatchFailed (RestoreCopyFailed err))
                   end).
Proof. cbn. within. Qed.

(** ** backup.js: further properties *)

(** X1. Backing up twice is the same as backing up once: after a backup
    step that succeeded, a second call skips and changes nothing, so the
    .bak files keep the bytes of the first call. *)
Theorem createBackup_idempotent i w sk wb :
  paths_distinct i →
  createBackup i w = (inr (BackupOk sk), wb) →
  createBackup i wb = (inr (BackupOk true), wb).
Proof.
  intros Hd Hb.
  pose proof (paths_distinct_ne _ Hd) as (?&?&?&?&?&?&?&?&?&?).
  apply createBackup_ok_inv in Hb; [|done].
  destruct Hb as [(-> & -> & Ha & Hx)|(-> & a & x & Ha & Hx & ->)].
  - by apply createBackup_skip.
  - apply createBackup_skip; cbn in *.
    + rewrite lookup_insert_ne, lookup_insert_eq by done. by eexists.
    + rewrite lookup_insert_eq. by eexists.
Qed.

Lemma createBackup_idempotent_witness :
  createBackup Demo.install (snd (createBackup Demo.install Demo.pristine))
  = (inr (BackupOk true), snd (createBackup Demo.install Demo.pristine)).
Proof.
  apply (createBackup_idempotent Demo.install Demo.pristine false).
  - by apply (bool_decide_unpack _); vm_compute.
  - vm_compute. reflexivity.
Defined.

(** X2. A backup step that fails leaves the live archive, the live
    executable and every other file as they were, and removes whatever it
    can of the two backup files: afterwards a backup path that is not locked
    holds no file, even if a backup was there before the call. *)
Theorem createBackup_failure_cleans_up i w err wb :
  paths_distinct i →
  createBackup i w = (inr (BackupFailed err), wb) →
  agree_outside [asarBackup (getBackupPaths i); exeBackup (getBackupPaths i)] w wb
  ∧ (asarBackup (getBackupPaths i) ∉ locked w →
     files wb !! asarBackup (getBackupPaths i) = None)
  ∧ (exeBackup (getBackupPaths i) ∉ locked w →
     files wb !! exeBackup (getBackupPaths i) = None).
Proof.
  intros Hd Hb. split; [by eapply createBackup_within|].
  pose proof (paths_distinct_ne _ Hd) as (?&?&?&?&?&?&?&?&?&?).
  revert Hb. unfold createBackup. cbn in *. io_run.
  destruct (_ && _); [done|].
  unfold try_catch at 1.
  match goal with |- context [match ?m w with _ => _ end] =>
    destruct (m w) as [[e|r] w1] eqn:Hbody end.
  2:{ intros [= -> <-]. revert Hbody. io_run.
      repeat (case_match; io_run); intros; simplify_eq. }
  assert (agree_outside [asarPath i +:+ ".bak"; exePath i +:+ ".bak"] w w1) as Hw1.
  { revert Hbody.
    assert (io_within [asarPath i +:+ ".bak"; exePath i +:+ ".bak"]
              (fs.copyFileSync (asarPath i) (asarPath i +:+ ".bak");;
               fs.copyFileSync (exePath i) (exePath i +:+ ".bak");;
               mret (BackupOk false))) as Hin by within.
    apply Hin. }
  io_run.
  destruct (attempt (fs.unlinkSync (asarPath i +:+ ".bak")) w1) as [r2 w2] eqn:Hu2.
  destruct (attempt_ok (fs.unlinkSync (asarPath i +:+ ".bak")) w1) as [w2' Heq].
  rewrite Hu2 in Heq. injection Heq as -> <-. io_run.
  destruct (attempt (fs.unlinkSync (exePath i +:+ ".bak")) w2) as [r3 w3] eqn:Hu3.
  destruct (attempt_ok (fs.unlinkSync (exePath i +:+ ".bak")) w2) as [w3' Heq].
  rewrite Hu3 in Heq. injection Heq as -> <-. io_run.
  intros [= <- <-].
  destruct Hw1 as (Hl1 & _).
  pose proof (attempt_unlink_agree _ _ _ _ Hu2) as (Hl2 & _).
  pose proof (attempt_unlink_agree _ _ _ _ Hu3) as (_ & _ & _ & Hf3).
  split.
  - intros Hla. rewrite Hf3.
    + eapply attempt_unlink_gone; [done|]. by rewrite Hl1.
    + intros Hin. apply list_elem_of_singleton in Hin. done.
  - intros Hlx. eapply attempt_unlink_gone; [done|]. by rewrite Hl2, Hl1.
Qed.

Lemma createBackup_failure_cleans_up_witness :
  agree_outside [Demo.asar_bak; Demo.exe_bak] Cases.exe_bak_locked
    (snd (createBackup Demo.install Cases.exe_bak_locked))
  ∧ (Demo.asar_bak ∉ locked Cases.exe_bak_locked →
     files (snd (createBackup Demo.install Cases.exe_bak_locked)) !! Demo.asar_bak = None)
  ∧ (Demo.exe_bak ∉ locked Cases.exe_bak_locked →
     files (snd (createBackup Demo.install Cases.exe_bak_locked)) !! Demo.exe_bak = None).
Proof.
  apply (createBackup_failure_cleans_up Demo.install Cases.exe_bak_locked
           (FsError EBUSY Demo.exe_bak)).
  - by apply (bool_decide_unpack _); vm_compute.
  - vm_compute. reflexivity.
Defined.

(** The run of [restoreBackup] when every copy and every removal goes
    through. *)
Lemma restoreBackup_unlocked i w a x :
  paths_distinct i →
  files w !! asarBackup (getBackupPaths i) = Some a →
  files w !! exeBackup (getBackupPaths i) = Some x →
  asarPath i ∉ locked w →
  exePath i ∉ locked w →
  asarBackup (getBackupPaths i) ∉ locked w →
  exeBackup (getBackupPaths i) ∉ locked w →
  markerPath (getBackupPaths i) ∉ locked w →
  restoreBackup i w
  = (inr RestoreOk,
     set_files (λ f, delete (markerPath (getBackupPaths i))
                       (delete (exeBackup (getBackupPaths i))
                          (delete (asarBackup (getBackupPaths i))
                             (<[exePath i := x]> (<[asarPath i := a]> f))))) w).
Proof.
  intros Hd Ha Hx Hl1 Hl2 Hl3 Hl4 Hl5.
  pose proof (paths_distinct_ne _ Hd) as (?&?&?&?&?&?&?&?&?&?).
  unfold restoreBackup. cbn in *. io_run.
  rewrite !bool_decide_eq_true_2 by by eexists. cbn [negb orb].
  unfold try_catch. io_run.
  rewrite (copyFileSync_ok _ _ _ a) by done. io_run.
  rewrite (copyFileSync_ok _ _ _ x); [|by cbn; rewrite lookup_insert_ne|done]. io_run.
  unfold fs.unlinkSync at 1. cbn [files locked set_files].
  rewrite !lookup_insert_ne, Ha by done.
  rewrite bool_decide_eq_false_2 by done. io_run.
  unfold fs.unlinkSync at 1. cbn [files locked set_files].
  rewrite lookup_delete_ne, !lookup_insert_ne, Hx by done.
  rewrite bool_decide_eq_false_2 by done. io_run.
  cbn [files locked set_files].
  rewrite !lookup_delete_ne, !lookup_insert_ne by done.
  destruct (files w !! getMarkerPath (resourcesDir i)) as [m|] eqn:Hm.
  - rewrite bool_decide_eq_true_2 by by eexists. io_run.
    unfold fs.unlinkSync. cbn [files locked set_files].
    rewrite !lookup_delete_ne, !lookup_insert_ne, Hm by done.
    rewrite bool_decide_eq_false_2 by done. io_run. done.
  - rewrite bool_decide_eq_false_2 by (by intros [? ?]). io_run.
    unfold set_files. cbn. do 2 f_equal.
    symmetry. apply delete_id.
    by rewrite !lookup_delete_ne, !lookup_insert_ne by done.
Qed.

(** X3. With both backups present and none of the five paths locked,
    [restoreBackup] succeeds: the live archive and executable hold the
    backups' bytes, both backup files and the marker are gone, and no other
    file has changed. *)
Theorem restoreBackup_complete i w a x :
  paths_distinct i →
  files w !! asarBackup (getBackupPaths i) = Some a →
  files w !! exeBackup (getBackupPaths i) = Some x →
  Forall (λ p, p ∉ locked w)
         [ asarPath i; exePath i; asarBackup (getBackupPaths i);
           exeBackup (getBackupPaths i); markerPath (getBackupPaths i) ] →
  ∃ w', restoreBackup i w = (inr RestoreOk, w')
        ∧ files w' !! asarPath i = Some a
        ∧ files w' !! exePath i = Some x
        ∧ files w' !! asarBackup (getBackupPaths i) = None
        ∧ files w' !! exeBackup (getBackupPaths i) = None
        ∧ files w' !! markerPath (getBackupPaths i) = None
        ∧ agree_outside [ asarPath i; exePath i; asarBackup (getBackupPaths i);
                          exeBackup (getBackupPaths i); markerPath (getBackupPaths i) ] w w'.
Proof.
  intros Hd Ha Hx Hl.
  pose proof (paths_distinct_ne _ Hd) as (?&?&?&?&?&?&?&?&?&?).
  apply Forall_cons in Hl as [Hl1 Hl]. apply Forall_cons in Hl as [Hl2 Hl].
  apply Forall_cons in Hl as [Hl3 Hl]. apply Forall_cons in Hl as [Hl4 Hl].
  apply Forall_cons in Hl as [Hl5 _].
  eexists. split; [by apply (restoreBackup_unlocked i w a x)|]. cbn in *.
  split_and!;
    try by repeat first [ rewrite lookup_delete_eq | rewrite lookup_insert_eq
                        | rewrite lookup_delete_ne by done
                        | rewrite lookup_insert_ne by done ].
  split; [done|]. split; [done|]. split; [done|].
  intros q Hq. cbn.
  rewrite !lookup_delete_ne, !lookup_insert_ne; [done|..];
    intros Heq; subst q; apply Hq; repeat constructor.
Qed.

Lemma restoreBackup_complete_witness :
  ∃ w', restoreBackup Demo.install Cases.patched = (inr RestoreOk, w')
        ∧ files w' !! asarPath Demo.install = Some Demo.asar1000
        ∧ files w' !! exePath Demo.install
          = Some (Demo.mock_exe (Buffer_from Demo.pristine_hash))
        ∧ files w' !! Demo.asar_bak = None
        ∧ files w' !! Demo.exe_bak = None
        ∧ files w' !! Demo.marker = None
        ∧ agree_outside [ asarPath Demo.install; exePath Demo.install; Demo.asar_bak;
                          Demo.exe_bak; Demo.marker ] Cases.patched w'.
Proof.
  apply (restoreBackup_complete Demo.install Cases.patched).
  - by apply (bool_decide_unpack _); vm_compute.
  - vm_compute. reflexivity.
  - vm_compute. reflexivity.
  - by apply (bool_decide_unpack _); vm_compute.
Defined.

(** ** patcher.js: the commit phase, forwards *)

Lemma patchExeHash_no_throw p o n w buf :
  files w !! p = Some buf → p ∉ locked w →
  ∃ r w', patchExeHash p o n w = (inr r, w').
Proof.
  intros Hp Hl. unfold patchExeHash.
  destruct (String.eqb o n); [by eauto|].
  destruct (_ || _); [by eauto|].
  io_run. rewrite (readFileSync_Some _ _ _ Hp). io_run.
  destruct (Buffer_indexOf buf (Buffer_from o) 0) as [idx|]; [|by eauto].
  destruct (Buffer_indexOf buf (Buffer_from o) (idx + 64)); [by eauto|].
  io_run. rewrite writeFileSync_free by done. io_run. by eauto.
Qed.

Lemma patch_commit_outcome env i old ws a x buf :
  paths_distinct i →
  files ws !! asarBackup (getBackupPaths i) = Some a →
  files ws !! exeBackup (getBackupPaths i) = Some x →
  asarPath i ∉ locked ws →
  exePath i ∉ locked ws →
  files ws !! exePath i = Some buf →
  (∃ e w', later_step_failed e ∧ patch_commit env i old ws = (inr (PatchFailed e), w'))
  ∨ (∃ tree archive exe1,
       let n := Sha256.hex (header_region archive) in
       let w8 := set_files (<[exePath i := exe1]> ∘ <[asarPath i := archive]>) ws in
       scratch ws = Some tree
       ∧ createPackage env tree = Packed archive
       ∧ 1000 ≤ length archive
       ∧ header_in_range archive = true
       ∧ ((n = old ∧ exe1 = buf)
          ∨ (n ≠ old ∧ is_hash64 old = true ∧ is_hash64 n = true
             ∧ ∃ idx, first_at (Buffer_from old) buf idx
                      ∧ exe1 = Buffer_copy (Buffer_from n) buf idx))
       ∧ patch_commit env i old ws
         = if bool_decide (markerPath (getBackupPaths i) ∈ locked ws)
           then (inl (FsError EBUSY (markerPath (getBackupPaths i))), w8)
           else (inr (PatchOk (version i) old n),
                 set_scratch None
                   (set_files
                      (<[markerPath (getBackupPaths i) :=
                           Buffer_from (JSON_stringify env (marker_data env i old n))]>) w8)))
  ∨ (∃ tree archive,
       scratch ws = Some tree
       ∧ createPackage env tree = Packed archive
       ∧ 1000 ≤ length archive
       ∧ header_in_range archive = false
       ∧ patch_commit env i old ws
         = (inl (ArgError "ERR_OUT_OF_RANGE" "length"),
            set_files <[asarPath i := archive]> ws)).
Proof.
  intros Hd Ha Hx Hla Hlx Hbuf.
  pose proof (paths_distinct_ne _ Hd) as (?&?&?&?&?&?&?&?&?&?). cbn in *.
  unfold patch_commit. io_run. unfold try_catch. io_run.
  unfold asar_createPackage.
  destruct (scratch ws) as [tree|] eqn:Hs.
  2:{ io_run. unfold cleanup. io_run.
      destruct (restoreBackup_live i (set_scratch None ws) a x)
        as (rr & wr & Hres & _); try done.
      rewrite Hres. io_run. left. eexists _, _. split; [|reflexivity]. exact I. }
  destruct (createPackage env tree) as [archive|err [residue|]] eqn:Hpack; io_run.
  2,3: unfold cleanup; io_run.
  2:{ destruct (restoreBackup_live i (set_scratch None (set_files <[asarPath i:=residue]> ws)) a x)
        as (rr & wr & Hres & _); try done;
        [cbn; by rewrite lookup_insert_ne..|].
      rewrite Hres. io_run. left. eexists _, _. split; [|reflexivity]. exact I. }
  2:{ destruct (restoreBackup_live i (set_scratch None (set_files (delete (asarPath i)) ws)) a x)
        as (rr & wr & Hres & _); try done;
        [cbn; by rewrite lookup_delete_ne..|].
      rewrite Hres. io_run. left. eexists _, _. split; [|reflexivity]. exact I. }
  unfold fs.statSync_size. io_run.
  rewrite (readFileSync_Some _ _ archive) by (cbn; apply lookup_insert_eq). io_run.
  destruct (Nat.ltb_spec (length archive) 1000) as [Hsmall|Hsize].
  { unfold throw, cleanup. io_run.
    destruct (restoreBackup_live i (set_scratch None (set_files <[asarPath i:=archive]> ws)) a x)
      as (rr & wr & Hres & _); try done; [cbn; by rewrite lookup_insert_ne..|].
    rewrite Hres. io_run. left. eexists _, _. split; [|reflexivity]. exact I. }
  io_run. rewrite (computeAsarHeaderHash_Some _ _ archive) by (cbn; apply lookup_insert_eq).
  destruct (header_in_range archive) eqn:Hrange; io_run;
    [|right; right; by exists tree, archive].
  assert (files (set_files <[asarPath i:=archive]> ws) !! exePath i = Some buf) as Hbuf7.
  { cbn. by rewrite lookup_insert_ne. }
  destruct (patchExeHash_no_throw (exePath i) old (Sha256.hex (header_region archive))
              (set_files <[asarPath i:=archive]> ws) buf Hbuf7 Hlx) as (pr & w8 & Hpe).
  rewrite Hpe.
  apply (patchExeHash_inv _ _ _ _ _ _ buf Hbuf7) in Hpe. io_run.
  destruct pr as [| |perr].
  - destruct Hpe as (Hne & Hold & Hnew & idx & Hfirst & Hlast & ->).
    right. left.
    exists tree, archive, (Buffer_copy (Buffer_from (Sha256.hex (header_region archive))) buf idx).
    cbv zeta. split_and!; [done..|right; by eauto 10|].
    unfold writeMarker, fs.writeFileSync, cleanup. io_run. cbn [locked set_files].
    destruct (bool_decide _); [done|]. io_run. done.
  - destruct Hpe as [Hsame ->].
    right. left. exists tree, archive, buf. cbv zeta. split_and!; [done..|by left|].
    assert (set_files (<[exePath i:=buf]> ∘ <[asarPath i:=archive]>) ws
            = set_files <[asarPath i:=archive]> ws) as ->.
    { unfold set_files. cbn. f_equal. apply insert_id. by rewrite lookup_insert_ne. }
    unfold writeMarker, fs.writeFileSync, cleanup. io_run. cbn [locked set_files].
    destruct (bool_decide _); [done|]. io_run. by rewrite Hsame.
  - subst w8. io_run.
    destruct (restoreBackup_live i (set_files <[asarPath i:=archive]> ws) a x)
      as (rr & wr & Hres & _); try done; [cbn; by rewrite lookup_insert_ne..|].
    rewrite Hres. unfold cleanup. io_run. left. eexists _, _. split; [|reflexivity]. exact I.
Qed.

(** A successful backup step that did not skip found both backup paths
    writable. *)
Lemma createBackup_fresh_unlocked i w wb :
  createBackup i w = (inr (BackupOk false), wb) →
  (asarBackup (getBackupPaths i) ∉ locked w) ∧ (exeBackup (getBackupPaths i) ∉ locked w).
Proof.
  unfold createBackup. cbn. io_run.
  destruct (_ && _); [done|].
  unfold try_catch at 1. io_run.
  destruct (fs.copyFileSync (asarPath i) (asarPath i +:+ ".bak") w) as [[e1|[]] w1] eqn:H1.
  { io_run. destruct (attempt_ok (fs.unlinkSync (asarPath i +:+ ".bak")) w1) as [w2 ->].
    io_run. by destruct (attempt_ok (fs.unlinkSync (exePath i +:+ ".bak")) w2) as [w3 ->]. }
  apply copyFileSync_ok_inv in H1 as (Hl1 & c & _ & ->). io_run.
  destruct (fs.copyFileSync (exePath i) (exePath i +:+ ".bak") _) as [[e2|[]] w2] eqn:H2.
  { io_run. destruct (attempt_ok (fs.unlinkSync (asarPath i +:+ ".bak")) w2) as [w3 ->].
    io_run. by destruct (attempt_ok (fs.unlinkSync (exePath i +:+ ".bak")) w3) as [w4 ->]. }
  by apply copyFileSync_ok_inv in H2 as (Hl2 & _).
Qed.

(** The machine a run of [patch] ends in, when it reaches the commit
    phase: a reported failure, the end of the run (the marker written or
    its write refused), or a throw at the hash of the repacked archive. *)
Lemma patch_commit_reached env w i old sk wb tree :
  findClaudeInstall w = (inr (inr i), w) →
  (asarPath i ∉ locked w) → (exePath i ∉ locked w) →
  createBackup i w = (inr (BackupOk sk), wb) →
  (∃ e w', later_step_failed e
           ∧ patch_commit env i old (set_scratch (Some tree) wb) = (inr (PatchFailed e), w'))
  ∨ (∃ archive exe1 buf,
       files w !! exePath i = Some buf
       ∧ ((Sha256.hex (header_region archive) = old ∧ exe1 = buf)
          ∨ (Sha256.hex (header_region archive) ≠ old
             ∧ ∃ idx, first_at (Buffer_from old) buf idx
                      ∧ exe1 = Buffer_copy (Buffer_from (Sha256.hex (header_region archive)))
                                           buf idx))
       ∧ patch_commit env i old (set_scratch (Some tree) wb)
         = (if bool_decide (markerPath (getBackupPaths i) ∈ locked w)
            then (inl (FsError EBUSY (markerPath (getBackupPaths i))),
                  set_files (<[exePath i := exe1]> ∘ <[asarPath i := archive]>)
                            (set_scratch (Some tree) wb))
            else (inr (PatchOk (version i) old (Sha256.hex (header_region archive))),
                  set_scratch None
                    (set_files
                       (<[markerPath (getBackupPaths i) :=
                            Buffer_from (JSON_stringify env
                               (marker_data env i old (Sha256.hex (header_region archive))))]>
                        ∘ <[exePath i := exe1]> ∘ <[asarPath i := archive]>) wb)))
       ∧ createPackage env tree = Packed archive
       ∧ 1000 ≤ length archive
       ∧ header_in_range archive = true)
  ∨ (∃ archive,
       createPackage env tree = Packed archive
       ∧ 1000 ≤ length archive
       ∧ header_in_range archive = false
       ∧ patch_commit env i old (set_scratch (Some tree) wb)
         = (inl (ArgError "ERR_OUT_OF_RANGE" "length"),
            set_files <[asarPath i := archive]> (set_scratch (Some tree) wb))).
Proof.
  intros Hfind Hla Hlx Hb.
  pose proof (findClaudeInstall_found _ _ _ Hfind) as (_ & Hd & _ & [buf Hbuf]).
  destruct (createBackup_ok_state _ _ _ _ _ Hd Hbuf Hb) as (Hlb & Hxb & a & x & Ha & Hx & _).
  destruct (patch_commit_outcome env i old (set_scratch (Some tree) wb) a x buf)
    as [Hlate|[(tree' & archive & exe1 & [= <-] & Hpack & Hsize & Hrange & Hexe & Hrun)
              |(tree' & archive & [= <-] & Hpack & Hsize & Hrange & Hrun)]];
    try done; try (cbn; by rewrite Hlb).
  { by left. }
  { right. left. exists archive, exe1, buf. split; [done|]. split.
    { destruct Hexe as [?|(? & _ & _ & ?)]; [by left|by right]. }
    split; [|done].
    rewrite Hrun. cbn [locked set_scratch]. rewrite Hlb. done. }
  right. right. by exists archive.
Qed.

(** ** patcher.js: what a failed or a successful patch leaves behind *)

Lemma patch_not_installed env w err :
  locate w = inl err → patch env w = (inr (PatchFailed (NotInstalled err)), w).
Proof.
  intros H. unfold patch. io_run. rewrite preflight_eq. io_run.
  unfold preflight_answer. by rewrite H.
Qed.

(** X4. A failure of [patch] that is reported before the backup step (not
    installed, host running, file locked, already patched, hash unreadable,
    integrity mismatch) leaves the whole machine exactly as it was. *)
Theorem patch_early_failure_no_effect env w e w' :
  patch env w = (inr (PatchFailed e), w') →
  before_backup e →
  w' = w.
Proof.
  intros Hp He. destruct (locate w) as [err|i] eqn:Hloc.
  { rewrite (patch_not_installed _ _ _ Hloc) in Hp. by injection Hp as _ <-. }
  apply findClaudeInstall_locate in Hloc.
  destruct (patch_cases env w i Hloc)
    as [(e1 & _ & H1)|[(err & wb & _ & H2)|[(sk & wb & e3 & _ & He3 & H3)|[H4|H0]]]].
  - rewrite H1 in Hp. by injection Hp as _ <-.
  - rewrite H2 in Hp. injection Hp as <- <-. done.
  - rewrite H3 in Hp. injection Hp as <- <-. by destruct e3.
  - destruct H4 as (old & off & sk & wb & tree & _ & Hla & Hlx & _ & _ & _ & Hb & H4 & _).
    rewrite H4 in Hp.
    destruct (patch_commit_reached env w i old sk wb tree Hloc Hla Hlx Hb)
      as [(e5 & w5 & He5 & H5)|[(archive & exe1 & buf & _ & _ & H5 & _)
                                |(archive & _ & _ & _ & H5)]].
    + rewrite H5 in Hp. injection Hp as <- <-. by destruct e5.
    + rewrite H5 in Hp. by destruct (bool_decide _).
    + by rewrite H5 in Hp.
  - destruct H0 as (a0 & _ & _ & H0). by rewrite H0 in Hp.
Qed.

Lemma patch_early_failure_no_effect_witness :
  snd (patch Demo.env (Demo.with_running Demo.pristine)) = Demo.with_running Demo.pristine.
Proof.
  apply (patch_early_failure_no_effect Demo.env (Demo.with_running Demo.pristine)
           ClaudeRunning).
  - vm_compute. reflexivity.
  - exact I.
Defined.

(** X5. A failure of [patch] at the backup, extraction or injection step
    leaves the live archive, the live executable, the marker and every other
    file as they were: only the two backup paths may differ. After a failed
    extraction or injection the scratch directory is gone and a second
    backup step would skip. *)
Theorem patch_mid_failure_live_untouched env w i e w' :
  findClaudeInstall w = (inr (inr i), w) →
  patch env w = (inr (PatchFailed e), w') →
  (before_repack e ∨ ∃ err, e = CreateBackupFailed err) →
  agree_outside [asarBackup (getBackupPaths i); exeBackup (getBackupPaths i)] w w'
  ∧ (before_repack e →
     scratch w' = None ∧ createBackup i w' = (inr (BackupOk true), w')).
Proof.
  intros Hloc Hp He.
  pose proof (findClaudeInstall_found _ _ _ Hloc) as (_ & Hd & _ & [x0 Hx0]).
  destruct (patch_cases env w i Hloc)
    as [(e1 & He1 & H1)|[(err & wb & Hb & H2)|[(sk & wb & e3 & Hb & He3 & H3)|[H4|H0]]]].
  - rewrite H1 in Hp. injection Hp as <- <-.
    destruct e1; cbn in *; destruct He as [He|[? ?]]; done.
  - rewrite H2 in Hp. injection Hp as <- <-.
    split; [by eapply createBackup_within|]. by intros [].
  - rewrite H3 in Hp. injection Hp as <- <-. split.
    + eapply agree_outside_trans; [by eapply createBackup_within|].
      apply agree_outside_set_scratch.
    + intros _. split; [done|].
      destruct (createBackup_ok_state _ _ _ _ _ Hd Hx0 Hb) as (_ & _ & a & x & Ha & Hx & _).
      apply createBackup_skip; cbn; by eexists.
  - destruct H4 as (old & off & sk & wb & tree & _ & Hla & Hlx & _ & _ & _ & Hb & H4 & _).
    rewrite H4 in Hp.
    destruct (patch_commit_reached env w i old sk wb tree Hloc Hla Hlx Hb)
      as [(e5 & w5 & He5 & H5)|[(archive & exe1 & buf & _ & _ & H5 & _)
                                |(archive & _ & _ & _ & H5)]].
    + rewrite H5 in Hp. injection Hp as <- <-.
      destruct e5; cbn in *; destruct He as [He|[? ?]]; done.
    + rewrite H5 in Hp. by destruct (bool_decide _).
    + by rewrite H5 in Hp.
  - destruct H0 as (a0 & _ & _ & H0). by rewrite H0 in Hp.
Qed.

Lemma patch_mid_failure_live_untouched_witness :
  agree_outside [Demo.asar_bak; Demo.exe_bak] Demo.pristine
    (snd (patch Cases.env_unreadable Demo.pristine))
  ∧ (before_repack (ExtractFailed (JsError "Invalid archive")) →
     scratch (snd (patch Cases.env_unreadable Demo.pristine)) = None
     ∧ createBackup Demo.install (snd (patch Cases.env_unreadable Demo.pristine))
       = (inr (BackupOk true), snd (patch Cases.env_unreadable Demo.pristine))).
Proof.
  apply (patch_mid_failure_live_untouched Cases.env_unreadable Demo.pristine Demo.install
           (ExtractFailed (JsError "Invalid archive"))).
  - reflexivity.
  - vm_compute. reflexivity.
  - left. exact I.
Defined.

(** The machine after a successful [patch]. *)
Lemma patch_success_state env w i v o n w1 :
  findClaudeInstall w = (inr (inr i), w) →
  patch env w = (inr (PatchOk v o n), w1) →
  running w = false
  ∧ Forall (λ p, p ∉ locked w)
           [asarPath i; exePath i; markerPath (getBackupPaths i)]
  ∧ files w !! markerPath (getBackupPaths i) = None
  ∧ v = version i
  ∧ ∃ sk wb archive exe1,
      createBackup i w = (inr (BackupOk sk), wb)
      ∧ n = Sha256.hex (header_region archive)
      ∧ w1 = set_scratch None
               (set_files
                  (<[markerPath (getBackupPaths i) :=
                       Buffer_from (JSON_stringify env (marker_data env i o n))]>
                   ∘ <[exePath i := exe1]> ∘ <[asarPath i := archive]>) wb).
Proof.
  intros Hloc Hp.
  destruct (patch_cases env w i Hloc)
    as [(e1 & _ & H1)|[(err & wb & _ & H2)|[(sk & wb & e3 & _ & He3 & H3)|[H4|H0]]]].
  - by rewrite H1 in Hp.
  - by rewrite H2 in Hp.
  - by rewrite H3 in Hp.
  - destruct H4 as (old & off & sk & wb & tree & Hrun & Hla & Hlx & Hm & _ & _ & Hb & H4 & _).
    rewrite H4 in Hp.
    destruct (patch_commit_reached env w i old sk wb tree Hloc Hla Hlx Hb)
      as [(e5 & w5 & He5 & H5)|[(archive & exe1 & buf & _ & _ & H5 & _)
                                |(archive & _ & _ & _ & H5)]].
    + by rewrite H5 in Hp.
    + rewrite H5 in Hp.
      destruct (bool_decide (markerPath (getBackupPaths i) ∈ locked w)) eqn:Hlm; [done|].
      apply bool_decide_eq_false in Hlm. injection Hp as <- <- <- <-.
      split; [done|]. split; [by repeat constructor|]. split; [done|]. split; [done|].
      by exists sk, wb, archive, exe1.
    + by rewrite H5 in Hp.
  - destruct H0 as (a0 & _ & _ & H0). by rewrite H0 in Hp.
Qed.

Lemma locate_stable w w' i :
  locate w = inr i →
  scan w' = scan w →
  is_Some (files w' !! asarPath i) →
  is_Some (files w' !! exePath i) →
  locate w' = inr i.
Proof.
  unfold locate. intros H Hs. rewrite Hs. destruct (scan w) as [m|d]; [done|].
  revert H. repeat case_bool_decide; cbn; try done.
  all: intros [= <-]; cbn; intros Ha Hx; done.
Qed.

(** X6. The double-patch guard: after a successful [patch], the marker
    exists, both backups exist, the scratch directory is gone, and a second
    [patch] fails with the already-patched error without changing
    anything. *)
Theorem patch_twice_refused env w i v o n w1 :
  findClaudeInstall w = (inr (inr i), w) →
  patch env w = (inr (PatchOk v o n), w1) →
  is_Some (files w1 !! markerPath (getBackupPaths i))
  ∧ is_Some (files w1 !! asarBackup (getBackupPaths i))
  ∧ is_Some (files w1 !! exeBackup (getBackupPaths i))
  ∧ scratch w1 = None
  ∧ ∃ info, patch env w1 = (inr (PatchFailed (AlreadyPatched info)), w1).
Proof.
  intros Hloc Hp.
  pose proof (findClaudeInstall_found _ _ _ Hloc) as (_ & Hd & _ & [x0 Hx0]).
  pose proof (paths_distinct_ne _ Hd) as (?&?&?&?&?&?&?&?&?&?).
  destruct (patch_success_state _ _ _ _ _ _ _ Hloc Hp)
    as (Hrun & Hl & Hm & -> & sk & wb & archive & exe1 & Hb & -> & ->).
  apply Forall_cons in Hl as [Hla Hl]. apply Forall_cons in Hl as [Hlx Hl].
  apply Forall_cons in Hl as [Hlm _].
  destruct (createBackup_ok_state _ _ _ _ _ Hd Hx0 Hb) as (Hlb & _ & a & x & Ha & Hx & _).
  pose proof (createBackup_within i _ _ _ Hb) as (_ & Hrb & Hsb & _).
  cbn in *. rewrite !lookup_insert_eq, !lookup_insert_ne, Ha, Hx by done.
  split; [by eexists|]. split; [by eexists|]. split; [by eexists|]. split; [done|].
  eexists. unfold patch. io_run. rewrite preflight_eq. io_run.
  unfold preflight_answer.
  rewrite (locate_stable w _ i); cbn; try done.
  - rewrite Hrb, Hrun, Hlb.
    rewrite !bool_decide_eq_false_2 by done.
    by rewrite lookup_insert_eq.
  - by apply findClaudeInstall_locate.
  - rewrite lookup_insert_ne, lookup_insert_ne, lookup_insert_eq by done. by eexists.
  - rewrite lookup_insert_ne, lookup_insert_eq by done. by eexists.
Qed.

Lemma patch_twice_refused_witness :
  is_Some (files Cases.patched !! Demo.marker)
  ∧ is_Some (files Cases.patched !! Demo.asar_bak)
  ∧ is_Some (files Cases.patched !! Demo.exe_bak)
  ∧ scratch Cases.patched = None
  ∧ ∃ info, patch Demo.env Cases.patched
            = (inr (PatchFailed (AlreadyPatched info)), Cases.patched).
Proof.
  apply (patch_twice_refused Demo.env Demo.pristine Demo.install "1.0.0"
           Demo.pristine_hash
           "febcfc60b55ce2379beeed02dbec587ca5c748386fe84775a722df839572dbb3").
  - reflexivity.
  - vm_compute. reflexivity.
Defined.

(** ** patcher.js: unpatch *)

Lemma hasBackups_eq i w :
  hasBackups i w
  = (inr (bool_decide (is_Some (files w !! asarBackup (getBackupPaths i)))
          && bool_decide (is_Some (files w !! exeBackup (getBackupPaths i)))), w).
Proof. unfold hasBackups. cbn. by io_run. Qed.

Lemma unpatch_eq env w i :
  locate w = inr i →
  unpatch env w
  = if running w then (inr (UnpatchFailed UnpatchClaudeRunning), w)
    else if negb (bool_decide (is_Some (files w !! asarBackup (getBackupPaths i)))
                  && bool_decide (is_Some (files w !! exeBackup (getBackupPaths i))))
    then (inr (UnpatchFailed
                 (if bool_decide (is_Some (files w !! markerPath (getBackupPaths i)))
                  then NoBackupFiles else NothingToUnpatch)), w)
    else if bool_decide (asarPath i ∈ locked w) || bool_decide (exePath i ∈ locked w)
    then (inr (UnpatchFailed CannotWriteFiles), w)
    else match restoreBackup i w with
         | (inr RestoreOk, w') => (inr (UnpatchOk (version i)), w')
         | (inr BackupsMissing, w') => (inr (UnpatchFailed RestoreBackupsMissing), w')
         | (inr (RestoreFailed err), w') => (inr (UnpatchFailed (RestoreCopyFailed err)), w')
         | (inl e, w') => (inl e, w')
         end.
Proof.
  intros Hloc.
  pose proof (findClaudeInstall_found w w i) as Hfound.
  destruct Hfound as (_ & _ & [a Ha] & [x Hx]); [by apply findClaudeInstall_locate|].
  unfold unpatch. io_run. unfold findClaudeInstall at 1. io_run. rewrite Hloc.
  unfold isClaudeRunning. io_run. destruct (running w); [done|].
  io_run. rewrite hasBackups_eq. io_run.
  destruct (_ && _); cbn [negb].
  - io_run. rewrite canWrite_eq, Ha. io_run. rewrite canWrite_eq, Hx. io_run.
    rewrite !negb_involutive.
    destruct (_ || _); [done|]. io_run.
    destruct (restoreBackup i w) as [[e|[| |err]] w']; by io_run.
  - io_run. cbn.
    destruct (files w !! getMarkerPath (resourcesDir i)) as [m|] eqn:Hm.
    + rewrite (isPatchedOnDisk_present _ _ _ _ Hm). io_run.
      by rewrite bool_decide_eq_true_2 by by eexists.
    + rewrite (isPatchedOnDisk_absent _ _ _ Hm). io_run.
      by rewrite bool_decide_eq_false_2 by by intros [? ?].
Qed.

(** X7. [unpatch] refuses, and leaves the machine exactly as it was, when
    the host is running, when a backup file is missing, or when the archive
    or the executable is locked. With a backup missing the error tells a
    patched installation (marker present) from an unpatched one. *)
Theorem unpatch_refusal_no_effect env w i :
  findClaudeInstall w = (inr (inr i), w) →
  running w = true
  ∨ files w !! asarBackup (getBackupPaths i) = None
  ∨ files w !! exeBackup (getBackupPaths i) = None
  ∨ asarPath i ∈ locked w
  ∨ exePath i ∈ locked w →
  unpatch env w
  = (inr (UnpatchFailed
            (if running w then UnpatchClaudeRunning
             else if bool_decide (is_Some (files w !! asarBackup (getBackupPaths i))
                                  ∧ is_Some (files w !! exeBackup (getBackupPaths i)))
             then CannotWriteFiles
             else if bool_decide (is_Some (files w !! markerPath (getBackupPaths i)))
             then NoBackupFiles
             else NothingToUnpatch)), w).
Proof.
  intros Hloc Hcase. apply findClaudeInstall_locate in Hloc.
  rewrite (unpatch_eq _ _ _ Hloc).
  destruct (running w); [done|].
  destruct (bool_decide (is_Some (files w !! asarBackup _))) eqn:Ha;
    destruct (bool_decide (is_Some (files w !! exeBackup _))) eqn:Hx; cbn [andb negb].
  - apply bool_decide_eq_true in Ha, Hx.
    rewrite (bool_decide_eq_true_2 (_ ∧ _)) by (by split).
    destruct Hcase as [?|[Hn|[Hn|[Hl|Hl]]]]; try done.
    + rewrite Hn in Ha. by destruct Ha.
    + rewrite Hn in Hx. by destruct Hx.
    + by rewrite (bool_decide_eq_true_2 _ Hl).
    + rewrite (bool_decide_eq_true_2 (exePath i ∈ _) Hl). by rewrite orb_true_r.
  - apply bool_decide_eq_false in Hx.
    rewrite (bool_decide_eq_false_2 (_ ∧ _)); [done|]. by intros [_ Hs].
  - apply bool_decide_eq_false in Ha.
    rewrite (bool_decide_eq_false_2 (_ ∧ _)); [done|]. by intros [Hs _].
  - apply bool_decide_eq_false in Ha.
    rewrite (bool_decide_eq_false_2 (_ ∧ _)); [done|]. by intros [Hs _].
Qed.

(** X8. Round trip: on an installation without backup files, a successful
    [patch] followed by [unpatch] succeeds and brings every file back: the
    archive and the executable hold their pre-patch bytes, the backups and
    the marker are gone, and nothing else has changed. *)
Theorem patch_then_unpatch_round_trip env w i v o n w1 :
  findClaudeInstall w = (inr (inr i), w) →
  files w !! asarBackup (getBackupPaths i) = None →
  files w !! exeBackup (getBackupPaths i) = None →
  patch env w = (inr (PatchOk v o n), w1) →
  ∃ w2, unpatch env w1 = (inr (UnpatchOk (version i)), w2)
        ∧ files w2 = files w
        ∧ locked w2 = locked w ∧ running w2 = running w ∧ scan w2 = scan w.
Proof.
  intros Hloc Hna Hnx Hp.
  pose proof (findClaudeInstall_found _ _ _ Hloc) as (_ & Hd & [a0 Ha0] & [x0 Hx0]).
  pose proof (paths_distinct_ne _ Hd) as (?&?&?&?&?&?&?&?&?&?).
  destruct (patch_success_state _ _ _ _ _ _ _ Hloc Hp)
    as (Hrun & Hl & Hm & -> & sk & wb & archive & exe1 & Hb & -> & ->).
  apply Forall_cons in Hl as [Hla Hl]. apply Forall_cons in Hl as [Hlx Hl].
  apply Forall_cons in Hl as [Hlm _].
  apply createBackup_ok_inv in Hb as Hinv; [|done].
  destruct Hinv as [(-> & -> & [? Hsome] & _)|(-> & a & x & Ha & Hx & ->)].
  { cbn in *. congruence. }
  apply createBackup_fresh_unlocked in Hb as [Hlab Hlxb].
  assert (a = a0) as -> by congruence. assert (x = x0) as -> by congruence.
  cbn in *.
  set (w1 := set_scratch None _).
  assert (locate w1 = inr i) as Hloc1.
  { apply (locate_stable w); [by apply findClaudeInstall_locate|done|..]; subst w1; cbn.
    - rewrite lookup_insert_ne, lookup_insert_ne, lookup_insert_eq by done. by eexists.
    - rewrite lookup_insert_ne, lookup_insert_eq by done. by eexists. }
  rewrite (unpatch_eq _ _ _ Hloc1).
  assert (files w1 !! (asarPath i +:+ ".bak") = Some a0) as Hba.
  { subst w1. cbn. by rewrite !lookup_insert_ne, lookup_insert_eq by done. }
  assert (files w1 !! (exePath i +:+ ".bak") = Some x0) as Hbx.
  { subst w1. cbn. by rewrite !lookup_insert_ne, lookup_insert_eq by done. }
  cbn [asarBackup exeBackup markerPath getBackupPaths].
  change (running w1) with (running w). rewrite Hrun.
  rewrite Hba, Hbx. rewrite !bool_decide_eq_true_2 by by eexists. cbn [andb negb].
  change (locked w1) with (locked w).
  rewrite !bool_decide_eq_false_2 by done. cbn [orb].
  rewrite (restoreBackup_unlocked i w1 a0 x0); try done.
  eexists. split; [done|]. split; [|done].
  subst w1. cbn. apply map_eq. intros q.
  rewrite !lookup_delete. repeat case_decide; subst; try done.
  rewrite !lookup_insert. repeat case_decide; subst; try done.
Qed.

Lemma unpatch_refusal_no_effect_witness :
  unpatch Demo.env Demo.pristine
  = (inr (UnpatchFailed NothingToUnpatch), Demo.pristine)
  ∧ unpatch Demo.env Demo.marked = (inr (UnpatchFailed NoBackupFiles), Demo.marked).
Proof.
  split.
  - apply (unpatch_refusal_no_effect Demo.env Demo.pristine Demo.install).
    + reflexivity.
    + right. left. reflexivity.
  - apply (unpatch_refusal_no_effect Demo.env Demo.marked Demo.install).
    + reflexivity.
    + right. left. reflexivity.
Defined.

Lemma patch_then_unpatch_round_trip_witness :
  ∃ w2, unpatch Demo.env Cases.patched = (inr (UnpatchOk "1.0.0"), w2)
        ∧ files w2 = files Demo.pristine
        ∧ locked w2 = locked Demo.pristine
        ∧ running w2 = running Demo.pristine
        ∧ scan w2 = scan Demo.pristine.
Proof.
  apply (patch_then_unpatch_round_trip Demo.env Demo.pristine Demo.install "1.0.0"
           Demo.pristine_hash
           "febcfc60b55ce2379beeed02dbec587ca5c748386fe84775a722df839572dbb3").
  - reflexivity.
  - reflexivity.
  - reflexivity.
  - vm_compute. reflexivity.
Defined.

(** ** patcher.js: what the three commands may touch *)

Lemma agree_outside_nil_files w w' : agree_outside [] w w' → files w' = files w.
Proof. intros (_ & _ & _ & H). apply map_eq. intros q. apply H. apply not_elem_of_nil. Qed.

(** [patch] throws at the first hash of the archive when the length field
    of the live archive does not fit [fs.readSync]'s length argument:
    nothing has been written by then. *)
Lemma patch_step3_throws env w i archive0 old off :
  findClaudeInstall w = (inr (inr i), w) →
  running w = false → (asarPath i ∉ locked w) → (exePath i ∉ locked w) →
  files w !! markerPath (getBackupPaths i) = None →
  readEmbeddedHash (exePath i) w = (inr (HashFound old off), w) →
  files w !! asarPath i = Some archive0 →
  header_in_range archive0 = false →
  patch env w = (inl (ArgError "ERR_OUT_OF_RANGE" "length"), w).
Proof.
  intros Hfind Hrun Hla Hlx Hm Hre Ha0 Hrange.
  unfold patch. io_run. rewrite preflight_eq. io_run.
  unfold preflight_answer. rewrite (proj1 (findClaudeInstall_locate _ _) Hfind).
  rewrite Hrun, !bool_decide_eq_false_2 by done.
  cbn in Hm. rewrite Hm. io_run. rewrite Hre. io_run.
  rewrite (computeAsarHeaderHash_Some _ _ _ Ha0), Hrange. by io_run.
Qed.

Lemma patch_step3_throws_on_huge_header :
  patch Demo.env (set_files <[asarPath Demo.install := Demo.huge_asar]> Demo.pristine)
  = (inl (ArgError "ERR_OUT_OF_RANGE" "length"),
     set_files <[asarPath Demo.install := Demo.huge_asar]> Demo.pristine).
Proof.
  apply (patch_step3_throws Demo.env _ Demo.install Demo.huge_asar Demo.pristine_hash 28).
  all: try (vm_compute; reflexivity).
  all: vm_compute; intros H; by repeat (apply elem_of_cons in H as [H|H]; [done|]);
       try apply elem_of_nil in H.
Qed.

(** [patch] throws at the hash of the repacked archive when the length
    field of what the library packed does not fit [fs.readSync]'s length
    argument: the repacked archive stays, and so does the scratch
    directory. *)
Lemma patch_step8_throws env w i archive0 off sk wb tree0 content archive :
  findClaudeInstall w = (inr (inr i), w) →
  running w = false → (asarPath i ∉ locked w) → (exePath i ∉ locked w) →
  files w !! markerPath (getBackupPaths i) = None →
  files w !! asarPath i = Some archive0 →
  header_in_range archive0 = true →
  readEmbeddedHash (exePath i) w
  = (inr (HashFound (Sha256.hex (header_region archive0)) off), w) →
  createBackup i w = (inr (BackupOk sk), wb) →
  extractAll env archive0 = inr tree0 →
  tree0 !! MAIN_VIEW_PATH = Some content →
  isCodePatched content = false →
  createPackage env (<[MAIN_VIEW_PATH := injected (getRtlPayload env) content]> tree0)
  = Packed archive →
  1000 ≤ length archive →
  header_in_range archive = false →
  patch env w
  = (inl (ArgError "ERR_OUT_OF_RANGE" "length"),
     set_files <[asarPath i := archive]>
       (set_scratch
          (Some (<[MAIN_VIEW_PATH := injected (getRtlPayload env) content]> tree0)) wb)).
Proof.
  intros Hfind Hrun Hla Hlx Hm Ha0 Hr0 Hre Hb Hex Hmv Hcp Hpack Hsize Hrange.
  pose proof (findClaudeInstall_found _ _ _ Hfind) as (_ & Hd & _ & _).
  pose proof (paths_distinct_ne _ Hd) as (?&?&?&?&?&?&?&?&?&?).
  set (tree := <[MAIN_VIEW_PATH := injected (getRtlPayload env) content]> tree0) in *.
  transitivity (patch_commit env i (Sha256.hex (header_region archive0))
                  (set_scratch (Some tree) wb)); last first.
  { unfold patch_commit. io_run. unfold try_catch, asar_createPackage. io_run.
    cbn [scratch set_scratch]. rewrite Hpack. io_run.
    unfold fs.statSync_size. io_run.
    rewrite (readFileSync_Some _ _ archive) by (cbn; apply lookup_insert_eq). io_run.
    rewrite (proj2 (Nat.ltb_ge _ _) Hsize). io_run.
    rewrite (computeAsarHeaderHash_Some _ _ archive) by (cbn; apply lookup_insert_eq).
    rewrite Hrange. by io_run. }
  unfold patch. io_run. rewrite preflight_eq. io_run.
  unfold preflight_answer. rewrite (proj1 (findClaudeInstall_locate _ _) Hfind).
  rewrite Hrun, !bool_decide_eq_false_2 by done.
  cbn in Hm. rewrite Hm. io_run. rewrite Hre. io_run.
  rewrite (computeAsarHeaderHash_Some _ _ _ Ha0), Hr0. io_run.
  rewrite String.eqb_refl. cbn [negb]. io_run. rewrite Hb. io_run.
  assert (files wb !! asarPath i = Some archive0) as Ha0b.
  { apply createBackup_ok_inv in Hb; [|done].
    destruct Hb as [(-> & -> & _)|(-> & a & x & _ & _ & ->)]; [done|].
    cbn in *. by rewrite !lookup_insert_ne. }
  unfold try_catch, asar_extractAll, cleanup. io_run. rewrite Ha0b. io_run.
  rewrite Hex. io_run.
  unfold scratch_read, scratch_write. io_run. cbn [scratch set_scratch mbind option_bind].
  rewrite Hmv. io_run. rewrite Hcp. io_run. cbn [fmap option_fmap option_map].
  reflexivity.
Qed.

Lemma patch_step8_throws_on_huge_pack :
  ∃ wb tree,
    createBackup Demo.install Demo.pristine = (inr (BackupOk false), wb)
    ∧ patch Cases.env_huge_pack Demo.pristine
      = (inl (ArgError "ERR_OUT_OF_RANGE" "length"),
         set_files <[asarPath Demo.install := Demo.huge_asar]> (set_scratch (Some tree) wb)).
Proof.
  eexists _, _. split; [vm_compute; reflexivity|].
  eapply (patch_step8_throws Cases.env_huge_pack Demo.pristine Demo.install
            Demo.asar1000 28 false).
  all: try (vm_compute; reflexivity).
  1,2: vm_compute; intros H; by repeat (apply elem_of_cons in H as [H|H]; [done|]);
       try apply elem_of_nil in H.
Qed.


(** X10. [patch] never touches a file other than the archive, the
    executable, their two backups and the marker, and never changes a lock,
    the host's state or the installed versions, whatever its outcome. *)
Theorem patch_touches_five_paths env w i r w' :
  findClaudeInstall w = (inr (inr i), w) →
  patch env w = (r, w') →
  agree_outside [asarPath i; exePath i; asarBackup (getBackupPaths i);
                 exeBackup (getBackupPaths i); markerPath (getBackupPaths i)] w w'.
Proof.
  intros Hloc Hp.
  destruct (patch_cases env w i Hloc)
    as [(e1 & _ & H1)|[(err & wb & Hb & H2)|[(sk & wb & e3 & Hb & He3 & H3)|[H4|H0]]]].
  - rewrite H1 in Hp. injection Hp as _ <-. apply agree_outside_refl.
  - rewrite H2 in Hp. injection Hp as _ <-.
    eapply agree_outside_weaken; [|by eapply createBackup_within]. sub_list.
  - rewrite H3 in Hp. injection Hp as _ <-.
    eapply agree_outside_trans; [|apply agree_outside_set_scratch].
    eapply agree_outside_weaken; [|by eapply createBackup_within]. sub_list.
  - destruct H4 as (old & off & sk & wb & tree & _ & _ & _ & _ & _ & _ & Hb & H4 & _).
    rewrite H4 in Hp. apply patch_commit_within in Hp.
    eapply agree_outside_trans; [|exact Hp].
    eapply agree_outside_trans; [|apply agree_outside_set_scratch].
    eapply agree_outside_weaken; [|by eapply createBackup_within]. sub_list.
  - destruct H0 as (a0 & _ & _ & H0).
    rewrite H0 in Hp. injection Hp as _ <-. apply agree_outside_refl.
Qed.

(** X11. [unpatch] never touches a file other than the same five paths. *)
Theorem unpatch_touches_five_paths env w i r w' :
  findClaudeInstall w = (inr (inr i), w) →
  unpatch env w = (r, w') →
  agree_outside [asarPath i; exePath i; asarBackup (getBackupPaths i);
                 exeBackup (getBackupPaths i); markerPath (getBackupPaths i)] w w'.
Proof.
  intros Hloc. unfold unpatch. rewrite bind_eq, Hloc.
  apply unpatch_within_install.
Qed.

(** X12. [status] is read-only: it never throws, and it leaves every file,
    lock and the host's state as they were. Its report carries the marker's
    existence as [patched], the presence of both backups as [backupsExist]
    and the host's state as [running]. *)
Theorem status_read_only env w i :
  findClaudeInstall w = (inr (inr i), w) →
  ∃ report w',
    status env w = (inr (inr report), w')
    ∧ files w' = files w ∧ locked w' = locked w ∧ running w' = running w
    ∧ st_patched report
      = bool_decide (is_Some (files w !! markerPath (getBackupPaths i)))
    ∧ st_backupsExist report
      = bool_decide (is_Some (files w !! asarBackup (getBackupPaths i)))
        && bool_decide (is_Some (files w !! exeBackup (getBackupPaths i)))
    ∧ st_running report = running w
    ∧ st_version report = version i.
Proof.
  intros Hloc.
  assert (io_within [] (status env)) as Hin by (unfold status; within).
  destruct (status env w) as [r w'] eqn:Hs.
  pose proof (Hin _ _ _ Hs) as Hagree.
  pose proof (agree_outside_nil_files _ _ Hagree) as Hf.
  destruct Hagree as (Hl & Hr & _ & _).
  revert Hs. unfold status. rewrite bind_eq, Hloc. io_run.
  assert (∃ st, isPatchedOnDisk env i w = (inr st, w)
                ∧ patched st = bool_decide (is_Some (files w !! getMarkerPath (resourcesDir i))))
    as (st & -> & Hst).
  { destruct (files w !! getMarkerPath (resourcesDir i)) as [m|] eqn:Hm.
    - rewrite (isPatchedOnDisk_present _ _ _ _ Hm). eexists. split; [done|].
      by rewrite bool_decide_eq_true_2 by by eexists.
    - rewrite (isPatchedOnDisk_absent _ _ _ Hm). eexists. split; [done|].
      rewrite bool_decide_eq_false_2; [done|]. by intros [? ?]. }
  io_run. rewrite hasBackups_eq. io_run. unfold isClaudeRunning. io_run.
  unfold try_catch.
  match goal with |- context [match ?m w with _ => _ end] =>
    destruct (m w) as [[e|cp] w1] end; io_run; intros [= <- <-]; eauto 10.
Qed.


Lemma patch_touches_five_paths_witness :
  agree_outside [asarPath Demo.install; exePath Demo.install; Demo.asar_bak;
                 Demo.exe_bak; Demo.marker] Demo.pristine Cases.patched.
Proof.
  apply (patch_touches_five_paths Demo.env Demo.pristine Demo.install
           (fst (patch Demo.env Demo.pristine))).
  - reflexivity.
  - vm_compute. reflexivity.
Defined.

Lemma unpatch_touches_five_paths_witness :
  agree_outside [asarPath Demo.install; exePath Demo.install; Demo.asar_bak;
                 Demo.exe_bak; Demo.marker] Cases.patched
    (snd (unpatch Demo.env Cases.patched)).
Proof.
  apply (unpatch_touches_five_paths Demo.env Cases.patched Demo.install
           (fst (unpatch Demo.env Cases.patched))).
  - vm_compute. reflexivity.
  - vm_compute. reflexivity.
Defined.

Lemma status_read_only_witness :
  ∃ report w',
    status Demo.env Cases.patched = (inr (inr report), w')
    ∧ files w' = files Cases.patched ∧ locked w' = locked Cases.patched
    ∧ running w' = running Cases.patched
    ∧ st_patched report
      = bool_decide (is_Some (files Cases.patched !! markerPath (getBackupPaths Demo.install)))
    ∧ st_backupsExist report
      = bool_decide (is_Some (files Cases.patched !! asarBackup (getBackupPaths Demo.install)))
        && bool_decide (is_Some (files Cases.patched !! exeBackup (getBackupPaths Demo.install)))
    ∧ st_running report = running Cases.patched
    ∧ st_version report = version Demo.install.
Proof.
  apply (status_read_only Demo.env Cases.patched Demo.install).
  vm_compute. reflexivity.
Defined.

(** ** integrity.js: the hash functions *)

Lemma hexdigit_lower_hex n : is_lower_hex (Sha256.hexdigit (N.land n 15)) = true.
Proof.
  assert (N.to_nat (N.land n 15) < 16) as Hlt.
  { change 15%N with (N.ones 4). rewrite N.land_ones.
    pose proof (N.mod_upper_bound n (2 ^ 4)%N). change (2 ^ 4)%N with 16%N in *. lia. }
  unfold Sha256.hexdigit. revert Hlt. generalize (N.to_nat (N.land n 15)). intros k Hk.
  do 16 (destruct k as [|k]; [reflexivity|]). lia.
Qed.

Lemma hex_of_word_lower_hex w : forallb is_lower_hex (Sha256.hex_of_word w) = true.
Proof. unfold Sha256.hex_of_word. cbn [map forallb]. by rewrite !hexdigit_lower_hex. Qed.

Lemma Sha256_hex_is_hash64 m : is_hash64 (Sha256.hex m) = true.
Proof.
  unfold is_hash64, Sha256.hex. cbv zeta.
  rewrite length_string_of_list_ascii, list_ascii_of_string_of_list_ascii.
  rewrite !forallb_app, !hex_of_word_lower_hex.
  by rewrite !length_app.
Qed.

(** X13. Whenever [computeAsarHeaderHash] returns, what it returns is a
    well-formed hash, 64 lowercase hexadecimal characters, and the machine
    is as it was. *)
Theorem header_hash_well_formed p w h w' :
  computeAsarHeaderHash p w = (inr h, w') →
  is_hash64 h = true ∧ w' = w.
Proof.
  intros (-> & c & _ & _ & ->)%computeAsarHeaderHash_inr.
  split; [apply Sha256_hex_is_hash64|done].
Qed.

Lemma header_hash_well_formed_witness :
  is_hash64 Demo.pristine_hash = true ∧ Demo.pristine = Demo.pristine.
Proof.
  apply (header_hash_well_formed (asarPath Demo.install) Demo.pristine).
  vm_compute. reflexivity.
Defined.

(** X14. The header hash depends on the length field and the header bytes
    only: two archives that declare the same header length and agree on the
    header bytes hash alike, whatever their pickle size fields and file
    data hold. *)
Theorem header_hash_ignores_payload p1 w1 c1 p2 w2 c2 n :
  files w1 !! p1 = Some c1 →
  files w2 !! p2 = Some c2 →
  readUInt32LE c1 12 = N.of_nat n →
  readUInt32LE c2 12 = N.of_nat n →
  16 + n ≤ length c1 →
  16 + n ≤ length c2 →
  Buffer_slice c1 16 (16 + n) = Buffer_slice c2 16 (16 + n) →
  fst (computeAsarHeaderHash p1 w1) = fst (computeAsarHeaderHash p2 w2).
Proof.
  intros H1 H2 Hn1 Hn2 Hl1 Hl2 Hs.
  rewrite (computeAsarHeaderHash_Some _ _ _ H1), (computeAsarHeaderHash_Some _ _ _ H2).
  unfold header_in_range.
  rewrite (header_length_complete c1), (header_length_complete c2), Hn1, Hn2 by lia.
  cbn. by rewrite (header_region_complete c1 n), (header_region_complete c2 n), Hs.
Qed.

Lemma header_hash_ignores_payload_witness :
  fst (computeAsarHeaderHash "a.asar" (Demo.one_file "a.asar" Demo.asar1000))
  = fst (computeAsarHeaderHash "b.asar" (Demo.one_file "b.asar" Cases.bare_asar)).
Proof.
  apply (header_hash_ignores_payload
           "a.asar" (Demo.one_file "a.asar" Demo.asar1000) Demo.asar1000
           "b.asar" (Demo.one_file "b.asar" Cases.bare_asar) Cases.bare_asar 12).
  - reflexivity.
  - reflexivity.
  - vm_compute. reflexivity.
  - vm_compute. reflexivity.
  - vm_compute. lia.
  - vm_compute. lia.
  - vm_compute. reflexivity.
Defined.

Lemma Buffer_copy_length source target pos :
  length (Buffer_copy source target pos) = length target.
Proof.
  unfold Buffer_copy. rewrite !length_app, !length_take, length_drop. lia.
Qed.

Lemma Buffer_copy_lookup_outside source target pos k :
  pos + length source ≤ length target →
  k < pos ∨ pos + length source ≤ k →
  Buffer_copy source target pos !! k = target !! k.
Proof.
  intros Hfit Hk. unfold Buffer_copy.
  rewrite (take_ge source) by lia.
  destruct Hk as [Hk|Hk].
  - rewrite lookup_app_l by (rewrite length_take; lia). by rewrite lookup_take_lt.
  - rewrite lookup_app_r by (rewrite length_take; lia).
    rewrite lookup_app_r by (rewrite length_take; lia).
    rewrite length_take, lookup_drop. f_equal. lia.
Qed.

(** X15. A successful rewrite is in place: the executable keeps its
    length, the 64 bytes that held the old hash now hold the new one, every
    other byte of the file is unchanged, and no other file is touched. *)
Theorem patchExeHash_in_place p o n w w' buf :
  files w !! p = Some buf →
  patchExeHash p o n w = (inr ExePatched, w') →
  ∃ idx buf',
    files w' !! p = Some buf'
    ∧ length buf' = length buf
    ∧ Buffer_slice buf idx (idx + 64) = Buffer_from o
    ∧ Buffer_slice buf' idx (idx + 64) = Buffer_from n
    ∧ (∀ k, k < idx ∨ idx + 64 ≤ k → buf' !! k = buf !! k)
    ∧ agree_outside [p] w w'.
Proof.
  intros Hp Hrun. pose proof (patchExeHash_within p o n _ _ _ Hrun) as Hagree.
  apply (patchExeHash_inv _ _ _ _ _ _ buf Hp) in Hrun
    as (Hne & Ho & Hn & idx & [Hocc _] & _ & ->).
  apply is_hash64_Buffer_from in Ho as [Hlo _].
  apply is_hash64_Buffer_from in Hn as [Hln _].
  pose proof (occurs_at_length _ _ _ Hocc) as Hfit. rewrite Hlo in Hfit.
  assert (idx + 64 ≤ length buf) as Hfit' by (apply Hfit; by destruct (Buffer_from o)).
  exists idx, (Buffer_copy (Buffer_from n) buf idx). cbn. rewrite lookup_insert_eq.
  split; [done|]. split; [apply Buffer_copy_length|]. split.
  { unfold occurs_at in Hocc. unfold Buffer_slice. rewrite Hlo in Hocc.
    by replace (idx + 64 - idx) with 64 by lia. }
  split.
  { rewrite <- Hln at 1. apply Buffer_copy_slice. lia. }
  split; [|done].
  intros k Hk. apply Buffer_copy_lookup_outside; lia.
Qed.

Lemma patchExeHash_in_place_witness :
  ∃ idx buf',
    files (snd (patchExeHash (exePath Demo.install) Demo.pristine_hash Demo.hex64
                             Demo.pristine)) !! exePath Demo.install = Some buf'
    ∧ length buf' = length (Demo.mock_exe (Buffer_from Demo.pristine_hash))
    ∧ Buffer_slice (Demo.mock_exe (Buffer_from Demo.pristine_hash)) idx (idx + 64)
      = Buffer_from Demo.pristine_hash
    ∧ Buffer_slice buf' idx (idx + 64) = Buffer_from Demo.hex64
    ∧ (∀ k, k < idx ∨ idx + 64 ≤ k →
            buf' !! k = Demo.mock_exe (Buffer_from Demo.pristine_hash) !! k)
    ∧ agree_outside [exePath Demo.install] Demo.pristine
        (snd (patchExeHash (exePath Demo.install) Demo.pristine_hash Demo.hex64
                           Demo.pristine)).
Proof.
  apply (patchExeHash_in_place (exePath Demo.install) Demo.pristine_hash Demo.hex64
           Demo.pristine _ (Demo.mock_exe (Buffer_from Demo.pristine_hash))).
  - reflexivity.
  - vm_compute. reflexivity.
Defined.

(** What each refusal of [patchExeHash] means. *)
Lemma patchExeHash_failed_inv p o n w err w' buf :
  files w !! p = Some buf →
  patchExeHash p o n w = (inr (ExePatchFailed err), w') →
  match err with
  | InvalidHashFormat => o ≠ n ∧ (is_hash64 o = false ∨ is_hash64 n = false)
  | OldHashNotFound =>
    is_hash64 o = true ∧ is_hash64 n = true
    ∧ ∀ k, ¬ occurs_at (Buffer_from o) buf k
  | OldHashAmbiguous =>
    is_hash64 o = true ∧ is_hash64 n = true
    ∧ ∃ idx j, first_at (Buffer_from o) buf idx ∧ idx + 64 ≤ j
               ∧ occurs_at (Buffer_from o) buf j
  end.
Proof.
  intros Hp. unfold patchExeHash.
  destruct (String.eqb_spec o n) as [->|Hne]; [done|].
  destruct (is_hash64 o) eqn:Ho; cbn [negb orb].
  2:{ intros [= <- <-]. split; [done|]. by left. }
  destruct (is_hash64 n) eqn:Hn; cbn [negb orb].
  2:{ intros [= <- <-]. split; [done|]. by right. }
  io_run. rewrite (readFileSync_Some _ _ _ Hp). io_run.
  destruct (Buffer_indexOf buf (Buffer_from o) 0) as [idx|] eqn:Hidx.
  2:{ intros [= <- <-]. split; [done|]. split; [done|]. by apply Buffer_indexOf_0_None. }
  destruct (Buffer_indexOf buf (Buffer_from o) (idx + 64)) as [j|] eqn:Hsecond.
  - intros [= <- <-]. split; [done|]. split; [done|]. exists idx, j.
    split; [by apply Buffer_indexOf_0_Some|].
    unfold Buffer_indexOf in Hsecond. apply search_Some in Hsecond as (k & -> & Hk & _).
    apply occurs_at_drop in Hk.
    apply is_hash64_Buffer_from in Ho as [Hlo _].
    pose proof (occurs_at_length _ _ _ Hk) as Hfit. rewrite Hlo in Hfit.
    assert (Buffer_from o ≠ []) as Hnil by by destruct (Buffer_from o).
    specialize (Hfit Hnil).
    rewrite Nat.min_l in Hk |- * by lia. split; [lia|done].
  - io_run. unfold fs.writeFileSync. destruct (bool_decide _); [done|]. io_run. done.
Qed.

(** X16. [patchExeHash] writes nothing unless it reports a rewrite: with
    identical hashes the hashes are indeed equal, and a refusal names its
    cause (a malformed hash, no occurrence of the old hash, or a second
    occurrence 64 bytes or more after the first). *)
Theorem patchExeHash_refusal_no_write p o n w r w' buf :
  files w !! p = Some buf →
  patchExeHash p o n w = (inr r, w') →
  r ≠ ExePatched →
  w' = w
  ∧ match r with
    | ExePatched => False
    | ExeIdentical => o = n
    | ExePatchFailed InvalidHashFormat =>
      o ≠ n ∧ (is_hash64 o = false ∨ is_hash64 n = false)
    | ExePatchFailed OldHashNotFound => ∀ k, ¬ occurs_at (Buffer_from o) buf k
    | ExePatchFailed OldHashAmbiguous =>
      ∃ idx j, first_at (Buffer_from o) buf idx ∧ idx + 64 ≤ j
               ∧ occurs_at (Buffer_from o) buf j
    end.
Proof.
  intros Hp Hrun Hr.
  pose proof (patchExeHash_inv _ _ _ _ _ _ buf Hp Hrun) as Hinv.
  destruct r as [| |err]; [done|by destruct Hinv|].
  split; [done|].
  pose proof (patchExeHash_failed_inv _ _ _ _ _ _ buf Hp Hrun) as Hwhy.
  destruct err; [done|by destruct Hwhy as (_ & _ & ?)..].
Qed.

Lemma patchExeHash_refusal_no_write_witness :
  Demo.one_file "x.exe" (Buffer_from (Demo.a64 +:+ Demo.a64))
  = Demo.one_file "x.exe" (Buffer_from (Demo.a64 +:+ Demo.a64))
  ∧ ∃ idx j, first_at (Buffer_from Demo.a64) (Buffer_from (Demo.a64 +:+ Demo.a64)) idx
             ∧ idx + 64 ≤ j
             ∧ occurs_at (Buffer_from Demo.a64) (Buffer_from (Demo.a64 +:+ Demo.a64)) j.
Proof.
  apply (patchExeHash_refusal_no_write "x.exe" Demo.a64 Demo.b64
           (Demo.one_file "x.exe" (Buffer_from (Demo.a64 +:+ Demo.a64)))
           (ExePatchFailed OldHashAmbiguous)
           (Demo.one_file "x.exe" (Buffer_from (Demo.a64 +:+ Demo.a64)))
           (Buffer_from (Demo.a64 +:+ Demo.a64))).
  - reflexivity.
  - vm_compute. reflexivity.
  - discriminate.
Defined.

(** X17. Whenever [readEmbeddedHash] answers found, the hash is well
    formed, it is the decoded text of the 64 bytes at the reported offset,
    these bytes lie inside the file right after the first occurrence of the
    marker, and the machine is as it was. *)
Theorem readEmbeddedHash_found_sound p w buf h off w' :
  files w !! p = Some buf →
  readEmbeddedHash p w = (inr (HashFound h off), w') →
  w' = w
  ∧ is_hash64 h = true
  ∧ h = toString_ascii (Buffer_slice buf off (off + 64))
  ∧ off + 64 ≤ length buf
  ∧ ∃ idx, off = idx + 24 ∧ first_at (Buffer_from pattern) buf idx.
Proof.
  intros Hp Hrun.
  apply (readEmbeddedHash_found_inv _ _ buf) in Hrun as (-> & Hh & ip & Hfirst & -> & ->);
    [|done].
  split; [done|]. split; [done|].
  replace (ip + 24 + 64) with (ip + 88) by lia. split; [done|]. split; [|by eauto].
  apply is_hash64_toString_ascii in Hh as [Hlen _].
  unfold Buffer_slice in Hlen. rewrite length_take, length_drop in Hlen. lia.
Qed.

Lemma readEmbeddedHash_found_sound_witness :
  Demo.pristine = Demo.pristine
  ∧ is_hash64 Demo.pristine_hash = true
  ∧ Demo.pristine_hash
    = toString_ascii (Buffer_slice (Demo.mock_exe (Buffer_from Demo.pristine_hash)) 28 (28 + 64))
  ∧ 28 + 64 ≤ length (Demo.mock_exe (Buffer_from Demo.pristine_hash))
  ∧ ∃ idx, 28 = idx + 24
           ∧ first_at (Buffer_from pattern) (Demo.mock_exe (Buffer_from Demo.pristine_hash)) idx.
Proof.
  apply (readEmbeddedHash_found_sound (exePath Demo.install) Demo.pristine
           (Demo.mock_exe (Buffer_from Demo.pristine_hash)) Demo.pristine_hash 28
           Demo.pristine).
  - reflexivity.
  - vm_compute. reflexivity.
Defined.

(** ** patcher.js: how the hash rewrite step of [patch] can fail *)

Lemma patch_commit_hash_failed env i old ws perr w' buf :
  paths_distinct i →
  files ws !! exePath i = Some buf →
  patch_commit env i old ws = (inr (PatchFailed (HashPatchFailed perr)), w') →
  ∃ archive w7,
    files w7 !! exePath i = Some buf
    ∧ patchExeHash (exePath i) old (Sha256.hex (header_region archive)) w7
      = (inr (ExePatchFailed perr), w7).
Proof.
  intros Hd Hbuf.
  pose proof (paths_distinct_ne _ Hd) as (?&?&?&?&?&?&?&?&?&?). cbn in *.
  unfold patch_commit. io_run. unfold try_catch. io_run.
  unfold asar_createPackage.
  destruct (scratch ws) as [tree|] eqn:Hs.
  2:{ io_run. unfold cleanup. io_run. by destruct (restoreBackup i _) as [[?|?] ?]. }
  destruct (createPackage env tree) as [archive|err [residue|]]; io_run.
  2,3: unfold cleanup; io_run; by destruct (restoreBackup i _) as [[?|?] ?].
  unfold fs.statSync_size. io_run.
  rewrite (readFileSync_Some _ _ archive) by (cbn; apply lookup_insert_eq). io_run.
  destruct (length archive <? 1000).
  { unfold throw, cleanup. io_run. by destruct (restoreBackup i _) as [[?|?] ?]. }
  io_run. rewrite (computeAsarHeaderHash_Some _ _ archive) by (cbn; apply lookup_insert_eq).
  destruct (header_in_range archive); io_run; [|done].
  assert (files (set_files <[asarPath i:=archive]> ws) !! exePath i = Some buf) as Hbuf7.
  { cbn. by rewrite lookup_insert_ne. }
  destruct (patchExeHash _ _ _ _) as [[exn|pr] w8] eqn:Hpe; [done|].
  pose proof (patchExeHash_inv _ _ _ _ _ _ buf Hbuf7 Hpe) as Hinv. io_run.
  destruct pr as [| |perr'].
  - unfold writeMarker, fs.writeFileSync, cleanup. io_run.
    by destruct (bool_decide _).
  - unfold writeMarker, fs.writeFileSync, cleanup. io_run.
    by destruct (bool_decide _).
  - subst w8. io_run. destruct (restoreBackup i _) as [[?|?] ?]; [done|].
    unfold cleanup. io_run. intros [= -> _]. by eauto.
Qed.

Lemma patch_hash_failure_inv env w i err w' :
  findClaudeInstall w = (inr (inr i), w) →
  patch env w = (inr (PatchFailed (HashPatchFailed err)), w') →
  ∃ old off buf archive w7,
    readEmbeddedHash (exePath i) w = (inr (HashFound old off), w)
    ∧ files w !! exePath i = Some buf
    ∧ files w7 !! exePath i = Some buf
    ∧ patchExeHash (exePath i) old (Sha256.hex (header_region archive)) w7
      = (inr (ExePatchFailed err), w7).
Proof.
  intros Hfind Hp.
  pose proof (findClaudeInstall_found _ _ _ Hfind) as (_ & Hd & _ & [buf Hbuf]).
  destruct (patch_cases env w i Hfind)
    as [(e & He & Heq)|[(e & wb & _ & Heq)|[(sk & wb & e & _ & He & Heq)
       |[(old & off & sk & wb & tree & _ & _ & _ & _ & Hread & _ & Hb & Heq & _)
        |(a0 & _ & _ & Heq)]]]];
    rewrite Heq in Hp.
  1-3,5: try done; injection Hp as -> _; done.
  destruct (createBackup_ok_state _ _ _ _ _ Hd Hbuf Hb) as (_ & Hxb & _).
  apply (patch_commit_hash_failed _ _ _ _ _ _ buf Hd) in Hp as (archive & w7 & Hbuf7 & Hpe);
    [|done].
  by exists old, off, buf, archive, w7.
Qed.

(** X18. The hash rewrite step of [patch] never fails on the format of a
    hash: the old hash was validated when it was read from the executable,
    and the new one is a SHA-256 digest in hexadecimal. *)
Theorem patch_never_invalid_hash_format env w i err w' :
  findClaudeInstall w = (inr (inr i), w) →
  patch env w = (inr (PatchFailed (HashPatchFailed err)), w') →
  err ≠ InvalidHashFormat.
Proof.
  intros Hfind Hp.
  destruct (patch_hash_failure_inv _ _ _ _ _ Hfind Hp)
    as (old & off & buf & archive & w7 & Hread & Hbuf & Hbuf7 & Hpe).
  pose proof (patchExeHash_failed_inv _ _ _ _ _ _ buf Hbuf7 Hpe) as Hwhy.
  pose proof (readEmbeddedHash_found_inv _ _ _ _ _ _ Hbuf Hread) as (_ & Hold & _).
  intros ->. destruct Hwhy as [_ [Hbad|Hbad]]; [congruence|].
  by rewrite Sha256_hex_is_hash64 in Hbad.
Qed.

(** X19. When the embedded digest is plain text, the hash rewrite step of
    [patch] can fail for one reason only: the executable holds a second copy
    of the old hash, 64 bytes or more after the first. *)
Theorem patch_hash_failure_is_ambiguity env w i exe err w' :
  findClaudeInstall w = (inr (inr i), w) →
  files w !! exePath i = Some exe →
  embedded_digest_plain exe →
  patch env w = (inr (PatchFailed (HashPatchFailed err)), w') →
  err = OldHashAmbiguous
  ∧ ∃ old off k j,
      readEmbeddedHash (exePath i) w = (inr (HashFound old off), w)
      ∧ first_at (Buffer_from old) exe k
      ∧ k + 64 ≤ j ∧ occurs_at (Buffer_from old) exe j.
Proof.
  intros Hfind Hexe Hplain Hp.
  destruct (patch_hash_failure_inv _ _ _ _ _ Hfind Hp)
    as (old & off & buf & archive & w7 & Hread & Hbuf & Hbuf7 & Hpe).
  assert (exe = buf) as -> by congruence.
  pose proof (patchExeHash_failed_inv _ _ _ _ _ _ buf Hbuf7 Hpe) as Hwhy.
  pose proof (readEmbeddedHash_found_inv _ _ _ _ _ _ Hbuf Hread)
    as (_ & Hold & ip & Hfirst & -> & Hdec).
  assert (Buffer_slice buf (ip + 24) (ip + 88) = Buffer_from old) as Hlit.
  { rewrite Hdec. symmetry. by apply Buffer_from_toString_ascii, Hplain. }
  assert (occurs_at (Buffer_from old) buf (ip + 24)) as Hocc.
  { apply is_hash64_Buffer_from in Hold as [Hlen _].
    unfold occurs_at, Buffer_slice in *. rewrite Hlen.
    by replace (ip + 88 - (ip + 24)) with 64 in Hlit by lia. }
  destruct err.
  - destruct Hwhy as [_ [Hbad|Hbad]]; [congruence|].
    by rewrite Sha256_hex_is_hash64 in Hbad.
  - destruct Hwhy as (_ & _ & Hnone). by destruct (Hnone _ Hocc).
  - destruct Hwhy as (_ & _ & idx & j & Hidx & Hj & Hoccj).
    split; [done|]. by exists old, (ip + 24), idx, j.
Qed.

Lemma patch_never_invalid_hash_format_witness : OldHashAmbiguous ≠ InvalidHashFormat.
Proof.
  apply (patch_never_invalid_hash_format Demo.env Cases.two_copies Demo.install
           OldHashAmbiguous (snd (patch Demo.env Cases.two_copies))).
  - reflexivity.
  - vm_compute. reflexivity.
Defined.

Lemma two_copies_digest_plain : embedded_digest_plain Cases.exe_two_copies.
Proof.
  intros idx Hidx. apply Buffer_indexOf_0_Some in Hidx.
  vm_compute in Hidx. injection Hidx as <-.
  by apply (bool_decide_unpack _); vm_compute.
Qed.

Lemma patch_hash_failure_is_ambiguity_witness :
  OldHashAmbiguous = OldHashAmbiguous
  ∧ ∃ old off k j,
      readEmbeddedHash (exePath Demo.install) Cases.two_copies
      = (inr (HashFound old off), Cases.two_copies)
      ∧ first_at (Buffer_from old) Cases.exe_two_copies k
      ∧ k + 64 ≤ j ∧ occurs_at (Buffer_from old) Cases.exe_two_copies j.
Proof.
  apply (patch_hash_failure_is_ambiguity Demo.env Cases.two_copies Demo.install
           Cases.exe_two_copies OldHashAmbiguous (snd (patch Demo.env Cases.two_copies))).
  - reflexivity.
  - reflexivity.
  - exact two_copies_digest_plain.
  - vm_compute. reflexivity.
Defined.

(** * The directory scan *)

#[local] Arguments is_digit : simpl never.

Lemma append_cons c d r : String c d +:+ r = String c (d +:+ r).
Proof. reflexivity. Qed.

Lemma append_nil r : EmptyString +:+ r = r.
Proof. reflexivity. Qed.

Lemma append_nil_r s : s +:+ EmptyString = s.
Proof. induction s as [|c s IH]; [done|]. by rewrite append_cons, IH. Qed.

Lemma literal_Some c s r : literal c s = Some r ↔ s = String c r.
Proof.
  destruct s as [|d s]; cbn; [done|].
  destruct (Ascii.eqb_spec c d) as [->|Hne]; split; intros H; try congruence.
Qed.

Lemma skip_digits_spec s :
  ∃ d, s = d +:+ skip_digits s
       ∧ forallb is_digit (list_ascii_of_string d) = true
       ∧ no_digit_head (skip_digits s).
Proof.
  induction s as [|c s (d & Hs & Hd & Hr)]; cbn.
  - by exists EmptyString.
  - destruct (is_digit c) eqn:Hc.
    + exists (String c d). cbn. rewrite Hc, Hd, append_cons. split; [by f_equal|done].
    + exists EmptyString. cbn. by rewrite Hc.
Qed.

Lemma skip_digits_app d r :
  forallb is_digit (list_ascii_of_string d) = true →
  no_digit_head r →
  skip_digits (d +:+ r) = r.
Proof.
  intros Hd Hr. induction d as [|c d IH].
  - rewrite append_nil. destruct r as [|c r]; [done|]. cbn in *. by rewrite Hr.
  - rewrite append_cons. cbn in *. apply andb_true_iff in Hd as [-> Hd]. by apply IH.
Qed.

Lemma digits1_Some s r :
  digits1 s = Some r ↔ ∃ d, digit_string d ∧ s = d +:+ r ∧ no_digit_head r.
Proof.
  split.
  - destruct s as [|c s]; cbn; [done|].
    destruct (is_digit c) eqn:Hc; [|done]. intros [= <-].
    destruct (skip_digits_spec s) as (d & Hs & Hd & Hr).
    exists (String c d). split; [|split; [rewrite append_cons; by f_equal|done]].
    split; [done|]. cbn. by rewrite Hc.
  - intros (d & [Hne Hd] & -> & Hr).
    destruct d as [|c d]; [done|]. rewrite append_cons. cbn in *.
    apply andb_true_iff in Hd as [-> Hd]. f_equal. by apply skip_digits_app.
Qed.

Lemma test_app_dir_spec s :
  test_app_dir s = true
  ↔ ∃ a b c, digit_string a ∧ digit_string b ∧ digit_string c
             ∧ s = "app-" +:+ a +:+ "." +:+ b +:+ "." +:+ c.
Proof.
  unfold test_app_dir. cbv zeta. split.
  - intros H.
    destruct (literal "a" s) as [s1|] eqn:H1; cbn in H; [|done].
    destruct (literal "p" s1) as [s2|] eqn:H2; cbn in H; [|done].
    destruct (literal "p" s2) as [s3|] eqn:H3; cbn in H; [|done].
    destruct (literal "-" s3) as [s4|] eqn:H4; cbn in H; [|done].
    destruct (digits1 s4) as [s5|] eqn:H5; cbn in H; [|done].
    destruct (literal "." s5) as [s6|] eqn:H6; cbn in H; [|done].
    destruct (digits1 s6) as [s7|] eqn:H7; cbn in H; [|done].
    destruct (literal "." s7) as [s8|] eqn:H8; cbn in H; [|done].
    destruct (digits1 s8) as [[|? ?]|] eqn:H9; [|done..].
    apply literal_Some in H1, H2, H3, H4, H6, H8. subst.
    apply digits1_Some in H5 as (a & Ha & -> & _).
    apply digits1_Some in H7 as (b & Hb & -> & _).
    apply digits1_Some in H9 as (c & Hc & -> & _).
    exists a, b, c. split_and!; try done.
    by rewrite append_nil_r.
  - intros (a & b & c & Ha & Hb & Hc & ->).
    rewrite !append_cons, append_nil. cbn.
    rewrite (proj2 (digits1_Some _ ("." +:+ b +:+ "." +:+ c))) by (by exists a).
    cbn. rewrite !append_cons, append_nil. cbn.
    rewrite (proj2 (digits1_Some _ ("." +:+ c))) by (by exists b).
    cbn. rewrite !append_cons, append_nil. cbn.
    rewrite (proj2 (digits1_Some c EmptyString)); [done|].
    exists c. by rewrite append_nil_r.
Qed.

Lemma substring_0_length s : String.substring 0 (String.length s) s = s.
Proof. induction s as [|c s IH]; [done|]. cbn. by rewrite IH. Qed.

Lemma replace_app_prefix r : Js.replace ("app-" +:+ r) "app-" "" = r.
Proof.
  rewrite !append_cons, append_nil. unfold Js.replace. cbn.
  assert (String.prefix "" r = true) as -> by by destruct r.
  cbn. rewrite Nat.sub_0_r. apply substring_0_length.
Qed.

Lemma is_digit_not_dot c : is_digit c = true → Ascii.eqb c "." = false.
Proof.
  destruct (Ascii.eqb_spec c ".") as [->|]; [|done]. by vm_compute.
Qed.

Lemma split_on_digits d :
  forallb is_digit (list_ascii_of_string d) = true → split_on "." d = [d].
Proof.
  induction d as [|c d IH]; [done|]. cbn. intros [Hc Hd]%andb_true_iff.
  by rewrite (is_digit_not_dot _ Hc), (IH Hd).
Qed.

Lemma split_on_digits_dot d r :
  forallb is_digit (list_ascii_of_string d) = true →
  split_on "." (d +:+ "." +:+ r) = d :: split_on "." r.
Proof.
  induction d as [|c d IH].
  - intros _. by rewrite append_nil, append_cons, append_nil.
  - cbn. intros [Hc Hd]%andb_true_iff. rewrite append_cons. cbn.
    by rewrite (is_digit_not_dot _ Hc), (IH Hd).
Qed.

Lemma round53_numeric v : numeric (round53 v).
Proof. unfold round53. by repeat case_match. Qed.

Lemma Number_digits d :
  forallb is_digit (list_ascii_of_string d) = true →
  Number d = round53 (digits_value 0 d).
Proof. unfold Number. by intros ->. Qed.

Lemma version_of_app_dir a b c :
  digit_string a → digit_string b → digit_string c →
  version_of ("app-" +:+ a +:+ "." +:+ b +:+ "." +:+ c)
  = [round53 (digits_value 0 a); round53 (digits_value 0 b); round53 (digits_value 0 c)].
Proof.
  intros [_ Ha] [_ Hb] [_ Hc]. unfold version_of.
  rewrite replace_app_prefix, split_on_digits_dot, split_on_digits_dot, split_on_digits by done.
  cbn. by rewrite !Number_digits.
Qed.

(** *** The order of the sort *)

Lemma num_le_refl x : numeric x → num_le x x.
Proof. destruct x; cbn; [lia|done..]. Qed.

Lemma num_le_trans x y z : num_le x y → num_le y z → num_le x z.
Proof. destruct x, y, z; cbn; try done; lia. Qed.

Lemma num_le_antisym x y : num_le x y → num_le y x → x = y.
Proof. destruct x, y; cbn; try done. intros. f_equal. lia. Qed.

Lemma num_le_total x y : numeric x → numeric y → num_le x y ∨ num_le y x.
Proof. destruct x, y; cbn; try done; try (by left); try (by right). lia. Qed.

Lemma strict_ne_false x y :
  numeric x → numeric y → strict_ne (Some x) (Some y) = false ↔ x = y.
Proof.
  destruct x as [a| |], y as [b| |]; cbn; try done.
  intros _ _. rewrite negb_false_iff, N.eqb_eq. split; [by intros ->|by intros [= ->]].
Qed.

Lemma minus_sign_cases x y :
  numeric x → numeric y → x ≠ y →
  (minus_sign (Some y) (Some x) = Positive ∧ num_le x y ∧ ¬ num_le y x)
  ∨ (minus_sign (Some y) (Some x) = Negative ∧ num_le y x ∧ ¬ num_le x y).
Proof.
  destruct x as [a| |], y as [b| |]; cbn; try done; intros _ _ Hne.
  - destruct (N.compare_spec b a) as [->|Hlt|Hgt]; [done|right|left]; split_and!; try done; lia.
  - left. naive_solver.
  - right. naive_solver.
Qed.

Lemma version_le_refl u :
  (∃ a b c, u = [a; b; c] ∧ numeric a ∧ numeric b ∧ numeric c) → version_le u u.
Proof.
  intros (a & b & c & -> & Ha & Hb & Hc). cbn.
  split; [by apply num_le_refl|]. intros _. split; [by apply num_le_refl|].
  intros _. by apply num_le_refl.
Qed.

Lemma version_le_trans u v w : version_le u v → version_le v w → version_le u w.
Proof.
  destruct u as [|a1 [|a2 [|a3 [|]]]]; try done.
  destruct v as [|b1 [|b2 [|b3 [|]]]]; try done.
  destruct w as [|c1 [|c2 [|c3 [|]]]]; try done. cbn.
  intros (H1 & H23) (K1 & K23).
  split; [by eapply num_le_trans|]. intros ->.
  assert (b1 = c1) as -> by by apply num_le_antisym.
  destruct (H23 eq_refl) as [H2 H3]. destruct (K23 eq_refl) as [K2 K3].
  split; [by eapply num_le_trans|]. intros ->.
  assert (b2 = c2) as -> by by apply num_le_antisym.
  eapply num_le_trans; [by apply H3|by apply K3].
Qed.

Lemma compare_versions u v :
  three_numbers u → three_numbers v →
  (compare_from 0 3 u v = Positive ∧ version_le u v ∧ ¬ version_le v u)
  ∨ (compare_from 0 3 u v ≠ Positive ∧ version_le v u).
Proof.
  intros (a1 & a2 & a3 & -> & Ha1 & Ha2 & Ha3) (b1 & b2 & b3 & -> & Hb1 & Hb2 & Hb3).
  cbn [compare_from lookup list_lookup].
  destruct (strict_ne (Some a1) (Some b1)) eqn:E1.
  { assert (a1 ≠ b1) as Hne by (intros ->; by rewrite (proj2 (strict_ne_false b1 b1 Hb1 Hb1)) in E1).
    destruct (minus_sign_cases a1 b1 Ha1 Hb1 Hne) as [(-> & Hle & Hnle)|(-> & Hle & Hnle)].
    - left. split; [done|]. split; [by split|by intros [? _]].
    - right. split; [done|]. split; [done|]. by intros ->. }
  apply strict_ne_false in E1 as ->; [|done..].
  destruct (strict_ne (Some a2) (Some b2)) eqn:E2.
  { assert (a2 ≠ b2) as Hne by (intros ->; by rewrite (proj2 (strict_ne_false b2 b2 Hb2 Hb2)) in E2).
    destruct (minus_sign_cases a2 b2 Ha2 Hb2 Hne) as [(-> & Hle & Hnle)|(-> & Hle & Hnle)].
    - left. split; [done|]. split.
      + split; [by apply num_le_refl|]. intros _. by split.
      + intros [_ H]. by destruct (H eq_refl).
    - right. split; [done|]. split; [by apply num_le_refl|]. intros _. split; [done|].
      by intros ->. }
  apply strict_ne_false in E2 as ->; [|done..].
  destruct (strict_ne (Some a3) (Some b3)) eqn:E3.
  { assert (a3 ≠ b3) as Hne by (intros ->; by rewrite (proj2 (strict_ne_false b3 b3 Hb3 Hb3)) in E3).
    destruct (minus_sign_cases a3 b3 Ha3 Hb3 Hne) as [(-> & Hle & Hnle)|(-> & Hle & Hnle)].
    - left. split; [done|]. split.
      + split; [by apply num_le_refl|]. intros _. split; [by apply num_le_refl|]. done.
      + intros [_ H]. destruct (H eq_refl) as [_ H']. by apply Hnle, H'.
    - right. split; [done|]. split; [by apply num_le_refl|]. intros _.
      split; [by apply num_le_refl|]. done. }
  apply strict_ne_false in E3 as ->; [|done..].
  right. split; [done|]. apply version_le_refl. by exists b1, b2, b3.
Qed.

(** *** The sort *)

Lemma sort_insert_perm {A} (cmp : A → A → Sign) x l : sort_insert cmp x l ≡ₚ x :: l.
Proof.
  induction l as [|y l IH]; cbn; [done|].
  destruct (cmp x y); try done. by rewrite IH, Permutation_swap.
Qed.

Lemma Array_sort_perm {A} (cmp : A → A → Sign) l : Array_sort cmp l ≡ₚ l.
Proof.
  induction l as [|x l IH]; cbn; [done|]. by rewrite sort_insert_perm, IH.
Qed.

Lemma Array_sort_cons {A} (cmp : A → A → Sign) x l :
  Array_sort cmp (x :: l) = sort_insert cmp x (Array_sort cmp l).
Proof. reflexivity. Qed.

Lemma sort_insert_cons {A} (cmp : A → A → Sign) x y l :
  sort_insert cmp x (y :: l)
  = match cmp x y with
    | Positive => y :: sort_insert cmp x l
    | _ => x :: y :: l
    end.
Proof. reflexivity. Qed.


(** The head of the sorted array is the first of the newest elements:
    what precedes it in the input is strictly older, what follows is the
    same version or older. *)
Lemma Array_sort_head {A} (key : A → list Num) l h t :
  Forall (λ x, three_numbers (key x)) l →
  Array_sort (by_key key) l = h :: t →
  ∃ l1 l2, l = l1 ++ h :: l2
           ∧ Forall (λ y, version_le (key y) (key h) ∧ ¬ version_le (key h) (key y)) l1
           ∧ Forall (λ y, version_le (key y) (key h)) l2.
Proof.
  revert h t. induction l as [|x l IH]; intros h t Hgood; [done|].
  apply Forall_cons in Hgood as [Hx Hgood]. rewrite Array_sort_cons.
  destruct (Array_sort (by_key key) l) as [|h' t'] eqn:Hs.
  { assert (l = []) as ->.
    { apply Permutation_nil_r. by rewrite <- Hs, Array_sort_perm. }
    intros [= <- <-]. by exists [], []. }
  destruct (IH h' t' Hgood eq_refl) as (l1 & l2 & -> & Hl1 & Hl2).
  assert (three_numbers (key h')) as Hh'.
  { apply Forall_app in Hgood as [_ Hg]. by apply Forall_cons in Hg as [? _]. }
  rewrite sort_insert_cons.
  destruct (compare_versions (key x) (key h') Hx Hh') as [(Hc & Hle & Hnle)|(Hc & Hle)];
    fold (by_key key x h') in Hc.
  - rewrite Hc. intros [= <- <-].
    exists (x :: l1), l2. split; [done|]. split; [|done]. by constructor.
  - intros Heq.
    assert (h = x) as ->. { destruct ((by_key key) x h'); by injection Heq. }
    exists [], (l1 ++ h' :: l2). split; [done|]. split; [done|].
    apply Forall_app. split; [|constructor; [done|]].
    + apply (Forall_impl _ _ _ Hl1). intros y [Hy _]. by eapply version_le_trans.
    + apply (Forall_impl _ _ _ Hl2). intros y Hy. by eapply version_le_trans.
Qed.

(** The sorted array runs from newest to oldest. *)
Lemma sort_insert_sorted {A} (key : A → list Num) x l :
  three_numbers (key x) →
  Forall (λ y, three_numbers (key y)) l →
  StronglySorted (λ a b, version_le (key b) (key a)) l →
  StronglySorted (λ a b, version_le (key b) (key a)) (sort_insert (by_key key) x l).
Proof.
  intros Hx. induction l as [|y l IH]; intros Hgood Hsorted.
  { by repeat constructor. }
  rewrite sort_insert_cons.
  apply Forall_cons in Hgood as [Hy Hgood].
  apply StronglySorted_inv in Hsorted as [Hsorted Hall].
  destruct (compare_versions (key x) (key y) Hx Hy) as [(Hc & Hle & Hnle)|(Hc & Hle)];
    fold (by_key key x y) in Hc.
  - rewrite Hc. constructor; [by apply IH|].
    rewrite sort_insert_perm. by constructor.
  - assert (StronglySorted (λ a b, version_le (key b) (key a)) (x :: y :: l)) as Hgoal.
    { constructor; [by constructor|]. constructor; [done|].
      apply (Forall_impl _ _ _ Hall). intros z Hz. by eapply version_le_trans. }
    by destruct ((by_key key) x y).
Qed.

Lemma Array_sort_sorted {A} (key : A → list Num) l :
  Forall (λ y, three_numbers (key y)) l →
  StronglySorted (λ a b, version_le (key b) (key a)) (Array_sort (by_key key) l).
Proof.
  induction l as [|x l IH]; intros Hgood; [constructor|].
  apply Forall_cons in Hgood as [Hx Hgood]. rewrite Array_sort_cons.
  apply sort_insert_sorted; [done| |by apply IH].
  by rewrite Array_sort_perm.
Qed.

Lemma filter_split {A} (p : A → bool) l l1 x l2 :
  List.filter p l = l1 ++ x :: l2 →
  ∃ b a, l = b ++ x :: a ∧ List.filter p b = l1 ∧ List.filter p a = l2 ∧ p x = true.
Proof.
  revert l1. induction l as [|y l IH]; intros l1; cbn.
  { by destruct l1. }
  destruct (p y) eqn:Hy.
  - destruct l1 as [|z l1]; cbn.
    + intros [= -> Hl]. exists [], l. cbn. by rewrite Hl.
    + intros [= -> Hl]. destruct (IH _ Hl) as (b & a & -> & Hb & Ha & Hx).
      exists (z :: b), a. cbn. rewrite Hy, Hb. done.
  - intros Hl. destruct (IH _ Hl) as (b & a & -> & Hb & Ha & Hx).
    exists (y :: b), a. cbn. rewrite Hy. done.
Qed.

Lemma filter_elem {A} (p : A → bool) l x :
  x ∈ l → p x = true → x ∈ List.filter p l.
Proof.
  intros Hx Hp. apply list_elem_of_In, filter_In. split; [by apply list_elem_of_In|done].
Qed.

Lemma isAppDir_version e :
  isAppDir e = true → three_numbers (version_of (ent_name e)).
Proof.
  intros [_ Ht]%andb_true_iff.
  apply test_app_dir_spec in Ht as (a & b & c & Ha & Hb & Hc & ->).
  rewrite version_of_app_dir by done.
  eexists _, _, _. split; [done|]. split_and!; apply round53_numeric.
Qed.

Lemma scanDir_sorted base entries :
  scanDir base (Some entries)
  = match Array_sort byVersionDesc (map (toVersionDir base) (List.filter isAppDir entries)) with
    | [] =>
      inl ("No Claude Desktop versions found." +:+ newline
           +:+ "  Looked in: " +:+ base +:+ newline
           +:+ "  Expected directories like app-1.1.2321")
    | latest :: _ =>
      inr {| dir_name := vd_name latest;
             dir_fullPath := vd_fullPath latest;
             dir_allVersions :=
               map (λ d, Js.replace (vd_name d) "app-" "")
                   (Array_sort byVersionDesc
                      (map (toVersionDir base) (List.filter isAppDir entries))) |}
    end.
Proof. reflexivity. Qed.

Lemma appDirs_good base entries :
  Forall (λ x, three_numbers (vd_version x))
         (map (toVersionDir base) (List.filter isAppDir entries)).
Proof.
  apply Forall_forall. intros x [e [<- He]]%list_elem_of_In%in_map_iff.
  apply filter_In in He as [_ He]. by apply isAppDir_version.
Qed.

Lemma StronglySorted_map {A B} (R : A → A → Prop) (R' : B → B → Prop) (f : A → B) l :
  (∀ x y, x ∈ l → y ∈ l → R x y → R' (f x) (f y)) →
  StronglySorted R l → StronglySorted R' (map f l).
Proof.
  intros HR Hs. induction Hs as [|x l Hs IH Hall]; cbn; constructor.
  - apply IH. intros y z Hy Hz. apply HR; by right.
  - apply Forall_forall. intros b [y [<- Hy]]%list_elem_of_In%in_map_iff.
    apply list_elem_of_In in Hy. rewrite Forall_forall in Hall.
    apply HR; [by left|by right|by apply Hall].
Qed.

(** X20. The filter lets through exactly the names [app-a.b.c] with [a],
    [b], [c] non-empty strings of decimal digits, and the version numbers
    read from such a name are the three values, each rounded to the nearest
    double (exact below 2^53). *)
Theorem app_dir_names s :
  test_app_dir s = true
  ↔ ∃ a b c, digit_string a ∧ digit_string b ∧ digit_string c
             ∧ s = "app-" +:+ a +:+ "." +:+ b +:+ "." +:+ c
             ∧ version_of s = [ round53 (digits_value 0 a);
                                round53 (digits_value 0 b);
                                round53 (digits_value 0 c) ].
Proof.
  rewrite test_app_dir_spec. split.
  - intros (a & b & c & Ha & Hb & Hc & ->). exists a, b, c.
    split_and!; try done. by apply version_of_app_dir.
  - intros (a & b & c & Ha & Hb & Hc & -> & _). by exists a, b, c.
Qed.

Lemma scanDir_inr_inv base entries d :
  scanDir base (Some entries) = inr d →
  ∃ h t,
    Array_sort byVersionDesc (map (toVersionDir base) (List.filter isAppDir entries)) = h :: t
    ∧ dir_name d = vd_name h
    ∧ dir_fullPath d = vd_fullPath h
    ∧ dir_allVersions d = map (λ x, Js.replace (vd_name x) "app-" "") (h :: t).
Proof.
  rewrite scanDir_sorted.
  destruct (Array_sort _ _) as [|h t] eqn:Hs; [done|]. intros [= <-]. by exists h, t.
Qed.

(** X21. When the scan finds a directory, it is a directory of the listing
    that passes the filter, no directory that passes the filter has a newer
    version, and among those of the newest version it is the one listed
    first. *)
Theorem scanDir_picks_newest base entries d :
  scanDir base (Some entries) = inr d →
  ∃ before e after,
    entries = before ++ e :: after
    ∧ isAppDir e = true
    ∧ dir_name d = ent_name e
    ∧ dir_fullPath d = path_join base (ent_name e)
    ∧ (∀ e', e' ∈ before → isAppDir e' = true →
             version_le (version_of (ent_name e')) (version_of (ent_name e))
             ∧ ¬ version_le (version_of (ent_name e)) (version_of (ent_name e')))
    ∧ (∀ e', e' ∈ after → isAppDir e' = true →
             version_le (version_of (ent_name e')) (version_of (ent_name e))).
Proof.
  intros (h & t & Hs & Hn & Hp & _)%scanDir_inr_inv. rewrite Hn, Hp.
  apply (Array_sort_head vd_version) in Hs as (l1 & l2 & Hl & Hl1 & Hl2);
    [|apply appDirs_good].
  apply map_eq_app in Hl as (f1 & f2 & Hf & <- & Hm).
  apply map_eq_cons in Hm as (e & f3 & -> & <- & <-).
  apply filter_split in Hf as (before & after & -> & <- & <- & He).
  exists before, e, after. split_and!; try done.
  - intros e' Hin He'.
    rewrite Forall_forall in Hl1. apply (Hl1 (toVersionDir base e')).
    apply list_elem_of_In, in_map, list_elem_of_In. by apply filter_elem.
  - intros e' Hin He'.
    rewrite Forall_forall in Hl2. apply (Hl2 (toVersionDir base e')).
    apply list_elem_of_In, in_map, list_elem_of_In. by apply filter_elem.
Qed.

Lemma scanDir_picks_newest_witness :
  ∃ before e after,
    Dirs.listing = before ++ e :: after
    ∧ isAppDir e = true
    ∧ "app-1.10.3" = ent_name e
    ∧ "C:\Users\u\AppData\Local\AnthropicClaude\app-1.10.3" = path_join Dirs.base (ent_name e)
    ∧ (∀ e', e' ∈ before → isAppDir e' = true →
             version_le (version_of (ent_name e')) (version_of (ent_name e))
             ∧ ¬ version_le (version_of (ent_name e)) (version_of (ent_name e')))
    ∧ (∀ e', e' ∈ after → isAppDir e' = true →
             version_le (version_of (ent_name e')) (version_of (ent_name e))).
Proof.
  apply (scanDir_picks_newest Dirs.base Dirs.listing
           {| dir_name := "app-1.10.3";
              dir_fullPath := "C:\Users\u\AppData\Local\AnthropicClaude\app-1.10.3";
              dir_allVersions := ["1.10.3"; "01.10.3"; "1.9.77"; "1.1.2321"] |}).
  vm_compute. reflexivity.
Defined.

(** X22. The scan of an existing base directory reports that no version
    was found exactly when no entry is a directory named [app-a.b.c]; a
    plain file of that name does not count. *)
Theorem scanDir_no_versions base entries :
  (∃ message, scanDir base (Some entries) = inl message)
  ↔ Forall (λ e, ent_isDirectory e = false ∨ test_app_dir (ent_name e) = false) entries.
Proof.
  rewrite scanDir_sorted.
  pose proof (Array_sort_perm byVersionDesc
                (map (toVersionDir base) (List.filter isAppDir entries))) as Hperm.
  destruct (Array_sort _ _) as [|h t]; split.
  - intros _. apply Permutation_nil_l in Hperm. symmetry in Hperm.
    apply map_eq_nil in Hperm.
    apply Forall_forall. intros e He.
    destruct (isAppDir e) eqn:Hd.
    + pose proof (filter_elem isAppDir _ _ He Hd) as Hin. rewrite Hperm in Hin.
      by apply elem_of_nil in Hin.
    + by apply andb_false_iff in Hd.
  - by eexists.
  - by intros [? ?].
  - intros Hall. exfalso.
    assert (h ∈ map (toVersionDir base) (List.filter isAppDir entries)) as Hin.
    { rewrite <- Hperm. by left. }
    apply list_elem_of_In, in_map_iff in Hin as (e & _ & He).
    apply filter_In in He as [He Hd]. apply list_elem_of_In in He.
    rewrite Forall_forall in Hall. apply andb_true_iff in Hd as [? ?].
    destruct (Hall e He); congruence.
Qed.

(** X23. [allVersions] lists the version strings of all the directories
    that pass the filter, once per directory, from newest to oldest, the
    chosen one first. *)
Theorem scanDir_allVersions base entries d :
  scanDir base (Some entries) = inr d →
  ∃ names,
    names ≡ₚ map ent_name (List.filter isAppDir entries)
    ∧ dir_allVersions d = map (λ n, Js.replace n "app-" "") names
    ∧ Forall (λ n, n = "app-" +:+ Js.replace n "app-" "") names
    ∧ StronglySorted (λ n m, version_le (version_of m) (version_of n)) names
    ∧ head names = Some (dir_name d).
Proof.
  intros (h & t & Hs & Hn & _ & Hv)%scanDir_inr_inv. rewrite Hn, Hv.
  pose proof (Array_sort_perm byVersionDesc
                (map (toVersionDir base) (List.filter isAppDir entries))) as Hperm.
  assert (StronglySorted (λ a b, version_le (vd_version b) (vd_version a)) (h :: t))
    as Hsorted.
  { rewrite <- Hs. apply (Array_sort_sorted vd_version), appDirs_good. }
  rewrite Hs in Hperm.
  exists (map vd_name (h :: t)). split_and!.
  - rewrite Hperm, map_map. done.
  - by rewrite map_map.
  - apply Forall_forall. intros n [x [<- Hx]]%list_elem_of_In%in_map_iff.
    apply list_elem_of_In in Hx. rewrite Hperm in Hx.
    apply list_elem_of_In, in_map_iff in Hx as (e & <- & He).
    apply filter_In in He as [_ [_ Ht]%andb_true_iff].
    apply test_app_dir_spec in Ht as (a & b & c & _ & _ & _ & Hn').
    cbn. rewrite Hn' at 2. by rewrite replace_app_prefix.
  - apply (StronglySorted_map (λ a b, version_le (vd_version b) (vd_version a))); [|done].
    assert (∀ x, x ∈ h :: t → vd_version x = version_of (vd_name x)) as Hk.
    { intros x Hx. rewrite Hperm in Hx.
      by apply list_elem_of_In, in_map_iff in Hx as (e & <- & _). }
    intros x y Hx Hy. by rewrite (Hk x Hx), (Hk y Hy).
  - done.
Qed.

Lemma scanDir_allVersions_witness :
  ∃ names,
    names ≡ₚ map ent_name (List.filter isAppDir Dirs.listing)
    ∧ ["1.10.3"; "01.10.3"; "1.9.77"; "1.1.2321"]
      = map (λ n, Js.replace n "app-" "") names
    ∧ Forall (λ n, n = "app-" +:+ Js.replace n "app-" "") names
    ∧ StronglySorted (λ n m, version_le (version_of m) (version_of n)) names
    ∧ head names = Some "app-1.10.3".
Proof.
  apply (scanDir_allVersions Dirs.base Dirs.listing
           {| dir_name := "app-1.10.3";
              dir_fullPath := "C:\Users\u\AppData\Local\AnthropicClaude\app-1.10.3";
              dir_allVersions := ["1.10.3"; "01.10.3"; "1.9.77"; "1.1.2321"] |}).
  vm_compute. reflexivity.
Defined.

(** X24. On a machine whose scan is this one, the installation that
    [findClaudeInstall] returns is the newest directory [app-] followed by
    the returned version; its paths lie below that directory, and the
    version is the first of [allVersions]. *)
Theorem findClaudeInstall_newest w base entries i :
  scan w = scanDir base (Some entries) →
  findClaudeInstall w = (inr (inr i), w) →
  ∃ e, e ∈ entries
       ∧ isAppDir e = true
       ∧ ent_name e = "app-" +:+ version i
       ∧ appDir i = path_join base (ent_name e)
       ∧ asarPath i = path_join (path_join (appDir i) "resources") "app.asar"
       ∧ exePath i = path_join (appDir i) "claude.exe"
       ∧ head (allVersions i) = Some (version i)
       ∧ ∀ e', e' ∈ entries → isAppDir e' = true →
               version_le (version_of (ent_name e')) (version_of (ent_name e)).
Proof.
  intros Hscan Hfind. apply findClaudeInstall_locate in Hfind.
  unfold locate in Hfind. rewrite Hscan in Hfind.
  destruct (scanDir base (Some entries)) as [m|d] eqn:Hd; [done|].
  apply scanDir_inr_inv in Hd as (h & t & Hs & Hn & Hp & Hv).
  cbv zeta in Hfind. destruct (0 <? _); [done|]. injection Hfind as <-. cbn.
  rewrite Hn, Hp, Hv.
  apply (Array_sort_head vd_version) in Hs as (l1 & l2 & Hl & Hl1 & Hl2);
    [|apply appDirs_good].
  assert (h ∈ map (toVersionDir base) (List.filter isAppDir entries)) as Hin.
  { rewrite Hl. apply elem_of_app. right. by left. }
  apply list_elem_of_In, in_map_iff in Hin as (e & <- & He).
  apply filter_In in He as [He Hd]. apply list_elem_of_In in He.
  pose proof Hd as [_ Ht]%andb_true_iff.
  apply test_app_dir_spec in Ht as (a & b & c & _ & _ & _ & Hname).
  exists e. cbn. split_and!; try done.
  - rewrite Hname at 2. by rewrite replace_app_prefix.
  - intros e' He' Hd'.
    assert (toVersionDir base e' ∈ l1 ++ toVersionDir base e :: l2) as Hin'.
    { rewrite <- Hl. apply list_elem_of_In, in_map, list_elem_of_In. by apply filter_elem. }
    rewrite Forall_forall in Hl1. rewrite Forall_forall in Hl2.
    apply elem_of_app in Hin' as [Hin'|Hin']; [by apply (Hl1 _ Hin')|].
    apply elem_of_cons in Hin' as [Heq|Hin']; [|by apply (Hl2 _ Hin')].
    change (version_le (vd_version (toVersionDir base e')) (vd_version (toVersionDir base e))).
    rewrite Heq. apply version_le_refl. by apply (isAppDir_version e).
Qed.

Lemma findClaudeInstall_newest_witness :
  ∃ e, e ∈ Dirs.listing
       ∧ isAppDir e = true
       ∧ ent_name e = "app-" +:+ "1.10.3"
       ∧ "C:\Users\u\AppData\Local\AnthropicClaude\app-1.10.3" = path_join Dirs.base (ent_name e)
       ∧ asarPath Dirs.install
         = path_join (path_join (appDir Dirs.install) "resources") "app.asar"
       ∧ exePath Dirs.install = path_join (appDir Dirs.install) "claude.exe"
       ∧ head ["1.10.3"; "01.10.3"; "1.9.77"; "1.1.2321"] = Some "1.10.3"
       ∧ ∀ e', e' ∈ Dirs.listing → isAppDir e' = true →
               version_le (version_of (ent_name e')) (version_of (ent_name e)).
Proof.
  apply (findClaudeInstall_newest Dirs.machine Dirs.base Dirs.listing Dirs.install).
  - reflexivity.
  - vm_compute. reflexivity.
Defined.

(** ** backup.js: the marker, written and read back *)

(** X25. What [writeMarker] writes, [isPatchedOnDisk] reads back: after a
    marker write that went through, the installation counts as patched and
    [info] is the decoding of the serialised record; no other file has
    changed. *)
Theorem writeMarker_then_isPatchedOnDisk env i o n w w' :
  writeMarker env i o n w = (inr (), w') →
  isPatchedOnDisk env i w'
  = (inr {| patched := true;
            info := JSON_parse env (JSON_stringify env (marker_data env i o n)) |}, w')
  ∧ (markerPath (getBackupPaths i) ∉ locked w)
  ∧ agree_outside [markerPath (getBackupPaths i)] w w'.
Proof.
  intros Hw. pose proof (writeMarker_within env i o n _ _ _ Hw) as Hagree.
  revert Hw. unfold writeMarker, fs.writeFileSync. cbv zeta.
  destruct (bool_decide _) eqn:Hl; [done|]. apply bool_decide_eq_false in Hl.
  intros [= <-]. split; [|done].
  rewrite (isPatchedOnDisk_present env i _ (Buffer_from (JSON_stringify env (marker_data env i o n)))).
  - unfold Buffer_from. by rewrite string_of_list_byte_of_string.
  - cbn. apply lookup_insert_eq.
Qed.

Lemma writeMarker_then_isPatchedOnDisk_witness :
  isPatchedOnDisk Demo.env Demo.install Demo.marked
  = (inr {| patched := true;
            info := JSON_parse Demo.env
                      (JSON_stringify Demo.env
                         (marker_data Demo.env Demo.install Demo.a64 Demo.b64)) |},
     Demo.marked)
  ∧ (markerPath (getBackupPaths Demo.install) ∉ locked Demo.pristine)
  ∧ agree_outside [markerPath (getBackupPaths Demo.install)] Demo.pristine Demo.marked.
Proof.
  apply (writeMarker_then_isPatchedOnDisk Demo.env Demo.install Demo.a64 Demo.b64
           Demo.pristine Demo.marked).
  vm_compute. reflexivity.
Defined.

(** ** patcher.js: what goes into the repacked archive *)

Lemma patch_commit_ok_packed env i old ws v o n w' :
  paths_distinct i →
  patch_commit env i old ws = (inr (PatchOk v o n), w') →
  o = old ∧ v = version i
  ∧ ∃ tree archive,
      scratch ws = Some tree
      ∧ createPackage env tree = Packed archive
      ∧ files w' !! asarPath i = Some archive
      ∧ 1000 ≤ length archive
      ∧ n = Sha256.hex (header_region archive).
Proof.
  intros Hd.
  pose proof (paths_distinct_ne _ Hd) as (?&?&?&?&?&?&?&?&?&?). cbn in *.
  unfold patch_commit. io_run. unfold try_catch. io_run.
  unfold asar_createPackage.
  destruct (scratch ws) as [tree|] eqn:Hs.
  2:{ io_run. unfold cleanup. io_run. by destruct (restoreBackup i _) as [[?|?] ?]. }
  destruct (createPackage env tree) as [archive|err [residue|]] eqn:Hpack; io_run.
  2,3: unfold cleanup; io_run; by destruct (restoreBackup i _) as [[?|?] ?].
  unfold fs.statSync_size. io_run.
  rewrite (readFileSync_Some _ _ archive) by (cbn; apply lookup_insert_eq). io_run.
  destruct (length archive <? 1000) eqn:Hsize.
  { unfold throw, cleanup. io_run. by destruct (restoreBackup i _) as [[?|?] ?]. }
  apply Nat.ltb_ge in Hsize.
  io_run. rewrite (computeAsarHeaderHash_Some _ _ archive) by (cbn; apply lookup_insert_eq).
  destruct (header_in_range archive); io_run; [|done].
  destruct (patchExeHash _ _ _ _) as [[exn|pr] w8] eqn:Hpe; [done|].
  assert (files w8 !! asarPath i = Some archive) as Ha8.
  { destruct (patchExeHash_within _ _ _ _ _ _ Hpe) as (_ & _ & _ & Hout).
    rewrite Hout; [cbn; apply lookup_insert_eq|]. by intros ?%list_elem_of_singleton. }
  io_run.
  destruct pr as [| |perr].
  1,2: unfold writeMarker, fs.writeFileSync, cleanup; io_run;
    destruct (bool_decide _); [done|]; io_run; intros [= <- <- <- <-];
    (split; [done|]); (split; [done|]); exists tree, archive; split_and!; try done;
    cbn; by rewrite lookup_insert_ne.
  io_run. destruct (restoreBackup i _) as [[?|?] ?]; [done|].
  unfold cleanup. by io_run.
Qed.

Lemma patch_reaches_commit env w i v o n w' :
  findClaudeInstall w = (inr (inr i), w) →
  patch env w = (inr (PatchOk v o n), w') →
  ∃ old sk wb archive0 tree0 content,
    createBackup i w = (inr (BackupOk sk), wb)
    ∧ files w !! asarPath i = Some archive0
    ∧ extractAll env archive0 = inr tree0
    ∧ tree0 !! MAIN_VIEW_PATH = Some content
    ∧ isCodePatched content = false
    ∧ patch_commit env i old
        (set_scratch (Some (<[MAIN_VIEW_PATH := injected (getRtlPayload env) content]> tree0)) wb)
      = (inr (PatchOk v o n), w').
Proof.
  intros Hfind.
  pose proof (findClaudeInstall_found _ _ _ Hfind) as (_ & Hd & [a0 Ha0] & [x0 Hx0]).
  pose proof (paths_distinct_ne _ Hd) as (?&?&?&?&?&?&?&?&?&?).
  unfold patch. io_run. rewrite preflight_eq. io_run.
  unfold preflight_answer. rewrite (proj1 (findClaudeInstall_locate _ _) Hfind).
  destruct (running w) eqn:Hrun; [done|].
  destruct (bool_decide (asarPath i ∈ locked w)) eqn:Hla; [done|].
  destruct (bool_decide (exePath i ∈ locked w)) eqn:Hlx; [done|].
  destruct (files w !! getMarkerPath (resourcesDir i)) eqn:Hm; [done|].
  io_run. destruct (readEmbeddedHash_pure _ _ _ Hx0) as [hr Hhr]. rewrite Hhr. io_run.
  destruct hr as [old off|err]; [|done].
  io_run. rewrite (computeAsarHeaderHash_Some _ _ _ Ha0).
  destruct (header_in_range a0); io_run; [|done].
  destruct (String.eqb_spec (Sha256.hex (header_region a0)) old) as [Heq|Hne]; cbn [negb];
    [|done].
  io_run.
  destruct (createBackup_never_throws i w) as ([sk|err] & wb & Hb); rewrite Hb; io_run;
    [|done].
  assert (files wb !! asarPath i = Some a0) as Ha0b.
  { apply createBackup_ok_inv in Hb; [|done].
    destruct Hb as [(-> & -> & _)|(-> & a & x & _ & _ & ->)]; [done|].
    cbn in *. by rewrite !lookup_insert_ne. }
  unfold try_catch, asar_extractAll, cleanup. io_run. rewrite Ha0b.
  destruct (extractAll env a0) as [exn|tree0] eqn:Hex; io_run; [done|].
  unfold scratch_read, scratch_write. io_run. cbn [scratch set_scratch mbind option_bind].
  destruct (tree0 !! MAIN_VIEW_PATH) as [content|] eqn:Hmv; io_run; [|done].
  destruct (isCodePatched content) eqn:Hcp; io_run; [done|].
  cbn [fmap option_fmap option_map]. intros Hc.
  by exists old, sk, wb, a0, tree0, content.
Qed.

(** X26. The archive a successful [patch] leaves is the pack of the tree
    extracted from the original archive with one file changed: the preload
    script, which did not contain the marker text, now holds the injected
    text. The pack is at least 1000 bytes long and the reported new hash is
    the hash of its header. *)
Theorem patch_repacks_injected_tree env w i v o n w' :
  findClaudeInstall w = (inr (inr i), w) →
  patch env w = (inr (PatchOk v o n), w') →
  ∃ archive0 tree0 content archive,
    files w !! asarPath i = Some archive0
    ∧ extractAll env archive0 = inr tree0
    ∧ tree0 !! MAIN_VIEW_PATH = Some content
    ∧ isCodePatched content = false
    ∧ createPackage env
        (<[MAIN_VIEW_PATH := injected (getRtlPayload env) content]> tree0)
      = Packed archive
    ∧ files w' !! asarPath i = Some archive
    ∧ 1000 ≤ length archive
    ∧ n = Sha256.hex (header_region archive)
    ∧ v = version i.
Proof.
  intros Hfind Hp.
  pose proof (findClaudeInstall_found _ _ _ Hfind) as (_ & Hd & _).
  destruct (patch_reaches_commit _ _ _ _ _ _ _ Hfind Hp)
    as (old & sk & wb & archive0 & tree0 & content & _ & Ha0 & Hex & Hmv & Hcp & Hc).
  apply patch_commit_ok_packed in Hc as (_ & -> & tree & archive & [= <-] & Hpack & Ha & Hlen & ->);
    [|done].
  by exists archive0, tree0, content, archive.
Qed.

Lemma patch_repacks_injected_tree_witness :
  ∃ archive0 tree0 content archive,
    files Demo.pristine !! asarPath Demo.install = Some archive0
    ∧ extractAll Demo.env archive0 = inr tree0
    ∧ tree0 !! MAIN_VIEW_PATH = Some content
    ∧ isCodePatched content = false
    ∧ createPackage Demo.env
        (<[MAIN_VIEW_PATH := injected (getRtlPayload Demo.env) content]> tree0)
      = Packed archive
    ∧ files Cases.patched !! asarPath Demo.install = Some archive
    ∧ 1000 ≤ length archive
    ∧ "febcfc60b55ce2379beeed02dbec587ca5c748386fe84775a722df839572dbb3"
      = Sha256.hex (header_region archive)
    ∧ "1.0.0" = version Demo.install.
Proof.
  apply (patch_repacks_injected_tree Demo.env Demo.pristine Demo.install "1.0.0"
           Demo.pristine_hash
           "febcfc60b55ce2379beeed02dbec587ca5c748386fe84775a722df839572dbb3"
           Cases.patched).
  - reflexivity.
  - vm_compute. reflexivity.
Defined.

(** ** rtl-payload.js and the injection step *)

Lemma append_assoc' a b c : (a +:+ b) +:+ c = a +:+ (b +:+ c).
Proof. induction a as [|x a IH]; [done|]. by rewrite !append_cons, IH. Qed.

Lemma substring_skip a s n : String.substring (String.length a) n (a +:+ s) = String.substring 0 n s.
Proof. induction a as [|x a IH]; [done|]. rewrite append_cons. cbn. apply IH. Qed.

Lemma substring_0_app t b : String.substring 0 (String.length t) (t +:+ b) = t.
Proof.
  induction t as [|x t IH]; cbn.
  - by destruct b.
  - rewrite append_cons. cbn. by rewrite IH.
Qed.

Lemma includes_middle a t b : t ≠ EmptyString → includes (a +:+ t +:+ b) t = true.
Proof.
  intros Ht. unfold includes.
  destruct (String.index 0 t (a +:+ t +:+ b)) eqn:Hi; [done|]. exfalso.
  apply (index_correct3 0 (String.length a)) in Hi; [|done|lia].
  apply Hi. by rewrite substring_skip, substring_0_app.
Qed.

Lemma GetSubstitution_dollar_free m b a l r :
  dollar_free l = true →
  GetSubstitution m b a (l +:+ r) = l +:+ GetSubstitution m b a r.
Proof.
  unfold dollar_free. induction l as [|c l IH]; [done|]. cbn.
  intros [Hc Hl]%andb_true_iff. rewrite !append_cons. cbn.
  apply negb_true_iff in Hc. rewrite Hc. by rewrite IH.
Qed.

Lemma GetSubstitution_id m b a l :
  dollar_free l = true → GetSubstitution m b a l = l.
Proof.
  intros Hl. rewrite <- (append_nil_r l) at 1.
  rewrite GetSubstitution_dollar_free by done. cbn. apply append_nil_r.
Qed.

Lemma dollar_free_app a b : dollar_free (a +:+ b) = dollar_free a && dollar_free b.
Proof.
  unfold dollar_free. induction a as [|c a IH]; [done|].
  rewrite append_cons. cbn. by rewrite IH, andb_assoc.
Qed.

(** A text that the payload holds before its first dollar sign is in
    every injected script. *)
Lemma includes_injected head t rest content :
  dollar_free head = true → dollar_free t = true → t ≠ EmptyString →
  includes (injected (head +:+ t +:+ rest) content) t = true.
Proof.
  intros Hh Ht Hne. unfold injected. destruct (includes content sourceMapComment) eqn:Hinc.
  - unfold includes in Hinc. unfold Js.replace.
    destruct (String.index 0 _ content) as [k|]; [|done].
    rewrite !append_assoc'.
    rewrite (GetSubstitution_dollar_free _ _ _ head) by done.
    rewrite (GetSubstitution_dollar_free _ _ _ t) by done.
    rewrite !append_assoc', <- (append_assoc' _ head). by apply includes_middle.
  - rewrite <- append_assoc'. by apply includes_middle.
Qed.

(** The text every payload starts with, up to the marker, and the rest. *)
Lemma getRtlPayload_of_marker css js :
  ∃ rest, getRtlPayload_of css js
          = (newline +:+ newline +:+ "// === ") +:+ RTL_MARKER +:+ rest.
Proof. eexists. unfold getRtlPayload_of. cbv zeta. reflexivity. Qed.

(** X27. Every payload contains the marker text, and so does every preload
    script after the injection step, whatever it held before and whatever
    the style sheet and the script are: the patched code is recognised as
    patched. *)
Theorem injected_is_recognised css js content :
  isPatched (getRtlPayload_of css js) = true
  ∧ isCodePatched (injected (getRtlPayload_of css js) content) = true.
Proof.
  destruct (getRtlPayload_of_marker css js) as [rest ->].
  unfold isPatched, isCodePatched. split.
  - by apply includes_middle.
  - by apply includes_injected.
Qed.

(** X28. A payload without a dollar sign is inserted as it is: before the
    first source-map comment and followed by a line feed when the script
    has such a comment, at the end of the script otherwise; the script's own
    text is kept. *)
Theorem injected_verbatim payload content :
  dollar_free payload = true →
  injected payload content
  = match String.index 0 sourceMapComment content with
    | Some k =>
      String.substring 0 k content
      +:+ payload +:+ newline +:+ sourceMapComment
      +:+ String.substring (k + 36) (String.length content - (k + 36)) content
    | None => content +:+ payload
    end.
Proof.
  intros Hp. unfold injected, includes, Js.replace.
  destruct (String.index 0 sourceMapComment content) as [k|]; [|done].
  rewrite GetSubstitution_id; [by rewrite !append_assoc'|].
  by rewrite !dollar_free_app, Hp.
Qed.

Lemma injected_verbatim_witness :
  injected "/* Claude RTL Fixer */" ("x();" +:+ sourceMapComment +:+ newline)
  = "x();" +:+ "/* Claude RTL Fixer */" +:+ newline +:+ sourceMapComment +:+ newline.
Proof.
  apply (injected_verbatim "/* Claude RTL Fixer */" ("x();" +:+ sourceMapComment +:+ newline)).
  reflexivity.
Defined.

(** With a dollar sign the insertion need not be verbatim: [replace]
    expands [$'] in the payload to the text after the comment. *)
Lemma injected_dollar_expanded :
  escapeTemplate "$'" = "\$'"
  ∧ injected "\$'" (sourceMapComment +:+ "AFTER")
    = "\AFTER" +:+ newline +:+ sourceMapComment +:+ "AFTER".
Proof. split; reflexivity. Qed.

(** *** The escape passes *)

Lemma string_flat_map_ext f g s :
  (∀ c, f c = g c) → string_flat_map f s = string_flat_map g s.
Proof. intros Hfg. induction s as [|c s IH]; [done|]. cbn. by rewrite Hfg, IH. Qed.

Lemma string_flat_map_app f a b :
  string_flat_map f (a +:+ b) = string_flat_map f a +:+ string_flat_map f b.
Proof.
  induction a as [|c a IH]; [done|]. rewrite append_cons. cbn.
  by rewrite IH, append_assoc'.
Qed.

Lemma string_flat_map_compose f g s :
  string_flat_map g (string_flat_map f s)
  = string_flat_map (λ c, string_flat_map g (f c)) s.
Proof.
  induction s as [|c s IH]; [done|]. cbn. by rewrite string_flat_map_app, IH.
Qed.

(** A replacement that expands to the same text at every match. *)
Lemma replace_each_flat_map c replacement text s :
  (∀ before after, GetSubstitution (String c EmptyString) before after replacement = text) →
  replace_each c replacement s
  = string_flat_map (λ d, if Ascii.eqb d c then text else String d EmptyString) s.
Proof.
  intros Hr. unfold replace_each. generalize EmptyString at 1.
  induction s as [|d s IH]; intros before; [done|]. cbn. by rewrite Hr, IH.
Qed.

Lemma escapeTemplate_flat_map s : escapeTemplate s = string_flat_map escape_char s.
Proof.
  unfold escapeTemplate.
  rewrite (replace_each_flat_map "\" "\\" "\\") by done.
  rewrite (replace_each_flat_map "`" "\`" "\`") by done.
  rewrite (replace_each_flat_map "$" "\$" "\$") by done.
  rewrite !string_flat_map_compose. apply string_flat_map_ext. intros c.
  unfold escape_char.
  destruct (Ascii.eqb_spec c "\") as [->|H1]; [done|].
  destruct (Ascii.eqb_spec c "`") as [->|H2]; [done|].
  destruct (Ascii.eqb_spec c "$") as [->|H3]; [done|].
  cbn. rewrite (proj2 (Ascii.eqb_neq _ _) H2). cbn. by rewrite (proj2 (Ascii.eqb_neq _ _) H3).
Qed.

Lemma template_value_plain c r :
  c ≠ "\"%char → c ≠ "`"%char → c ≠ "$"%char → c ≠ "013"%char →
  template_value (String c r) = String c <$> template_value r.
Proof.
  intros H1 H2 H3 H4. cbn.
  by rewrite (proj2 (Ascii.eqb_neq _ _) H1), (proj2 (Ascii.eqb_neq _ _) H2),
    (proj2 (Ascii.eqb_neq _ _) H3), (proj2 (Ascii.eqb_neq _ _) H4).
Qed.

Lemma template_value_escape_char c r v :
  c ≠ "013"%char →
  template_value r = Some v →
  template_value (escape_char c +:+ r) = Some (String c v).
Proof.
  intros H4 Hr. unfold escape_char.
  destruct (Ascii.eqb_spec c "\") as [->|H1]; [rewrite !append_cons, append_nil; cbn; by rewrite Hr|].
  destruct (Ascii.eqb_spec c "`") as [->|H2]; [rewrite !append_cons, append_nil; cbn; by rewrite Hr|].
  destruct (Ascii.eqb_spec c "$") as [->|H3]; [rewrite !append_cons, append_nil; cbn; by rewrite Hr|].
  rewrite append_cons, append_nil, template_value_plain by done. by rewrite Hr.
Qed.

Lemma normalize_newlines_plain c s :
  c ≠ "013"%char → normalize_newlines (String c s) = String c (normalize_newlines s).
Proof. intros H4. cbn. by rewrite (proj2 (Ascii.eqb_neq _ _) H4). Qed.

Lemma template_value_return h r :
  h ≠ "010"%char →
  template_value (String "013" (String h r)) = String "010" <$> template_value (String h r).
Proof.
  intros Hh.
  change (template_value (String "013" (String h r)))
    with (if Ascii.eqb h "010" then String "010" <$> template_value r
          else String "010" <$> template_value (String h r)).
  by rewrite (proj2 (Ascii.eqb_neq _ _) Hh).
Qed.

Lemma escape_char_head d :
  d ≠ "010"%char → ∃ h t, escape_char d = String h t ∧ h ≠ "010"%char.
Proof.
  intros Hd. unfold escape_char. repeat case_match; by eexists _, _.
Qed.

Lemma template_value_escaped s :
  template_value (string_flat_map escape_char s) = Some (normalize_newlines s)
  ∧ ∀ c, template_value (string_flat_map escape_char (String c s))
         = Some (normalize_newlines (String c s)).
Proof.
  induction s as [|d s [IH1 IH2]].
  { split; [done|]. intros c.
    change (string_flat_map escape_char (String c EmptyString))
      with (escape_char c +:+ EmptyString).
    destruct (Ascii.eqb_spec c "013") as [->|H4]; [done|].
    rewrite (template_value_escape_char c _ EmptyString) by done.
    by rewrite (normalize_newlines_plain c). }
  split; [apply IH2|]. intros c.
  change (string_flat_map escape_char (String c (String d s)))
    with (escape_char c +:+ string_flat_map escape_char (String d s)).
  destruct (Ascii.eqb_spec c "013") as [->|H4].
  2:{ rewrite (template_value_escape_char c _ _ H4 (IH2 d)).
      by rewrite (normalize_newlines_plain c). }
  change (escape_char "013") with (String "013" EmptyString).
  rewrite append_cons, append_nil.
  destruct (Ascii.eqb_spec d "010") as [->|K4].
  - change (string_flat_map escape_char (String "010" s))
      with (String "010" (string_flat_map escape_char s)).
    change (template_value (String "013" (String "010" (string_flat_map escape_char s))))
      with (String "010" <$> template_value (string_flat_map escape_char s)).
    by rewrite IH1.
  - specialize (IH2 d).
    change (string_flat_map escape_char (String d s))
      with (escape_char d +:+ string_flat_map escape_char s) in *.
    destruct (escape_char_head d K4) as (h & t & Hd & Hh). rewrite Hd in *.
    rewrite append_cons in *. rewrite template_value_return, IH2 by done.
    change (normalize_newlines (String "013" (String d s)))
      with (if Ascii.eqb d "010" then String "010" (normalize_newlines s)
            else String "010" (normalize_newlines (String d s))).
    by rewrite (proj2 (Ascii.eqb_neq _ _) K4).
Qed.

(** X29. The three escape passes of [getRtlPayload] rewrite a backslash,
    a backtick and a dollar sign each to a backslash and the character, and
    leave every other character; read as the body of a template literal,
    the escaped text is one complete body without substitutions whose value
    is the original text, up to carriage returns reading as line feeds. *)
Theorem escapeTemplate_round_trip s :
  escapeTemplate s = string_flat_map escape_char s
  ∧ template_value (escapeTemplate s) = Some (normalize_newlines s).
Proof.
  split; [apply escapeTemplate_flat_map|].
  rewrite escapeTemplate_flat_map. apply template_value_escaped.
Qed.

(** ** cli.js: the exit code *)



